(** * Lasso selection: path capture, simplification, scanline fill

    A shallow embedding of [lasso_selection.h] / [lasso_selection.cpp]
    (the Active-Edge-Table version) and the properties of its
    operations.

    Conventions of the embedding:
    - [int] is a 32-bit two's-complement integer, carried as a [Z] in
      [INT_MIN, INT_MAX]; every arithmetic operation on [int]s is written
      with its wrap-around ([int_wrap]), which is what the overflow of a
      signed operation does on the machines the editor runs on;
    - [double] is IEEE-754 binary64, carried by the primitive [float];
      sums, products, quotients and square roots are the correctly
      rounded ones;
    - a member function that can fail to return normally (a recursion or
      a loop without end, an exception leaving the function, an integer
      division that traps) returns an [option], [None] standing for
      "does not return normally";
    - [std::vector] is a [list]; indexing is [!!!], in-place update is
      [<[i:=v]>]. *)

From Stdlib Require Import ZArith Lia Floats Uint63 Permutation Sorted.
From stdpp Require Import base option list sorting.

Local Open Scope Z_scope.

(** ** Machine integers *)

Definition INT_MIN : Z := -2147483648.
Definition INT_MAX : Z := 2147483647.

Definition int_wrap (z : Z) : Z := (z + 2147483648) mod 4294967296 - 2147483648.

Definition int_add (a b : Z) : Z := int_wrap (a + b).
Definition int_sub (a b : Z) : Z := int_wrap (a - b).
Definition int_mul (a b : Z) : Z := int_wrap (a * b).
(** C++ integer division truncates towards zero. *)
Definition int_div (a b : Z) : Z := int_wrap (Z.quot a b).

(** The division of two [int]s, where the divisor is not known to be
    harmless: it does not return when the divisor is zero, or when the
    quotient [INT_MIN / -1] does not fit. *)
Definition int_div_checked (a b : Z) : option Z :=
  if (b =? 0) || ((a =? INT_MIN) && (b =? -1)) then None
  else Some (int_div a b).

Definition int_range (z : Z) : Prop := INT_MIN <= z <= INT_MAX.

(** ** Doubles *)

(** [static_cast<double>(int)], also the implicit conversion of an [int]
    operand; exact for every 32-bit integer. *)
Definition double_of_int (z : Z) : float :=
  if z <? 0 then PrimFloat.opp (PrimFloat.of_uint63 (Uint63.of_Z (- z)))
  else PrimFloat.of_uint63 (Uint63.of_Z z).

(** The integer [std::floor] and [std::ceil] produce, when the argument
    is finite. *)
Definition SF_floor (f : spec_float) : option Z :=
  match f with
  | S754_zero _ => Some 0
  | S754_finite s m e => Some (Z.shiftl (if s then Z.neg m else Z.pos m) e)
  | _ => None
  end.

Definition SF_ceil (f : spec_float) : option Z :=
  match f with
  | S754_zero _ => Some 0
  | S754_finite s m e => Some (- Z.shiftl (if s then Z.pos m else Z.neg m) e)
  | _ => None
  end.

(** [static_cast<int>] of an integral double: the integer when it fits;
    otherwise (too large, infinite, NaN) the conversion is undefined in
    C++, and is taken here as [INT_MIN], the value the x86-64 conversion
    instruction delivers. *)
Definition int_of_integral (o : option Z) : Z :=
  match o with
  | Some z => if (INT_MIN <=? z) && (z <=? INT_MAX) then z else INT_MIN
  | None => INT_MIN
  end.

(** [static_cast<int>(std::floor(d))] and [static_cast<int>(std::ceil(d))]. *)
Definition int_floor (d : float) : Z := int_of_integral (SF_floor (Prim2SF d)).
Definition int_ceil (d : float) : Z := int_of_integral (SF_ceil (Prim2SF d)).

(** ** Data *)

Record LassoPoint := mkLassoPoint { pt_x : Z; pt_y : Z }.

#[global] Instance LassoPoint_inhabited : Inhabited LassoPoint :=
  populate (mkLassoPoint 0 0).

#[global] Instance LassoPoint_eq_dec : EqDecision LassoPoint.
Proof. solve_decision. Defined.

(** [LassoPoint::operator==] *)
Definition point_eqb (a b : LassoPoint) : bool :=
  (pt_x a =? pt_x b) && (pt_y a =? pt_y b).

(** [LassoPoint::distanceTo] *)
Definition distanceTo (a other : LassoPoint) : float :=
  let dx := double_of_int (int_sub (pt_x a) (pt_x other)) in
  let dy := double_of_int (int_sub (pt_y a) (pt_y other)) in
  PrimFloat.sqrt (dx * dx + dy * dy)%float.

(** [LassoPoint::distanceSquaredTo] *)
Definition distanceSquaredTo (a other : LassoPoint) : float :=
  let dx := double_of_int (int_sub (pt_x a) (pt_x other)) in
  let dy := double_of_int (int_sub (pt_y a) (pt_y other)) in
  (dx * dx + dy * dy)%float.

Record LassoBoundingBox := mkLassoBoundingBox {
  minX : Z; minY : Z; maxX : Z; maxY : Z;
  hasPoints : bool
}.

(** The default constructor and [reset] leave the same box. *)
Definition bbox_reset : LassoBoundingBox := mkLassoBoundingBox 0 0 0 0 false.

(** [LassoBoundingBox::expand] *)
Definition expand (b : LassoBoundingBox) (x y : Z) : LassoBoundingBox :=
  if negb (hasPoints b) then mkLassoBoundingBox x y x y true
  else
    mkLassoBoundingBox
      (if x <? minX b then x else minX b)
      (if y <? minY b then y else minY b)
      (if maxX b <? x then x else maxX b)
      (if maxY b <? y then y else maxY b)
      (hasPoints b).

(** [LassoBoundingBox::contains] *)
Definition contains (b : LassoBoundingBox) (x y : Z) : bool :=
  if negb (hasPoints b) then false
  else (minX b <=? x) && (x <=? maxX b) && (minY b <=? y) && (y <=? maxY b).

(** [LassoBoundingBox::isValid] *)
Definition isValid (b : LassoBoundingBox) : bool :=
  hasPoints b && (minX b <=? maxX b) && (minY b <=? maxY b).

(** [LassoBoundingBox::width], [LassoBoundingBox::height] *)
Definition width (b : LassoBoundingBox) : Z :=
  if hasPoints b then int_sub (maxX b) (minX b) else 0.
Definition height (b : LassoBoundingBox) : Z :=
  if hasPoints b then int_sub (maxY b) (minY b) else 0.

Record LassoEdge := mkLassoEdge {
  yMax : Z;
  edge_x : float;
  invSlope : float
}.

(** Modelled from the spec: [position.h] is not among the sources; the
    fill produces "(x, y, floor) integer triples", built by
    [Position(x, y, floor)]. *)
Record Position := mkPosition { pos_x : Z; pos_y : Z; pos_z : Z }.

#[global] Instance Position_eq_dec : EqDecision Position.
Proof. solve_decision. Defined.

Record LassoSelection := mkLassoSelection {
  m_path : list LassoPoint;
  m_simplifiedPath : list LassoPoint;
  m_boundingBox : LassoBoundingBox;
  m_active : bool;
  m_closed : bool;
  m_minPointDistance : float;
  m_minPointDistanceSquared : float;
  m_simplifyTolerance : float
}.

(** The constructor. *)
Definition LassoSelection_new : LassoSelection :=
  mkLassoSelection [] [] bbox_reset false false 0.5%float 0.25%float 0.5%float.

Definition set_path (p : list LassoPoint) (s : LassoSelection) : LassoSelection :=
  mkLassoSelection p (m_simplifiedPath s) (m_boundingBox s) (m_active s)
    (m_closed s) (m_minPointDistance s) (m_minPointDistanceSquared s)
    (m_simplifyTolerance s).

Definition set_simplifiedPath (p : list LassoPoint) (s : LassoSelection)
  : LassoSelection :=
  mkLassoSelection (m_path s) p (m_boundingBox s) (m_active s)
    (m_closed s) (m_minPointDistance s) (m_minPointDistanceSquared s)
    (m_simplifyTolerance s).

Definition set_boundingBox (b : LassoBoundingBox) (s : LassoSelection)
  : LassoSelection :=
  mkLassoSelection (m_path s) (m_simplifiedPath s) b (m_active s)
    (m_closed s) (m_minPointDistance s) (m_minPointDistanceSquared s)
    (m_simplifyTolerance s).

Definition set_closed (c : bool) (s : LassoSelection) : LassoSelection :=
  mkLassoSelection (m_path s) (m_simplifiedPath s) (m_boundingBox s)
    (m_active s) c (m_minPointDistance s) (m_minPointDistanceSquared s)
    (m_simplifyTolerance s).

(** [setActive], [setMinPointDistance], [setSimplifyTolerance]: each
    assigns the one member its body names. *)
Definition setActive (a : bool) (s : LassoSelection) : LassoSelection :=
  mkLassoSelection (m_path s) (m_simplifiedPath s) (m_boundingBox s)
    a (m_closed s) (m_minPointDistance s) (m_minPointDistanceSquared s)
    (m_simplifyTolerance s).

Definition setMinPointDistance (dist : float) (s : LassoSelection)
  : LassoSelection :=
  mkLassoSelection (m_path s) (m_simplifiedPath s) (m_boundingBox s)
    (m_active s) (m_closed s) dist (m_minPointDistanceSquared s)
    (m_simplifyTolerance s).

Definition setSimplifyTolerance (tol : float) (s : LassoSelection)
  : LassoSelection :=
  mkLassoSelection (m_path s) (m_simplifiedPath s) (m_boundingBox s)
    (m_active s) (m_closed s) (m_minPointDistance s)
    (m_minPointDistanceSquared s) tol.

(** ** Path capture *)

(** [LassoSelection::clear] *)
Definition clear (s : LassoSelection) : LassoSelection :=
  mkLassoSelection [] [] bbox_reset false false (m_minPointDistance s)
    (m_minPointDistanceSquared s) (m_simplifyTolerance s).

(** [LassoSelection::addPoint] *)
Definition addPoint (x y : Z) (s : LassoSelection) : LassoSelection :=
  let newPoint := mkLassoPoint x y in
  let tooClose :=
    match last (m_path s) with
    | Some back =>
        (distanceSquaredTo back newPoint <? m_minPointDistanceSquared s)%float
    | None => false
    end in
  if tooClose then s
  else
    let path := m_path s ++ [newPoint] in
    let s1 := set_boundingBox (expand (m_boundingBox s) x y) (set_path path s) in
    if (length path <=? 2)%nat then set_simplifiedPath path s1
    else if (length path mod 20 =? 0)%nat then set_simplifiedPath path s1
    else s1.

(** ** Path simplification (Ramer-Douglas-Peucker) *)

(** [LassoSelection::perpendicularDistance] *)
Definition perpendicularDistance (point lineStart lineEnd : LassoPoint) : float :=
  let dx := double_of_int (int_sub (pt_x lineEnd) (pt_x lineStart)) in
  let dy := double_of_int (int_sub (pt_y lineEnd) (pt_y lineStart)) in
  let lineLengthSq := (dx * dx + dy * dy)%float in
  if (lineLengthSq =? 0)%float then distanceTo point lineStart
  else
    let cross :=
      PrimFloat.abs
        (double_of_int (int_sub (pt_x point) (pt_x lineStart)) * dy
         - double_of_int (int_sub (pt_y point) (pt_y lineStart)) * dx)%float in
    (cross / PrimFloat.sqrt lineLengthSq)%float.

(** One turn of the loop of [rdpSimplify] that looks for the farthest
    point: the state is [(maxDist, maxIndex)]. *)
Definition rdpScanStep (points : list LassoPoint) (start end_ : nat)
    (st : float * nat) (i : nat) : float * nat :=
  let dist :=
    perpendicularDistance (points !!! i) (points !!! start) (points !!! end_) in
  if (fst st <? dist)%float then (dist, i) else st.

(** The loop [for (i = start + 1; i < end; ++i)]. *)
Definition rdpScan (points : list LassoPoint) (start end_ : nat) : float * nat :=
  foldl (rdpScanStep points start end_) (0%float, start)
        (seq (S start) (end_ - start - 1)).

(** [LassoSelection::rdpSimplify]. The recursion of the source is not
    bounded by its arguments (see [rdpSimplify_negative_tolerance_loops]),
    so the embedding counts the depth of the calls: [None] is a call
    chain deeper than [fuel]. *)
Fixpoint rdpSimplify (fuel : nat) (points : list LassoPoint) (start end_ : nat)
    (epsilon : float) (keep : list bool) : option (list bool) :=
  if decide (end_ - start < 2)%nat then Some keep
  else
    match fuel with
    | O => None
    | S fuel' =>
        let '(maxDist, maxIndex) := rdpScan points start end_ in
        if (epsilon <? maxDist)%float then
          keep1 ← rdpSimplify fuel' points start maxIndex epsilon
                     (<[maxIndex := true]> keep);
          rdpSimplify fuel' points maxIndex end_ epsilon keep1
        else Some keep
    end.

(** The loop of [simplifyPath] that copies the points marked in [keep]. *)
Fixpoint collectKept (path : list LassoPoint) (keep : list bool)
  : list LassoPoint :=
  match path, keep with
  | p :: ps, k :: ks =>
      if k then p :: collectKept ps ks else collectKept ps ks
  | _, _ => []
  end.

(** The marks [simplifyPath] ends with. A run of [rdpSimplify] that
    returns never goes deeper than the number of points
    ([rdpSimplify_fuel_enough]), so [None] here means that the source
    recurses without end. *)
Definition rdpKeep (path : list LassoPoint) (epsilon : float)
  : option (list bool) :=
  let n := length path in
  rdpSimplify n path 0 (n - 1) epsilon
    (<[(n - 1)%nat := true]> (<[0%nat := true]> (replicate n false))).

(** [LassoSelection::simplifyPath] *)
Definition simplifyPath (s : LassoSelection) : option LassoSelection :=
  if (length (m_path s) <? 3)%nat then Some (set_simplifiedPath (m_path s) s)
  else
    keep ← rdpKeep (m_path s) (m_simplifyTolerance s);
    Some (set_simplifiedPath (collectKept (m_path s) keep) s).

(** [LassoSelection::closePath] *)
Definition closePath (s : LassoSelection) : option LassoSelection :=
  if (length (m_path s) <? 3)%nat then Some (clear s)
  else
    let path :=
      match head (m_path s), last (m_path s) with
      | Some front, Some back =>
          if negb (point_eqb front back) then m_path s ++ [front] else m_path s
      | _, _ => m_path s
      end in
    simplifyPath (set_closed true (set_path path s)).

(** ** Scanline fill with an active edge table *)

(** The polygon the queries work on. *)
Definition polygon (s : LassoSelection) : list LassoPoint :=
  if decide (m_simplifiedPath s = []) then m_path s else m_simplifiedPath s.

(** One turn of the loop of [buildEdgeTable], for the edge from
    [poly[i]] to [poly[i + 1]]. *)
Definition buildEdgeStep (poly : list LassoPoint) (minY : Z)
    (edgeTable : list (list LassoEdge)) (i : nat) : list (list LassoEdge) :=
  let p1 := poly !!! i in
  let p2 := poly !!! (i + 1)%nat in
  if pt_y p1 =? pt_y p2 then edgeTable
  else
    let '(yMin, yMax, xAtYMin) :=
      if pt_y p1 <? pt_y p2
      then (pt_y p1, pt_y p2, double_of_int (pt_x p1))
      else (pt_y p2, pt_y p1, double_of_int (pt_x p2)) in
    let invSlope :=
      (double_of_int (int_sub (pt_x p2) (pt_x p1))
       / double_of_int (int_sub (pt_y p2) (pt_y p1)))%float in
    let bucketIndex := int_sub yMin minY in
    if (0 <=? bucketIndex) && (bucketIndex <? Z.of_nat (length edgeTable))
    then alter (λ bucket, bucket ++ [mkLassoEdge yMax xAtYMin invSlope])
               (Z.to_nat bucketIndex) edgeTable
    else edgeTable.

(** [LassoSelection::buildEdgeTable] *)
Definition buildEdgeTable (s : LassoSelection)
    (edgeTable : list (list LassoEdge)) (minY : Z) : list (list LassoEdge) :=
  let poly := polygon s in
  if (length poly <? 3)%nat then edgeTable
  else foldl (buildEdgeStep poly minY) edgeTable (seq 0 (length poly - 1)).

(** [std::sort] with the comparator [a.x < b.x], as an insertion sort.
    [std::sort] may leave edges of equal [x] in another order; the runs
    of a scanline are computed from the [x] of the sorted edges alone
    ([fillPairs]). *)
Fixpoint insertEdge (e : LassoEdge) (l : list LassoEdge) : list LassoEdge :=
  match l with
  | [] => [e]
  | e' :: l' =>
      if (edge_x e' <? edge_x e)%float then e' :: insertEdge e l'
      else e :: l
  end.

Definition sortEdges (l : list LassoEdge) : list LassoEdge :=
  foldr insertEdge [] l.

(** The integers [lo], [lo + 1], ..., [hi], as
    [for (int x = lo; x <= hi; ++x)] visits them. *)
Definition span (lo hi : Z) : list Z := seqZ lo (hi - lo + 1).

(** The loop [for (i = 0; i + 1 < activeEdges.size(); i += 2)]: one run
    of cells per pair of active edges. The inner loop
    [for (x = xStart; x <= xEnd; ++x)] cannot end when [xEnd] is the
    largest [int]: [None]. *)
Fixpoint fillPairs (floor y : Z) (activeEdges : list LassoEdge)
    (tiles : list Position) : option (list Position) :=
  match activeEdges with
  | e1 :: e2 :: rest =>
      let xStart := int_ceil (edge_x e1) in
      let xEnd := int_floor (edge_x e2) in
      if xEnd =? INT_MAX then None
      else
        fillPairs floor y rest
          (tiles ++ ((λ x, mkPosition x y floor) <$> span xStart xEnd))
  | _ => Some tiles
  end.

(** [edge.x += edge.invSlope] *)
Definition advanceEdge (e : LassoEdge) : LassoEdge :=
  mkLassoEdge (yMax e) (edge_x e + invSlope e)%float (invSlope e).

(** The body of the scanline loop of [scanlineFillAET], for the row [y];
    the state is the active edge list and the cells produced so far. *)
Definition scanlineStep (floor minY : Z) (edgeTable : list (list LassoEdge))
    (st : list LassoEdge * list Position) (y : Z)
  : option (list LassoEdge * list Position) :=
  let '(activeEdges, tiles) := st in
  let bucketIndex := int_sub y minY in
  let activeEdges :=
    if bucketIndex <? Z.of_nat (length edgeTable)
    then activeEdges ++ edgeTable !!! Z.to_nat bucketIndex
    else activeEdges in
  let activeEdges := filter (λ e, yMax e ≠ y) activeEdges in
  match activeEdges with
  | [] => Some ([], tiles)
  | _ =>
      let activeEdges := sortEdges activeEdges in
      tiles ← fillPairs floor y activeEdges tiles;
      Some (advanceEdge <$> activeEdges, tiles)
  end.

(** The scanline loop, over the rows [ys] in order. *)
Fixpoint scanlineLoop (floor minY : Z) (edgeTable : list (list LassoEdge))
    (ys : list Z) (st : list LassoEdge * list Position)
  : option (list LassoEdge * list Position) :=
  match ys with
  | [] => Some st
  | y :: ys =>
      st ← scanlineStep floor minY edgeTable st y;
      scanlineLoop floor minY edgeTable ys st
  end.

(** [LassoSelection::scanlineFillAET]; [tiles] is the vector passed by
    reference. [std::vector<...> edgeTable(height)] throws when the
    wrapped [height] is negative, and the loop
    [for (y = minY; y <= maxY; ++y)] cannot end when [maxY] is the
    largest [int]: [None]. *)
Definition scanlineFillAET (floor : Z) (s : LassoSelection)
    (tiles : list Position) : option (list Position) :=
  let poly := polygon s in
  if (length poly <? 3)%nat then Some tiles
  else if negb (isValid (m_boundingBox s)) then Some tiles
  else
    let minY := minY (m_boundingBox s) in
    let maxY := maxY (m_boundingBox s) in
    let height := int_add (int_sub maxY minY) 1 in
    if height <? 0 then None
    else
      let edgeTable :=
        buildEdgeTable s (replicate (Z.to_nat height) []) minY in
      if maxY =? INT_MAX then None
      else snd <$> scanlineLoop floor minY edgeTable (span minY maxY) ([], tiles).

(** [LassoSelection::getTilesInPolygon]. [tiles.reserve(n)] changes no
    element of [tiles]; it throws when the wrapped estimate makes [n]
    negative: [None]. *)
Definition getTilesInPolygon (floor : Z) (s : LassoSelection)
  : option (list Position) :=
  if negb (m_closed s) || (length (m_path s) <? 3)%nat then Some []
  else
    let reserved :=
      if isValid (m_boundingBox s) then
        let estimatedTiles :=
          int_mul (int_add (width (m_boundingBox s)) 1)
                  (int_add (height (m_boundingBox s)) 1) in
        0 <=? int_div estimatedTiles 2
      else true in
    if reserved then scanlineFillAET floor s [] else None.

(** ** Point containment (ray casting) *)

(** One turn of the loop of [pointInPolygon]; the state is
    [(inside, j)]. The right-hand operand of [&&] is evaluated only when
    the edge straddles the row; its division does not return when the
    divisor is zero or the quotient is [INT_MIN / -1]: [None]. *)
Definition rayStep (poly : list LassoPoint) (x y : Z)
    (st : bool * nat) (i : nat) : option (bool * nat) :=
  let '(inside, j) := st in
  let pi := poly !!! i in
  let pj := poly !!! j in
  if negb (Bool.eqb (y <? pt_y pi) (y <? pt_y pj)) then
    q ← int_div_checked (int_mul (int_sub (pt_x pj) (pt_x pi))
                                 (int_sub y (pt_y pi)))
                        (int_sub (pt_y pj) (pt_y pi));
    Some (if x <? int_add q (pt_x pi) then negb inside else inside, i)
  else Some (inside, i).

(** The loop [for (i = 0; i < poly.size(); j = i++)], over the indices
    [ks] in order. *)
Fixpoint rayLoop (poly : list LassoPoint) (x y : Z) (ks : list nat)
    (st : bool * nat) : option (bool * nat) :=
  match ks with
  | [] => Some st
  | i :: ks => st ← rayStep poly x y st i; rayLoop poly x y ks st
  end.

(** [LassoSelection::pointInPolygon]; [None] when a division of the
    loop does not return. *)
Definition pointInPolygon (x y : Z) (s : LassoSelection) : option bool :=
  let poly := polygon s in
  if (length poly <? 3)%nat then Some false
  else fst <$> rayLoop poly x y (seq 0 (length poly))
                       (false, (length poly - 1)%nat).

(** ** Calls on a session

    A member function runs on the session object: a call gets the
    session, yields a result and leaves a session behind, or does not
    return ([None]). The body of a member function reads fields of the
    object ([field]) and may write them ([assign]); its locals are
    ordinary values. *)

Definition method (A : Type) : Type :=
  LassoSelection → option (A * LassoSelection).

#[global] Instance method_ret : MRet method := λ A a s, Some (a, s).

#[global] Instance method_bind : MBind method :=
  λ A B k m s, match m s with Some (a, s') => k a s' | None => None end.

(** Reading a field, or a function of the fields, of the object. *)
Definition field {A : Type} (f : LassoSelection → A) : method A :=
  λ s, Some (f s, s).

(** Writing to the object. *)
Definition assign (f : LassoSelection → LassoSelection) : method unit :=
  λ s, Some (tt, f s).

(** A statement that does not return. *)
Definition trap {A : Type} : method A := λ _, None.

(** A computation on locals that may not return. *)
Definition local {A : Type} (r : option A) : method A :=
  λ s, match r with Some a => Some (a, s) | None => None end.

(** [setActive], as a call. *)
Definition call_setActive (active : bool) : method unit :=
  assign (setActive active).

(** [buildEdgeTable], as a call: [edgeTable] is the vector passed by
    reference, the result is what the call leaves in it. *)
Definition call_buildEdgeTable (edgeTable : list (list LassoEdge)) (minY : Z)
  : method (list (list LassoEdge)) :=
  simplified ← field m_simplifiedPath;
  path ← field m_path;
  let poly := if decide (simplified = []) then path else simplified in
  if (length poly <? 3)%nat then mret edgeTable
  else mret (foldl (buildEdgeStep poly minY) edgeTable
                   (seq 0 (length poly - 1))).

(** [scanlineFillAET], as a call: [tiles] is the vector passed by
    reference, the result is what the call leaves in it. *)
Definition call_scanlineFillAET (floor : Z) (tiles : list Position)
  : method (list Position) :=
  simplified ← field m_simplifiedPath;
  path ← field m_path;
  let poly := if decide (simplified = []) then path else simplified in
  if (length poly <? 3)%nat then mret tiles
  else
    box ← field m_boundingBox;
    if negb (isValid box) then mret tiles
    else
      let minY := minY box in
      let maxY := maxY box in
      let height := int_add (int_sub maxY minY) 1 in
      if height <? 0 then trap
      else
        edgeTable ← call_buildEdgeTable (replicate (Z.to_nat height) []) minY;
        if maxY =? INT_MAX then trap
        else
          local (snd <$> scanlineLoop floor minY edgeTable (span minY maxY)
                                      ([], tiles)).

(** [getTilesInPolygon], as a call. *)
Definition call_getTilesInPolygon (floor : Z) : method (list Position) :=
  closed ← field m_closed;
  path ← field m_path;
  if negb closed || (length path <? 3)%nat then mret []
  else
    box ← field m_boundingBox;
    _ ← (if isValid box then
           let estimatedTiles :=
             int_mul (int_add (width box) 1) (int_add (height box) 1) in
           if 0 <=? int_div estimatedTiles 2 then mret tt else trap
         else mret tt);
    call_scanlineFillAET floor [].

(** [pointInPolygon], as a call. *)
Definition call_pointInPolygon (x y : Z) : method bool :=
  simplified ← field m_simplifiedPath;
  path ← field m_path;
  let poly := if decide (simplified = []) then path else simplified in
  if (length poly <? 3)%nat then mret false
  else
    local (fst <$> rayLoop poly x y (seq 0 (length poly))
                           (false, (length poly - 1)%nat)).

(** ** Sessions built by a gesture *)

(** The calls [addPoint(x, y)] of a gesture, in order. *)
Definition addPoints (pts : list (Z * Z)) (s : LassoSelection) : LassoSelection :=
  foldl (λ s p, addPoint (fst p) (snd p) s) s pts.

(** A fresh session, the points of a gesture, then [closePath()]. *)
Definition closedPolygon (pts : list (Z * Z)) : option LassoSelection :=
  closePath (addPoints pts LassoSelection_new).

Definition square3 : list (Z * Z) := [(0, 0); (0, 3); (3, 3); (3, 0)].

(** ** Vocabulary of the properties *)

(** The sessions a client can build: the constructor followed by calls
    of the public member functions that change a session. *)
Inductive reachable : LassoSelection → Prop :=
  | reach_new : reachable LassoSelection_new
  | reach_clear s : reachable s → reachable (clear s)
  | reach_addPoint s x y : reachable s → reachable (addPoint x y s)
  | reach_closePath s s' : reachable s → closePath s = Some s' → reachable s'
  | reach_setActive s a : reachable s → reachable (setActive a s)
  | reach_setMinPointDistance s d :
      reachable s → reachable (setMinPointDistance d s)
  | reach_setSimplifyTolerance s t :
      reachable s → reachable (setSimplifyTolerance t s).

(** [b] is the smallest axis-aligned box that contains every point of
    [path]: it contains them all and each of its sides touches one. *)
Definition smallest_box (path : list LassoPoint) (b : LassoBoundingBox) : Prop :=
  (∀ p, p ∈ path → minX b <= pt_x p <= maxX b ∧ minY b <= pt_y p <= maxY b) ∧
  (∃ p, p ∈ path ∧ pt_x p = minX b) ∧
  (∃ p, p ∈ path ∧ pt_x p = maxX b) ∧
  (∃ p, p ∈ path ∧ pt_y p = minY b) ∧
  (∃ p, p ∈ path ∧ pt_y p = maxY b).

(** The cells [(x, y, floor)] with [x0 <= x <= x1] and [y0 <= y <= y1],
    row by row. *)
Definition grid (x0 x1 y0 y1 floor : Z) : list Position :=
  y ← span y0 y1; (λ x, mkPosition x y floor) <$> span x0 x1.

(** The cells of one run of a scanline: row [y], columns [lo] to [hi]. *)
Definition runCells (floor : Z) (r : Z * Z * Z) : list Position :=
  let '(y, lo, hi) := r in (λ x, mkPosition x y floor) <$> span lo hi.

(** A pentagon with a notch: the vertex (2,1) starts two edges inside
    the shape. *)
Definition notch : list (Z * Z) := [(0, 0); (4, 0); (4, 2); (2, 1); (0, 2)].

(** Comparisons of doubles, as propositions. [fordered d] says that
    [d] is not a NaN: it compares equal to itself. *)
Definition flt (a b : float) : Prop := (a <? b)%float = true.
Definition fordered (a : float) : Prop := (a =? a)%float = true.

(** The distance [rdpSimplify] measures for index [i] on the chord from
    [start] to [end_]. *)
Definition chordDistance (points : list LassoPoint) (start end_ i : nat) : float :=
  perpendicularDistance (points !!! i) (points !!! start) (points !!! end_).

(** The search for the farthest point, over any list of indices and any
    table of distances. *)
Definition scanStep (d : nat → float) (st : float * nat) (i : nat) : float * nat :=
  if (fst st <? d i)%float then (d i, i) else st.

(** The indices marked in [keep], in increasing order. *)
Definition keptIndices (keep : list bool) : list nat :=
  filter (λ i, keep !! i = Some true) (seq 0 (length keep)).

(** The raw path [closePath] leaves when there are at least 3 points. *)
Definition closedPath (path : list LassoPoint) : list LassoPoint :=
  match head path, last path with
  | Some front, Some back =>
      if negb (point_eqb front back) then path ++ [front] else path
  | _, _ => path
  end.

(** What holds of the box and of the two paths in every session a
    client can build: the box is empty with the raw path, and otherwise
    the smallest box around it; the simplified path takes its points
    from the raw path. *)
Definition session_inv (s : LassoSelection) : Prop :=
  ((m_path s = [] ∧ hasPoints (m_boundingBox s) = false) ∨
   (hasPoints (m_boundingBox s) = true ∧
    smallest_box (m_path s) (m_boundingBox s))) ∧
  (∀ p, p ∈ m_simplifiedPath s → p ∈ m_path s).

(** The number of cells of the box fits in an [int] (and its corners
    are [int]s): no subtraction or product of coordinates inside the box
    wraps around. *)
Definition box_fits (b : LassoBoundingBox) : Prop :=
  int_range (minX b) ∧ int_range (maxX b) ∧
  int_range (minY b) ∧ int_range (maxY b) ∧
  (maxX b - minX b + 1) * (maxY b - minY b + 1) <= INT_MAX.

(** The row of a run, and the order of runs by row. *)
Definition runRow (r : Z * Z * Z) : Z := fst (fst r).
Definition rowLe (r1 r2 : Z * Z * Z) : Prop := runRow r1 <= runRow r2.

(** The division of [pointInPolygon] on the edge from [poly[j]] to
    [poly[i]] is evaluated and does not return. *)
Definition rayTraps (poly : list LassoPoint) (y : Z) (i j : nat) : bool :=
  let pi := poly !!! i in
  let pj := poly !!! j in
  negb (Bool.eqb (y <? pt_y pi) (y <? pt_y pj)) &&
  ((int_sub (pt_y pj) (pt_y pi) =? 0)
   || ((int_mul (int_sub (pt_x pj) (pt_x pi)) (int_sub y (pt_y pi)) =? INT_MIN)
       && (int_sub (pt_y pj) (pt_y pi) =? -1))).

(** The test of [pointInPolygon] on the edge from [poly[j]] to
    [poly[i]], when its division returns. *)
Definition rayCrosses (poly : list LassoPoint) (x y : Z) (i j : nat) : bool :=
  let pi := poly !!! i in
  let pj := poly !!! j in
  negb (Bool.eqb (y <? pt_y pi) (y <? pt_y pj)) &&
  (x <? int_add
          (int_div (int_mul (int_sub (pt_x pj) (pt_x pi))
                            (int_sub y (pt_y pi)))
                   (int_sub (pt_y pj) (pt_y pi)))
          (pt_x pi)).

(** A call that returns leaves the session it was called on. *)
Definition readsOnly {A : Type} (m : method A) : Prop :=
  ∀ s r s', m s = Some (r, s') → s' = s.

(** [p] lies in the box [b]. *)
Definition in_box (b : LassoBoundingBox) (p : LassoPoint) : Prop :=
  minX b <= pt_x p <= maxX b ∧ minY b <= pt_y p <= maxY b.

(** The point a sample [(x, y)] of a gesture stands for. *)
Definition samplePoint (p : Z * Z) : LassoPoint := mkLassoPoint (fst p) (snd p).

(** The number of raw points the preview (the simplified path during a
    drag) shows when the raw path has [n] points: all of them up to 2,
    then 2 until the 20th point, then the last multiple of 20. *)
Definition previewLength (n : nat) : nat :=
  if (n <=? 2)%nat then n
  else if (n <? 20)%nat then 2%nat
  else (20 * (n / 20))%nat.

(** Every edge of [edges] ends on a row above [lo], no higher than
    [hi]. *)
Definition edgesEndIn (lo hi : Z) (edges : list LassoEdge) : Prop :=
  Forall (λ e, lo < yMax e <= hi) edges.

(** Every edge of bucket [i] of an edge table for the rows from [minY]
    ends above the row [minY + i] of its bucket, no higher than [maxY]. *)
Definition tableEndsIn (minY maxY : Z) (edgeTable : list (list LassoEdge))
  : Prop :=
  ∀ i bucket, edgeTable !! i = Some bucket →
              edgesEndIn (minY + Z.of_nat i) maxY bucket.

(** The cell [p] moved to the floor [floor]. *)
Definition onFloor (floor : Z) (p : Position) : Position :=
  mkPosition (pos_x p) (pos_y p) floor.

(** The lowest and the highest row of the edge from [poly[i]] to
    [poly[i + 1]]. *)
Definition edgeBottom (poly : list LassoPoint) (i : nat) : Z :=
  Z.min (pt_y (poly !!! i)) (pt_y (poly !!! (i + 1)%nat)).
Definition edgeTop (poly : list LassoPoint) (i : nat) : Z :=
  Z.max (pt_y (poly !!! i)) (pt_y (poly !!! (i + 1)%nat)).

(** The edge from [poly[i]] to [poly[i + 1]] crosses the row [y]: it
    starts on the row or below it and ends above it. *)
Definition crossesRow (poly : list LassoPoint) (y : Z) (i : nat) : Prop :=
  edgeBottom poly i <= y < edgeTop poly i.

#[global] Instance crossesRow_dec poly y i : Decision (crossesRow poly y i).
Proof. unfold crossesRow. apply _. Defined.

(** The edges of [poly] that cross the row [y], by index. *)
Definition crossings (poly : list LassoPoint) (y : Z) : list nat :=
  filter (crossesRow poly y) (seq 0 (length poly - 1)).

(** The state of the scanline loop of [scanlineFillAET] after its first
    [rows] rows: the active edges and the cells produced so far; [None]
    when the loop is not reached or a row does not return. *)
Definition scanlineState (floor : Z) (s : LassoSelection) (rows : nat)
  : option (list LassoEdge * list Position) :=
  let poly := polygon s in
  if (length poly <? 3)%nat then None
  else if negb (isValid (m_boundingBox s)) then None
  else
    let minY := minY (m_boundingBox s) in
    let maxY := maxY (m_boundingBox s) in
    let height := int_add (int_sub maxY minY) 1 in
    if height <? 0 then None
    else
      let edgeTable :=
        buildEdgeTable s (replicate (Z.to_nat height) []) minY in
      if maxY =? INT_MAX then None
      else scanlineLoop floor minY edgeTable (seqZ minY (Z.of_nat rows)) ([], []).

(** The edge from [poly[i]] to [poly[i + 1]] starts on the row [y] and
    is not horizontal: [buildEdgeTable] files it under the row [y]. *)
Definition startsAt (poly : list LassoPoint) (y : Z) (i : nat) : Prop :=
  edgeBottom poly i = y ∧ edgeBottom poly i < edgeTop poly i.

#[global] Instance startsAt_dec poly y i : Decision (startsAt poly y i).
Proof. unfold startsAt. apply _. Defined.

(** The edge from [poly[i]] to [poly[i + 1]] is active on the way into
    the row [y]: it starts below the row and does not end below it. *)
Definition entersRow (poly : list LassoPoint) (y : Z) (i : nat) : Prop :=
  edgeBottom poly i < y <= edgeTop poly i.

#[global] Instance entersRow_dec poly y i : Decision (entersRow poly y i).
Proof. unfold entersRow. apply _. Defined.

(** [edgeTable] has a bucket for each row from [minY] to [maxY], and the
    bucket of a row holds an edge, in order, for each of the edges [ks]
    of [poly] that start on the row. *)
Definition bucketsOf (poly : list LassoPoint) (minY maxY : Z)
    (edgeTable : list (list LassoEdge)) (ks : list nat) : Prop :=
  length edgeTable = Z.to_nat (maxY - minY + 1) ∧
  ∀ j, (j < length edgeTable)%nat →
       yMax <$> (edgeTable !!! j)
       = edgeTop poly <$> filter (startsAt poly (minY + Z.of_nat j)) ks.

(** "At most", between doubles. *)
Definition fle (a b : float) : Prop := (a <=? b)%float = true.

(** The coordinate differences between points of [path] are [int]s: no
    subtraction of [perpendicularDistance] on the path wraps around. *)
Definition coordinatesFit (path : list LassoPoint) : Prop :=
  ∀ p q, p ∈ path → q ∈ path →
         int_range (pt_x p - pt_x q) ∧ int_range (pt_y p - pt_y q).

(** The distance of [perpendicularDistance], in doubles, from the exact
    coordinate differences: from [point] to the line through [lineStart]
    and [lineEnd], and to [lineStart] when they coincide. *)
Definition lineDistance (point lineStart lineEnd : LassoPoint) : float :=
  let dx := double_of_int (pt_x lineEnd - pt_x lineStart) in
  let dy := double_of_int (pt_y lineEnd - pt_y lineStart) in
  let lineLengthSq := (dx * dx + dy * dy)%float in
  if (lineLengthSq =? 0)%float then
    let ex := double_of_int (pt_x point - pt_x lineStart) in
    let ey := double_of_int (pt_y point - pt_y lineStart) in
    PrimFloat.sqrt (ex * ex + ey * ey)%float
  else
    let cross :=
      PrimFloat.abs
        (double_of_int (pt_x point - pt_x lineStart) * dy
         - double_of_int (pt_y point - pt_y lineStart) * dx)%float in
    (cross / PrimFloat.sqrt lineLengthSq)%float.

(** The square of the distance from [p] to the segment from [a] to [b],
    in exact arithmetic, as a fraction [(numerator, denominator)] with a
    positive denominator: the distance to the nearer end when the foot
    of the perpendicular falls outside the segment. *)
Definition segmentDistanceSq (p a b : LassoPoint) : Z * Z :=
  let dx := pt_x b - pt_x a in
  let dy := pt_y b - pt_y a in
  let ex := pt_x p - pt_x a in
  let ey := pt_y p - pt_y a in
  let len2 := dx * dx + dy * dy in
  let dot := ex * dx + ey * dy in
  if dot <=? 0 then (ex * ex + ey * ey, 1)
  else if len2 <=? dot
       then ((pt_x p - pt_x b) * (pt_x p - pt_x b)
             + (pt_y p - pt_y b) * (pt_y p - pt_y b), 1)
       else ((ex * dy - ey * dx) * (ex * dy - ey * dx), len2).

(** The segments of a polyline. *)
Definition segments (poly : list LassoPoint) : list (LassoPoint * LassoPoint) :=
  zip poly (tail poly).

(** [p] lies within distance [sqrt (n / m)] of the polyline [poly], in
    exact arithmetic. *)
Definition nearPolyline (n m : Z) (p : LassoPoint) (poly : list LassoPoint)
  : bool :=
  existsb (λ ab, let d := segmentDistanceSq p (fst ab) (snd ab) in
                 fst d * m <=? n * snd d)
          (segments poly).

(** A gesture with a spike: the second point lies on the line through
    the other two, before its start. *)
Definition spike : list (Z * Z) := [(0, 0); (-5, -5); (10, 10)].

(** How many times the cell [p] occurs in [tiles]. *)
Definition occurrences (p : Position) (tiles : list Position) : nat :=
  length (filter (λ q, q = p) tiles).

(** The ceiling of the [x] of an edge is an [int]: [x] is a number, and
    [static_cast<int>(std::ceil(x))] is defined. *)
Definition edgeFits (e : LassoEdge) : bool :=
  match SF_ceil (Prim2SF (edge_x e)) with
  | Some hi => (INT_MIN <=? hi) && (hi <=? INT_MAX)
  | None => false
  end.

(** The order [std::sort] is to establish: [b] is not to the left of
    [a]. *)
Definition xLe (a b : LassoEdge) : Prop := ¬ flt (edge_x b) (edge_x a).

(** The runs [(y, xStart, xEnd)] of the loop over pairs of active edges,
    on the row [y]. *)
Fixpoint pairRuns (y : Z) (edges : list LassoEdge) : list (Z * Z * Z) :=
  match edges with
  | e1 :: e2 :: rest =>
      (y, int_ceil (edge_x e1), int_floor (edge_x e2)) :: pairRuns y rest
  | _ => []
  end.

(** The run [r1] lies before [r2]: on an earlier row, or on the same
    row and ending no later than [r2] begins. *)
Definition runBefore (r1 r2 : Z * Z * Z) : Prop :=
  runRow r1 < runRow r2 ∨ (runRow r1 = runRow r2 ∧ snd r1 <= snd (fst r2)).

(** Row-major order of cells, columns not decreasing. *)
Definition cellLe (p q : Position) : Prop :=
  pos_y p < pos_y q ∨ (pos_y p = pos_y q ∧ pos_x p <= pos_x q).

(** The edges the scanline loop pairs on the row [y], sorted, when it
    comes to the row with the active edges [activeEdges]. *)
Definition rowEdges (minY : Z) (edgeTable : list (list LassoEdge))
    (activeEdges : list LassoEdge) (y : Z) : list LassoEdge :=
  let bucketIndex := int_sub y minY in
  sortEdges
    (filter (λ e, yMax e ≠ y)
       (if bucketIndex <? Z.of_nat (length edgeTable)
        then activeEdges ++ edgeTable !!! Z.to_nat bucketIndex
        else activeEdges)).

(** The edges the fill of a session pairs on the row [minY + n]. *)
Definition sessionRowEdges (floor : Z) (s : LassoSelection) (n : nat)
  : option (list LassoEdge) :=
  st ← scanlineState floor s n;
  let minY := minY (m_boundingBox s) in
  let maxY := maxY (m_boundingBox s) in
  let height := int_add (int_sub maxY minY) 1 in
  let edgeTable := buildEdgeTable s (replicate (Z.to_nat height) []) minY in
  Some (rowEdges minY edgeTable (fst st) (minY + Z.of_nat n)).

(** On every row of the box the [x] of the edges the fill pairs are
    numbers whose ceilings are [int]s. *)
Definition rowsFit (floor : Z) (s : LassoSelection) : Prop :=
  ∀ n edges,
    minY (m_boundingBox s) + Z.of_nat n <= maxY (m_boundingBox s) →
    sessionRowEdges floor s n = Some edges →
    forallb edgeFits edges = true.

(** * Properties *)

(** ** The conversions, on small values *)

Example int_floor_values :
  int_floor 2.5 = 2 ∧ int_floor (-2.5) = -3 ∧ int_floor 3 = 3 ∧
  int_floor (-0) = 0 ∧ int_floor infinity = INT_MIN.
Proof. by vm_compute. Qed.

Example int_ceil_values :
  int_ceil 2.5 = 3 ∧ int_ceil (-2.5) = -2 ∧ int_ceil 3 = 3 ∧
  int_ceil (-0.25) = 0 ∧ int_ceil nan = INT_MIN.
Proof. by vm_compute. Qed.

Example int_arith_values :
  int_add INT_MAX 1 = INT_MIN ∧ int_sub INT_MIN 1 = INT_MAX ∧
  int_mul 65536 65536 = 0 ∧ int_div (-7) 2 = -3 ∧ int_div 7 (-2) = -3.
Proof. by vm_compute. Qed.

Example double_of_int_values :
  double_of_int (-5) = (-5)%float ∧
  double_of_int INT_MIN = (-2147483648)%float ∧
  (double_of_int 1 / double_of_int (-4))%float = (-0.25)%float.
Proof. by vm_compute. Qed.

(** ** Fill of the 3 by 3 square (C1) *)

Lemma square3_session :
  closedPolygon square3 =
  Some (mkLassoSelection
          [mkLassoPoint 0 0; mkLassoPoint 0 3; mkLassoPoint 3 3;
           mkLassoPoint 3 0; mkLassoPoint 0 0]
          [mkLassoPoint 0 0; mkLassoPoint 0 3; mkLassoPoint 3 3;
           mkLassoPoint 3 0; mkLassoPoint 0 0]
          (mkLassoBoundingBox 0 0 3 3 true)
          false true 0.5%float 0.25%float 0.5%float).
Proof. vm_compute. reflexivity. Qed.

Lemma square3_fill :
  (closedPolygon square3 ≫= getTilesInPolygon 0) = Some (grid 0 3 0 2 0).
Proof. vm_compute. reflexivity. Qed.

(** C1, as stated, fails: the fill of the closed square with corners
    (0,0),(0,3),(3,3),(3,0) on floor 0 is not a listing of the 16 cells
    of the 4 by 4 grid. *)
Lemma square3_fill_not_16_cells :
  ¬ ∃ tiles,
      (closedPolygon square3 ≫= getTilesInPolygon 0) = Some tiles ∧
      tiles ≡ₚ grid 0 3 0 3 0.
Proof.
  intros (tiles & Hfill & Hperm).
  rewrite square3_fill in Hfill. injection Hfill as <-.
  apply Permutation_length in Hperm. vm_compute in Hperm. discriminate.
Qed.

(** C1, amended: the fill of that square on floor 0 returns exactly the
    12 cells (x, y, 0) with 0 <= x <= 3 and 0 <= y <= 2, each once; the
    row y = 3, where both vertical edges end, is left out. *)
Theorem square3_fill_12_cells :
  ∃ tiles,
    (closedPolygon square3 ≫= getTilesInPolygon 0) = Some tiles ∧
    NoDup tiles ∧
    ∀ x y z, mkPosition x y z ∈ tiles ↔ 0 <= x <= 3 ∧ 0 <= y <= 2 ∧ z = 0.
Proof.
  exists (grid 0 3 0 2 0). split; [exact square3_fill|]. split.
  - refine (bool_decide_unpack _ _). vm_compute. exact I.
  - intros x y z. split.
    + intros H. vm_compute in H.
      repeat (apply elem_of_cons in H as [H|H]; [injection H as -> -> ->; lia|]).
      by apply elem_of_nil in H.
    + intros (Hx & Hy & ->).
      assert (Hxs : x = 0 ∨ x = 1 ∨ x = 2 ∨ x = 3) by lia.
      assert (Hys : y = 0 ∨ y = 1 ∨ y = 2) by lia.
      destruct Hxs as [-> | [-> | [-> | ->]]], Hys as [-> | [-> | ->]];
        refine (bool_decide_unpack _ _); vm_compute; exact I.
Qed.

(** ** The order of doubles *)

Section float_order.

Lemma SFltb_irrefl x : SFltb x x = false.
Proof.
  unfold SFltb, SFcompare.
  destruct x as [[]|[]| |[] m e]; try reflexivity;
    rewrite Z.compare_refl; change (Pos.compare_cont Eq m m) with (Pos.compare m m);
    rewrite Pos.compare_refl; reflexivity.
Qed.

Local Ltac order_cases :=
  repeat match goal with
    | H : context [Z.compare ?a ?b] |- _ =>
        destruct (Z.compare_spec a b); simpl in H; try discriminate H
    | H : context [Pos.compare_cont Eq ?a ?b] |- _ =>
        change (Pos.compare_cont Eq a b) with (Pos.compare a b) in H;
        destruct (Pos.compare_spec a b); simpl in H; try discriminate H
    | |- context [Z.compare ?a ?b] =>
        destruct (Z.compare_spec a b); simpl
    | |- context [Pos.compare_cont Eq ?a ?b] =>
        change (Pos.compare_cont Eq a b) with (Pos.compare a b);
        destruct (Pos.compare_spec a b); simpl
    end;
  try reflexivity; try discriminate; try lia.

Lemma SFltb_trans x y z :
  SFltb x y = true → SFltb y z = true → SFltb x z = true.
Proof.
  unfold SFltb, SFcompare.
  destruct x as [[]|[]| |[] mx ex], y as [[]|[]| |[] my ey],
           z as [[]|[]| |[] mz ez];
    simpl; intros Hxy Hyz; try discriminate; try reflexivity; order_cases.
Qed.

Lemma SFltb_cotrans x y z :
  SFltb x z = true → SFeqb y y = true →
  SFltb x y = true ∨ SFltb y z = true.
Proof.
  unfold SFltb, SFeqb, SFcompare.
  destruct x as [[]|[]| |[] mx ex], y as [[]|[]| |[] my ey],
           z as [[]|[]| |[] mz ez];
    simpl; intros Hxz Hy; try discriminate; try (by left); try (by right);
    clear Hy; revert Hxz;
    change (Pos.compare_cont Eq mx my) with (Pos.compare mx my);
    change (Pos.compare_cont Eq my mz) with (Pos.compare my mz);
    change (Pos.compare_cont Eq mx mz) with (Pos.compare mx mz);
    destruct (Z.compare_spec ex ey), (Z.compare_spec ey ez),
             (Z.compare_spec ex ez);
    try lia; simpl; try discriminate; try (by left); try (by right);
    destruct (Pos.compare_spec mx my), (Pos.compare_spec my mz),
             (Pos.compare_spec mx mz);
    try lia; simpl; try discriminate; try (by left); try (by right).
Qed.

Lemma SFltb_ordered x y :
  SFltb x y = true → SFeqb x x = true ∧ SFeqb y y = true.
Proof.
  intros H. split.
  - destruct x as [[]|[]| |[] mx ex]; try reflexivity.
    + destruct y; discriminate.
    + unfold SFeqb, SFcompare. rewrite Z.compare_refl.
      change (Pos.compare_cont Eq mx mx) with (Pos.compare mx mx).
      by rewrite Pos.compare_refl.
    + unfold SFeqb, SFcompare. rewrite Z.compare_refl.
      change (Pos.compare_cont Eq mx mx) with (Pos.compare mx mx).
      by rewrite Pos.compare_refl.
  - destruct y as [[]|[]| |[] my ey]; try reflexivity.
    + destruct x as [[]|[]| |[] mx ex]; discriminate.
    + unfold SFeqb, SFcompare. rewrite Z.compare_refl.
      change (Pos.compare_cont Eq my my) with (Pos.compare my my).
      by rewrite Pos.compare_refl.
    + unfold SFeqb, SFcompare. rewrite Z.compare_refl.
      change (Pos.compare_cont Eq my my) with (Pos.compare my my).
      by rewrite Pos.compare_refl.
Qed.

Lemma flt_irrefl a : ¬ flt a a.
Proof. unfold flt. rewrite FloatAxioms.ltb_spec, SFltb_irrefl. discriminate. Qed.

Lemma flt_trans a b c : flt a b → flt b c → flt a c.
Proof. unfold flt. rewrite !FloatAxioms.ltb_spec. apply SFltb_trans. Qed.

Lemma flt_cotrans a b c : flt a c → fordered b → flt a b ∨ flt b c.
Proof. unfold flt, fordered. rewrite !FloatAxioms.ltb_spec, FloatAxioms.eqb_spec. apply SFltb_cotrans. Qed.

Lemma flt_ordered a b : flt a b → fordered a ∧ fordered b.
Proof. unfold flt, fordered. rewrite FloatAxioms.ltb_spec, !FloatAxioms.eqb_spec. apply SFltb_ordered. Qed.

Lemma flt_asym a b : flt a b → ¬ flt b a.
Proof. intros H1 H2. exact (flt_irrefl a (flt_trans _ _ _ H1 H2)). Qed.

Lemma fordered_zero : fordered 0%float.
Proof. reflexivity. Qed.

(** Between two doubles that are not NaN, "not greater" is "at most". *)
Lemma not_flt_fle a b :
  ¬ flt a b → fordered a → fordered b → (b <=? a)%float = true.
Proof.
  unfold flt, fordered.
  rewrite FloatAxioms.ltb_spec, !FloatAxioms.eqb_spec, FloatAxioms.leb_spec.
  unfold SFltb, SFeqb, SFleb, SFcompare.
  destruct (Prim2SF a) as [[]|[]| |[] ma ea], (Prim2SF b) as [[]|[]| |[] mb eb];
    simpl; try done;
    change (Pos.compare_cont Eq ma mb) with (Pos.compare ma mb);
    change (Pos.compare_cont Eq mb ma) with (Pos.compare mb ma);
    rewrite (Z.compare_antisym ea eb), (Pos.compare_antisym ma mb);
    destruct (ea ?= eb), (ma ?= mb)%positive; simpl; done.
Qed.

End float_order.

(** ** The search for the farthest point *)

Section scan.

Variable d : nat → float.

(** A scan either never updates, or its result is the entry reached
    by the last update: everything before is below it, nothing after
    is above it. *)
Lemma scan_decompose l M0 m0 M m :
  foldl (scanStep d) (M0, m0) l = (M, m) →
  (M = M0 ∧ m = m0 ∧ ∀ k, k ∈ l → ¬ flt M0 (d k)) ∨
  (∃ l1 l2, l = l1 ++ m :: l2 ∧ M = d m ∧ flt M0 (d m) ∧
     (∀ k, k ∈ l1 → fordered (d k) → flt (d k) (d m)) ∧
     (∀ k, k ∈ l2 → ¬ flt (d m) (d k))).
Proof.
  revert M m. induction l as [|i l IH] using rev_ind; intros M m.
  - simpl. intros [= <- <-]. left. repeat split. intros k Hk.
    by apply elem_of_nil in Hk.
  - rewrite foldl_app. simpl.
    destruct (foldl (scanStep d) (M0, m0) l) as [M' m'] eqn:Hl.
    specialize (IH M' m' eq_refl). unfold scanStep. simpl.
    destruct (M' <? d i)%float eqn:Hlt.
    + intros [= <- <-]. right. exists l, []. split; [done|]. split; [done|].
      assert (Hi : flt M' (d i)) by exact Hlt.
      destruct IH as [(-> & -> & Hl1)|(l1 & l2 & -> & -> & H0 & Hb & Ha)].
      * split; [done|]. split; [|by intros k Hk; apply elem_of_nil in Hk].
        intros k Hk Hord. destruct (flt_cotrans _ (d k) _ Hi Hord); [|done].
        by destruct (Hl1 k Hk).
      * split; [by eapply flt_trans|].
        split; [|by intros k Hk; apply elem_of_nil in Hk].
        intros k Hk Hord.
        apply elem_of_app in Hk as [Hk|Hk]; [by eapply flt_trans; eauto|].
        apply elem_of_cons in Hk as [->|Hk]; [done|].
        destruct (flt_cotrans _ (d k) _ Hi Hord); [|done].
        by destruct (Ha k Hk).
    + intros [= <- <-].
      assert (Hi : ¬ flt M' (d i)) by (unfold flt; rewrite Hlt; discriminate).
      destruct IH as [(-> & -> & Hl1)|(l1 & l2 & -> & -> & H0 & Hb & Ha)].
      * left. repeat split. intros k Hk.
        apply elem_of_app in Hk as [Hk|Hk]; [by apply Hl1|].
        apply list_elem_of_singleton in Hk as ->. done.
      * right. exists l1, (l2 ++ [i]). split; [by rewrite <- app_assoc|].
        repeat split; try done. intros k Hk.
        apply elem_of_app in Hk as [Hk|Hk]; [by apply Ha|].
        apply list_elem_of_singleton in Hk as ->. done.
Qed.

(** Conversely, an entry above 0 (or above the initial maximum), above
    every comparable entry before it and not below any entry after it
    is the result of the scan. *)
Lemma scan_recompose l1 l2 m M0 m0 :
  flt M0 (d m) →
  (∀ k, k ∈ l1 → fordered (d k) → flt (d k) (d m)) →
  (∀ k, k ∈ l2 → ¬ flt (d m) (d k)) →
  foldl (scanStep d) (M0, m0) (l1 ++ m :: l2) = (d m, m).
Proof.
  intros H0 Hb Ha. rewrite foldl_app. simpl.
  assert (H1 : ∃ M1 m1, foldl (scanStep d) (M0, m0) l1 = (M1, m1) ∧ flt M1 (d m)).
  { clear Ha. revert M0 m0 H0. induction l1 as [|i l1 IH]; intros M0 m0 H0.
    - by exists M0, m0.
    - simpl. unfold scanStep at 2. simpl.
      destruct (M0 <? d i)%float eqn:Hlt.
      + apply IH.
        * intros k Hk. apply Hb. by apply list_elem_of_further.
        * apply Hb; [apply list_elem_of_here|].
          by apply (flt_ordered M0 (d i)).
      + apply IH; [|done]. intros k Hk. apply Hb. by apply list_elem_of_further. }
  destruct H1 as (M1 & m1 & -> & H1).
  unfold scanStep at 2. simpl. rewrite H1.
  clear Hb H0 H1. induction l2 as [|i l2 IH]; [done|].
  simpl. unfold scanStep at 2. simpl.
  destruct (d m <? d i)%float eqn:Hlt.
  - destruct (Ha i); [apply list_elem_of_here|done].
  - apply IH. intros k Hk. apply Ha. by apply list_elem_of_further.
Qed.

End scan.

Lemma rdpScan_unfold points s e :
  rdpScan points s e =
  foldl (scanStep (chordDistance points s e)) (0%float, s)
        (seq (S s) (e - s - 1)).
Proof. reflexivity. Qed.

Lemma seq_split_at a n l1 m l2 :
  seq a n = l1 ++ m :: l2 →
  (a <= m < a + n)%nat ∧ l1 = seq a (m - a) ∧ l2 = seq (S m) (a + n - S m).
Proof.
  revert a n. induction l1 as [|x l1 IH]; intros a n H.
  - destruct n as [|n]; [done|]. simpl in H. injection H as <- <-.
    split; [lia|]. split; [by rewrite Nat.sub_diag|]. f_equal. lia.
  - destruct n as [|n]; [done|]. simpl in H. injection H as <- H.
    apply IH in H as (Hm & -> & ->). split; [lia|]. split.
    + replace (m - a)%nat with (S (m - S a)) by lia. done.
    + f_equal. lia.
Qed.

(** What the scan of [rdpSimplify] returns: either no point lies above
    distance 0 and the index is still [start], or the index is that of
    the first point at the largest distance. *)
Lemma rdpScan_cases points s e M m :
  rdpScan points s e = (M, m) →
  (M = 0%float ∧ m = s) ∨
  ((s < m < e)%nat ∧ M = chordDistance points s e m ∧ flt 0 M ∧
     (∀ k, (s < k < m)%nat → fordered (chordDistance points s e k) →
           flt (chordDistance points s e k) M) ∧
     (∀ k, (m < k < e)%nat → ¬ flt M (chordDistance points s e k))).
Proof.
  rewrite rdpScan_unfold. intros H.
  apply scan_decompose in H as [(-> & -> & _)|(l1 & l2 & Hl & -> & H0 & Hb & Ha)].
  - by left.
  - right. apply seq_split_at in Hl as (Hm & -> & ->).
    split; [lia|]. split; [done|]. split; [done|]. split.
    + intros k Hk. apply Hb. apply elem_of_seq. lia.
    + intros k Hk. apply Ha. apply elem_of_seq. lia.
Qed.

Lemma rdpScan_ordered points s e M m :
  rdpScan points s e = (M, m) → fordered M.
Proof.
  intros H. apply rdpScan_cases in H as [(-> & _)|(_ & _ & H0 & _)].
  - exact fordered_zero.
  - by apply (flt_ordered 0%float M).
Qed.

(** No interior point is farther from the chord than the distance the
    scan returns. *)
Lemma rdpScan_upper points s e M m k :
  rdpScan points s e = (M, m) → (s < k < e)%nat →
  ¬ flt M (chordDistance points s e k).
Proof.
  intros H Hk. pose proof (rdpScan_cases _ _ _ _ _ H) as Hc.
  rewrite rdpScan_unfold in H.
  apply scan_decompose in H as [(-> & -> & Hall)|(l1 & l2 & Hl & -> & H0 & Hb & Ha)].
  - apply Hall. apply elem_of_seq. lia.
  - apply seq_split_at in Hl as (Hm & -> & ->).
    destruct (decide (k < m)%nat) as [Hlt|Hge].
    + intros Hk'. apply (flt_asym _ _ Hk'). apply Hb; [apply elem_of_seq; lia|].
      by apply (flt_ordered (chordDistance points s e m)).
    + destruct (decide (k = m)) as [->|Hne]; [apply flt_irrefl|].
      apply Ha. apply elem_of_seq. lia.
Qed.

(** ** The recursion of [rdpSimplify] *)

Section rdp.

Variable points : list LassoPoint.
Variable epsilon : float.

Lemma rdpSimplify_unfold fuel s e keep :
  rdpSimplify fuel points s e epsilon keep =
  if decide (e - s < 2)%nat then Some keep
  else
    match fuel with
    | O => None
    | S fuel' =>
        let '(maxDist, maxIndex) := rdpScan points s e in
        if (epsilon <? maxDist)%float then
          keep1 ← rdpSimplify fuel' points s maxIndex epsilon
                     (<[maxIndex := true]> keep);
          rdpSimplify fuel' points maxIndex e epsilon keep1
        else Some keep
    end.
Proof. destruct fuel; reflexivity. Qed.

Local Arguments rdpSimplify : simpl never.

(** When the scan hands back [start] with a distance above the
    tolerance, the second recursive call is the call itself: the source
    never returns. *)
Lemma rdpSimplify_stuck s e M :
  ¬ (e - s < 2)%nat → rdpScan points s e = (M, s) → flt epsilon M →
  ∀ fuel keep, rdpSimplify fuel points s e epsilon keep = None.
Proof.
  intros Hse Hscan HM fuel. induction fuel as [|fuel IH]; intros keep;
    rewrite rdpSimplify_unfold; destruct (decide (e - s < 2)%nat); try done.
  rewrite Hscan. rewrite HM.
  rewrite (rdpSimplify_unfold fuel s s).
  destruct (decide (s - s < 2)%nat); [|lia]. simpl. apply IH.
Qed.

(** A tolerance that is not negative is only exceeded by the distance
    of an interior point. *)
Lemma rdpScan_split s e M m :
  rdpScan points s e = (M, m) → flt epsilon M → ¬ flt epsilon 0%float →
  (s < m < e)%nat.
Proof.
  intros H HM H0. apply rdpScan_cases in H as [(-> & _)|(Hm & _)]; done.
Qed.

Lemma rdpSimplify_fuel_mono fuel s e keep r :
  rdpSimplify fuel points s e epsilon keep = Some r →
  rdpSimplify (S fuel) points s e epsilon keep = Some r.
Proof.
  revert s e keep r. induction fuel as [|fuel IH]; intros s e keep r.
  - rewrite !rdpSimplify_unfold. by destruct (decide (e - s < 2)%nat).
  - rewrite (rdpSimplify_unfold (S fuel)), (rdpSimplify_unfold (S (S fuel))).
    destruct (decide (e - s < 2)%nat); [done|].
    destruct (rdpScan points s e) as [M m].
    destruct (epsilon <? M)%float; [|done].
    destruct (rdpSimplify fuel points s m epsilon (<[m:=true]> keep))
      as [keep1|] eqn:H1; [|done].
    simpl. intros H2. rewrite (IH _ _ _ _ H1). simpl. by apply IH.
Qed.

Lemma rdpSimplify_fuel_le fuel fuel' s e keep r :
  (fuel <= fuel')%nat →
  rdpSimplify fuel points s e epsilon keep = Some r →
  rdpSimplify fuel' points s e epsilon keep = Some r.
Proof.
  induction 1 as [|fuel' _ IH]; [done|].
  intros H. by apply rdpSimplify_fuel_mono, IH.
Qed.

(** A call that returns never nests deeper than the length of its
    range. *)
Lemma rdpSimplify_fuel_enough fuel fuel' s e keep r :
  rdpSimplify fuel points s e epsilon keep = Some r →
  (e - s <= fuel')%nat →
  rdpSimplify fuel' points s e epsilon keep = Some r.
Proof.
  revert fuel' s e keep r.
  induction fuel as [|fuel IH]; intros fuel' s e keep r;
    rewrite (rdpSimplify_unfold _ s e), (rdpSimplify_unfold fuel' s e);
    destruct (decide (e - s < 2)%nat) as [|Hse]; try done.
  intros H Hf. destruct fuel' as [|fuel']; [lia|].
  destruct (rdpScan points s e) as [M m] eqn:Hscan.
  destruct (epsilon <? M)%float eqn:HM; [|done].
  destruct (rdpSimplify fuel points s m epsilon (<[m:=true]> keep))
    as [keep1|] eqn:H1; [|done].
  simpl in H.
  destruct (rdpScan_cases _ _ _ _ _ Hscan) as [(-> & ->)|(Hm & _)].
  - by rewrite (rdpSimplify_stuck s e 0%float Hse Hscan HM) in H.
  - rewrite (IH fuel' _ _ _ _ H1) by lia. simpl. apply (IH fuel' _ _ _ _ H). lia.
Qed.

(** With a tolerance that is not negative every call returns. *)
Lemma rdpSimplify_terminates fuel s e keep :
  ¬ flt epsilon 0%float → (e - s <= fuel)%nat →
  is_Some (rdpSimplify fuel points s e epsilon keep).
Proof.
  intros H0. revert s e keep.
  induction fuel as [|fuel IH]; intros s e keep Hf;
    rewrite rdpSimplify_unfold;
    destruct (decide (e - s < 2)%nat) as [|Hse]; try done; [lia|].
  destruct (rdpScan points s e) as [M m] eqn:Hscan.
  destruct (epsilon <? M)%float eqn:HM; [|done].
  pose proof (rdpScan_split _ _ _ _ Hscan HM H0) as Hm.
  destruct (IH s m (<[m:=true]> keep)) as [keep1 ->]; [lia|].
  simpl. apply IH. lia.
Qed.

(** What a call leaves alone: the length of [keep], the marks outside
    [start, end), and the marks already set. *)
Lemma rdpSimplify_frame fuel s e keep keep' :
  rdpSimplify fuel points s e epsilon keep = Some keep' →
  length keep' = length keep ∧
  (∀ i, (i < s ∨ e <= i)%nat → keep' !! i = keep !! i) ∧
  (∀ i, keep !! i = Some true → keep' !! i = Some true).
Proof.
  revert s e keep keep'.
  induction fuel as [|fuel IH]; intros s e keep keep';
    rewrite rdpSimplify_unfold;
    destruct (decide (e - s < 2)%nat) as [|Hse]; try done;
    try (by intros [= ->]).
  destruct (rdpScan points s e) as [M m] eqn:Hscan.
  destruct (epsilon <? M)%float eqn:HM; [|by intros [= ->]].
  destruct (rdpSimplify fuel points s m epsilon (<[m:=true]> keep))
    as [keep1|] eqn:H1; [|done].
  simpl. intros H2.
  destruct (rdpScan_cases _ _ _ _ _ Hscan) as [(-> & ->)|(Hm & _)].
  { by rewrite (rdpSimplify_stuck s e 0%float Hse Hscan HM) in H2. }
  apply IH in H1 as (Hl1 & Ho1 & Hm1). apply IH in H2 as (Hl2 & Ho2 & Hm2).
  rewrite length_insert in Hl1. split; [congruence|]. split.
  - intros i Hi. rewrite Ho2 by lia. rewrite Ho1 by lia.
    apply list_lookup_insert_ne. lia.
  - intros i Hi. apply Hm2, Hm1.
    destruct (decide (m = i)) as [->|Hne].
    + apply list_lookup_insert_eq. by eapply lookup_lt_Some.
    + by rewrite list_lookup_insert_ne.
Qed.

(** Every interior index of a call that started from unmarked
    interior indices ends up marked, or lies between two neighbouring
    marked indices whose chord is within the tolerance of it. *)
Lemma rdpSimplify_sound fuel s e keep keep' :
  rdpSimplify fuel points s e epsilon keep = Some keep' →
  (e < length keep)%nat →
  keep !! s = Some true → keep !! e = Some true →
  (∀ k, (s < k < e)%nat → keep !! k = Some false) →
  ∀ k, (s < k < e)%nat →
    keep' !! k = Some true ∨
    ∃ i j, (s <= i < k)%nat ∧ (k < j <= e)%nat ∧
      keep' !! i = Some true ∧ keep' !! j = Some true ∧
      (∀ m, (i < m < j)%nat → keep' !! m = Some false) ∧
      ¬ flt epsilon (chordDistance points i j k).
Proof.
  revert s e keep keep'.
  induction fuel as [|fuel IH]; intros s e keep keep';
    rewrite rdpSimplify_unfold;
    destruct (decide (e - s < 2)%nat) as [|Hse]; try done;
    try (intros; lia).
  destruct (rdpScan points s e) as [M m] eqn:Hscan.
  destruct (epsilon <? M)%float eqn:HM.
  - destruct (rdpSimplify fuel points s m epsilon (<[m:=true]> keep))
      as [keep1|] eqn:H1; [|done].
    simpl. intros H2 He Hs Hek Hint k Hk.
    destruct (rdpScan_cases _ _ _ _ _ Hscan) as [(-> & ->)|(Hm & _)].
    { by rewrite (rdpSimplify_stuck s e 0%float Hse Hscan HM) in H2. }
    pose proof (rdpSimplify_frame _ _ _ _ _ H1) as (Hl1 & Ho1 & Hm1).
    pose proof (rdpSimplify_frame _ _ _ _ _ H2) as (Hl2 & Ho2 & Hm2).
    rewrite length_insert in Hl1.
    assert (Hmm : keep1 !! m = Some true).
    { apply Hm1, list_lookup_insert_eq. lia. }
    destruct (decide (k < m)%nat) as [Hkm|Hkm].
    + destruct (IH s m (<[m:=true]> keep) keep1 H1) with (k := k)
        as [Hk1|(i & j & Hi & Hj & Hki & Hkj & Hij & Hd)].
      * rewrite length_insert. lia.
      * rewrite list_lookup_insert_ne by lia. done.
      * apply list_lookup_insert_eq. lia.
      * intros k' Hk'. rewrite list_lookup_insert_ne by lia. apply Hint. lia.
      * lia.
      * left. rewrite Ho2 by lia. done.
      * right. exists i, j. split; [lia|]. split; [lia|].
        split; [by apply Hm2|]. split; [by apply Hm2|]. split; [|done].
        intros m' Hm'. rewrite Ho2 by lia. apply Hij. lia.
    + destruct (decide (k = m)) as [->|Hne]; [left; by apply Hm2|].
      destruct (IH m e keep1 keep' H2) with (k := k)
        as [Hk1|(i & j & Hi & Hj & Hki & Hkj & Hij & Hd)].
      * lia.
      * done.
      * rewrite Ho1 by lia. rewrite list_lookup_insert_ne by lia. done.
      * intros k' Hk'. rewrite Ho1 by lia.
        rewrite list_lookup_insert_ne by lia. apply Hint. lia.
      * lia.
      * by left.
      * right. exists i, j. split; [lia|]. split; [lia|]. done.
  - intros [= <-] He Hs Hek Hint k Hk. right. exists s, e.
    split; [lia|]. split; [lia|]. split; [done|]. split; [done|].
    split; [done|]. intros Hd.
    destruct (flt_cotrans _ M _ Hd (rdpScan_ordered _ _ _ _ _ Hscan)) as [H|H].
    + unfold flt in H. congruence.
    + by apply (rdpScan_upper _ _ _ _ _ k Hscan).
Qed.

End rdp.

(** ** The marked points *)

Lemma collectKept_drop path keep i :
  length keep = length path →
  collectKept (drop i path) (drop i keep) =
  (λ j, path !!! j) <$> filter (λ j, keep !! j = Some true)
                               (seq i (length keep - i)).
Proof.
  intros Hlen. remember (length keep - i)%nat as m eqn:Hm.
  revert i Hm. induction m as [|m IH]; intros i Hm.
  - rewrite (drop_ge path) by lia. done.
  - destruct (lookup_lt_is_Some_2 keep i) as [b Hb]; [lia|].
    destruct (lookup_lt_is_Some_2 path i) as [p Hp]; [lia|].
    rewrite (drop_S _ _ _ Hp), (drop_S _ _ _ Hb). simpl.
    rewrite filter_cons. rewrite (IH (S i)) by lia.
    destruct b.
    + rewrite decide_True by done. simpl.
      by rewrite (list_lookup_total_correct _ _ _ Hp).
    + rewrite decide_False by congruence. done.
Qed.

(** The simplified path lists the marked points in order. *)
Lemma collectKept_keptIndices path keep :
  length keep = length path →
  collectKept path keep = (λ j, path !!! j) <$> keptIndices keep.
Proof.
  intros Hlen. pose proof (collectKept_drop path keep 0 Hlen) as H.
  rewrite !drop_0, Nat.sub_0_r in H. exact H.
Qed.

Lemma elem_of_keptIndices keep k :
  k ∈ keptIndices keep ↔ keep !! k = Some true.
Proof.
  unfold keptIndices. rewrite list_elem_of_filter, elem_of_seq. split.
  - by intros [? _].
  - intros H. split; [done|]. apply lookup_lt_Some in H. lia.
Qed.

Lemma collectKept_head p path keep :
  collectKept (p :: path) (true :: keep) = p :: collectKept path keep.
Proof. reflexivity. Qed.

Lemma collectKept_last path keep :
  length keep = length path → last keep = Some true →
  last (collectKept path keep) = last path.
Proof.
  revert keep. induction path as [|p path IH]; intros [|k keep] Hlen Hlast;
    try done.
  destruct path as [|p' path].
  - destruct keep; [|done]. by injection Hlast as ->.
  - destruct keep as [|k' keep]; [done|].
    rewrite last_cons_cons in Hlast. rewrite last_cons_cons.
    assert (IH' := IH (k' :: keep) ltac:(simpl in *; lia) Hlast).
    rewrite <- IH'.
    change (collectKept (p :: p' :: path) (k :: k' :: keep))
      with (if k then p :: collectKept (p' :: path) (k' :: keep)
            else collectKept (p' :: path) (k' :: keep)).
    destruct k; [|done].
    destruct (collectKept (p' :: path) (k' :: keep)) eqn:Hc; [|done].
    rewrite last_cons in IH'. destruct (last path); discriminate.
Qed.

(** The marks [simplifyPath] starts from. *)
Lemma initial_keep_lookup n :
  (2 <= n)%nat →
  let keep := <[(n - 1)%nat := true]> (<[0%nat := true]> (replicate n false)) in
  length keep = n ∧ keep !! 0%nat = Some true ∧
  keep !! (n - 1)%nat = Some true ∧
  ∀ k, (0 < k < n - 1)%nat → keep !! k = Some false.
Proof.
  intros Hn keep. unfold keep.
  split; [by rewrite !length_insert, length_replicate|]. split; [|split].
  - rewrite list_lookup_insert_ne by lia. apply list_lookup_insert_eq.
    rewrite length_replicate. lia.
  - apply list_lookup_insert_eq. rewrite length_insert, length_replicate. lia.
  - intros k Hk. rewrite !list_lookup_insert_ne by lia.
    apply lookup_replicate_2. lia.
Qed.

(** What the marks of a returning [rdpSimplify] run over the whole path
    say. *)
Lemma rdpKeep_sound path epsilon keep :
  (3 <= length path)%nat → rdpKeep path epsilon = Some keep →
  length keep = length path ∧
  keep !! 0%nat = Some true ∧
  keep !! (length path - 1)%nat = Some true ∧
  ∀ k, (k < length path)%nat →
    keep !! k = Some true ∨
    ∃ i j, (i < k < j)%nat ∧
      keep !! i = Some true ∧ keep !! j = Some true ∧
      (∀ m, (i < m < j)%nat → keep !! m = Some false) ∧
      ¬ flt epsilon (perpendicularDistance (path !!! k) (path !!! i) (path !!! j)).
Proof.
  intros Hn. unfold rdpKeep. intros H.
  destruct (initial_keep_lookup (length path)) as (Hl0 & H0 & Hlast & Hint); [lia|].
  pose proof (rdpSimplify_frame _ _ _ _ _ _ _ H) as (Hl & Ho & Hm).
  split; [congruence|]. split; [by apply Hm|]. split; [by apply Hm|].
  intros k Hk.
  destruct (decide (k = 0%nat)) as [->|Hk0]; [left; by apply Hm|].
  destruct (decide (k = (length path - 1)%nat)) as [->|Hk1]; [left; by apply Hm|].
  destruct (rdpSimplify_sound _ _ _ _ _ _ _ H) with (k := k)
    as [Hkk|(i & j & Hi & Hj & Hki & Hkj & Hij & Hd)];
    try done; try lia.
  - by left.
  - right. exists i, j. split; [lia|]. done.
Qed.

Lemma rdpKeep_terminates path epsilon :
  ¬ flt epsilon 0%float → is_Some (rdpKeep path epsilon).
Proof. intros H. apply rdpSimplify_terminates; [done|lia]. Qed.

(** [rdpKeep] is [None] exactly when no depth is enough for the
    recursion of [rdpSimplify] on the whole path. *)
Lemma rdpKeep_None path epsilon :
  rdpKeep path epsilon = None ↔
  ∀ fuel,
    rdpSimplify fuel path 0 (length path - 1) epsilon
      (<[(length path - 1)%nat := true]>
         (<[0%nat := true]> (replicate (length path) false))) = None.
Proof.
  unfold rdpKeep. split.
  - intros Hnone fuel.
    destruct (rdpSimplify fuel _ _ _ _ _) as [keep|] eqn:Hf; [|done].
    apply (rdpSimplify_fuel_enough _ _ _ (length path)) in Hf; [|lia].
    congruence.
  - intros Hall. apply Hall.
Qed.

Lemma simplifyPath_terminates s :
  ¬ flt (m_simplifyTolerance s) 0%float → is_Some (simplifyPath s).
Proof.
  intros H. unfold simplifyPath. destruct (length (m_path s) <? 3)%nat; [done|].
  destruct (rdpKeep_terminates (m_path s) _ H) as [keep ->]. done.
Qed.

(** ** Tolerance of the simplification (C5) *)

Lemma int_wrap_id z : int_range z → int_wrap z = z.
Proof.
  unfold int_range, INT_MIN, INT_MAX, int_wrap. intros H.
  rewrite Z.mod_small; lia.
Qed.

(** When [simplifyPath] returns on a raw path of at least 3 points,
    the simplified path is the raw path restricted to the marked
    indices; the first and the last raw point are marked; and every raw
    point is marked, or lies between two neighbouring marked points
    for which the test [dist > epsilon] of [rdpSimplify] is false, in
    the distance [perpendicularDistance] computes. *)
Lemma simplifyPath_sound (s : LassoSelection) :
  (3 <= length (m_path s))%nat →
  (¬ flt (m_simplifyTolerance s) 0%float → is_Some (simplifyPath s)) ∧
  ∀ s', simplifyPath s = Some s' →
    m_path s' = m_path s ∧
    head (m_simplifiedPath s') = head (m_path s) ∧
    last (m_simplifiedPath s') = last (m_path s) ∧
    ∃ keep,
      length keep = length (m_path s) ∧
      m_simplifiedPath s' = (λ j, m_path s !!! j) <$> keptIndices keep ∧
      keep !! 0%nat = Some true ∧
      keep !! (length (m_path s) - 1)%nat = Some true ∧
      ∀ k, (k < length (m_path s))%nat →
        keep !! k = Some true ∨
        ∃ i j, (i < k < j)%nat ∧
          keep !! i = Some true ∧ keep !! j = Some true ∧
          (∀ m, (i < m < j)%nat → keep !! m = Some false) ∧
          ¬ flt (m_simplifyTolerance s)
                (perpendicularDistance (m_path s !!! k) (m_path s !!! i)
                                       (m_path s !!! j)).
Proof.
  intros Hn. split; [apply simplifyPath_terminates|].
  intros s'. unfold simplifyPath.
  destruct (length (m_path s) <? 3)%nat eqn:Hlt;
    [apply Nat.ltb_lt in Hlt; lia|].
  destruct (rdpKeep (m_path s) (m_simplifyTolerance s)) as [keep|] eqn:Hk;
    [|done].
  simpl. intros [= <-]. simpl.
  destruct (rdpKeep_sound _ _ _ Hn Hk) as (Hl & H0 & H1 & Hall).
  split; [done|]. split; [|split].
  - destruct (m_path s) as [|p path]; [done|].
    destruct keep as [|[] keep]; try done.
  - apply collectKept_last; [done|]. rewrite last_lookup, Hl.
    by replace (pred (length (m_path s))) with (length (m_path s) - 1)%nat by lia.
  - exists keep. split; [done|]. split; [by apply collectKept_keptIndices|]. done.
Qed.

Lemma spike_simplified :
  simplifyPath (addPoints spike LassoSelection_new)
  = Some (set_simplifiedPath [mkLassoPoint 0 0; mkLassoPoint 10 10]
                             (addPoints spike LassoSelection_new)).
Proof. vm_compute. reflexivity. Qed.

(** C5, as stated, fails: on the gesture (0,0), (-5,-5), (10,10), with
    the tolerance 0.5 of a fresh session, [simplifyPath] drops the point
    (-5,-5), which lies on the line through the two points it keeps, at
    distance [sqrt 50] from the segment between them. *)
Lemma dropped_point_far_from_polyline :
  ¬ ∀ s s',
      (3 <= length (m_path s))%nat → m_simplifyTolerance s = 0.5%float →
      simplifyPath s = Some s' →
      ∀ p, p ∈ m_path s → nearPolyline 1 4 p (m_simplifiedPath s') = true.
Proof.
  intros H.
  specialize (H (addPoints spike LassoSelection_new) _
                ltac:(vm_compute; lia) eq_refl spike_simplified
                (mkLassoPoint (-5) (-5))).
  assert (Hin : mkLassoPoint (-5) (-5) ∈ m_path (addPoints spike LassoSelection_new)).
  { refine (bool_decide_unpack _ _). vm_compute. exact I. }
  specialize (H Hin). vm_compute in H. discriminate H.
Qed.

(** When the coordinate differences do not fit in an [int], a dropped
    point can be far from the line as well: closing the gesture
    (-2147483648,0), (2147482648,1000), (2147483647,1) drops its third
    point, about 999 away from the line through its neighbours. *)
Lemma dropped_point_far_from_line :
  ∃ s, closedPolygon [(-2147483648, 0); (2147482648, 1000); (2147483647, 1)]
       = Some s ∧
       m_simplifiedPath s
       = [mkLassoPoint (-2147483648) 0; mkLassoPoint 2147482648 1000;
          mkLassoPoint (-2147483648) 0] ∧
       mkLassoPoint 2147483647 1 ∈ m_path s ∧
       nearPolyline 1 4 (mkLassoPoint 2147483647 1) (m_simplifiedPath s) = false.
Proof.
  eexists. split; [vm_compute; reflexivity|]. split; [reflexivity|].
  split; [|by vm_compute].
  refine (bool_decide_unpack _ _). vm_compute. exact I.
Qed.

Lemma perpendicularDistance_fit point lineStart lineEnd :
  int_range (pt_x lineEnd - pt_x lineStart) →
  int_range (pt_y lineEnd - pt_y lineStart) →
  int_range (pt_x point - pt_x lineStart) →
  int_range (pt_y point - pt_y lineStart) →
  perpendicularDistance point lineStart lineEnd
  = lineDistance point lineStart lineEnd.
Proof.
  intros H1 H2 H3 H4.
  unfold perpendicularDistance, lineDistance, distanceTo, int_sub.
  by rewrite !int_wrap_id by done.
Qed.

(** C5, amended: on a raw path of at least 3 points whose coordinate
    differences are [int]s, with a tolerance that is a number,
    [simplifyPath] returns whenever the tolerance is not negative; when
    it returns, the first and the last raw point are kept, and every
    raw point is kept or lies between two neighbouring kept points such
    that its distance to the line through them (to the first of them
    when they coincide), as computed in doubles, is not above the
    tolerance: it is at most the tolerance when it is a number. *)
Theorem simplifyPath_line_tolerance (s : LassoSelection) :
  (3 <= length (m_path s))%nat →
  coordinatesFit (m_path s) →
  fordered (m_simplifyTolerance s) →
  (¬ flt (m_simplifyTolerance s) 0%float → is_Some (simplifyPath s)) ∧
  ∀ s', simplifyPath s = Some s' →
    m_path s' = m_path s ∧
    head (m_simplifiedPath s') = head (m_path s) ∧
    last (m_simplifiedPath s') = last (m_path s) ∧
    ∃ keep,
      length keep = length (m_path s) ∧
      m_simplifiedPath s' = (λ j, m_path s !!! j) <$> keptIndices keep ∧
      keep !! 0%nat = Some true ∧
      keep !! (length (m_path s) - 1)%nat = Some true ∧
      ∀ k, (k < length (m_path s))%nat →
        keep !! k = Some true ∨
        ∃ i j, (i < k < j)%nat ∧
          keep !! i = Some true ∧ keep !! j = Some true ∧
          (∀ m, (i < m < j)%nat → keep !! m = Some false) ∧
          let d := lineDistance (m_path s !!! k) (m_path s !!! i)
                                (m_path s !!! j) in
          ¬ flt (m_simplifyTolerance s) d ∧
          (fordered d → fle d (m_simplifyTolerance s)).
Proof.
  intros Hn Hfit Htol.
  destruct (simplifyPath_sound s Hn) as [Hterm Hsound].
  split; [exact Hterm|]. intros s' Hs'.
  destruct (Hsound s' Hs') as (Hp & Hh & Hl & keep & Hlen & Hkept & H0 & H1 & Hall).
  split; [done|]. split; [done|]. split; [done|].
  exists keep. split; [done|]. split; [done|]. split; [done|]. split; [done|].
  intros k Hk. destruct (Hall k Hk) as [Hkeep|(i & j & Hikj & Hi & Hj & Hgap & Hd)];
    [by left|].
  right. exists i, j. split; [done|]. split; [done|]. split; [done|].
  split; [done|].
  assert (Hj' : (j < length (m_path s))%nat).
  { rewrite <- Hlen. by apply lookup_lt_Some in Hj. }
  assert (Hin : ∀ m, (m < length (m_path s))%nat → m_path s !!! m ∈ m_path s)
    by (intros m Hm; by apply list_elem_of_lookup_total_2).
  destruct (Hfit _ _ (Hin j Hj') (Hin i ltac:(lia))) as [Hx1 Hy1].
  destruct (Hfit _ _ (Hin k Hk) (Hin i ltac:(lia))) as [Hx2 Hy2].
  rewrite perpendicularDistance_fit in Hd by done.
  cbv zeta. split; [done|]. intros Hord. by apply not_flt_fle.
Qed.

Lemma simplifyPath_line_tolerance_witness :
  let s := addPoints [(0, 0); (4, 1); (8, 0); (8, 8)] LassoSelection_new in
  ∃ s', simplifyPath s = Some s' ∧
        m_simplifiedPath s' =
        [mkLassoPoint 0 0; mkLassoPoint 4 1; mkLassoPoint 8 0; mkLassoPoint 8 8].
Proof.
  intros s.
  assert (Hn : (3 <= length (m_path s))%nat) by (vm_compute; lia).
  assert (Hfit : coordinatesFit (m_path s)).
  { intros p q Hp Hq.
    assert (Hbox : ∀ r, r ∈ m_path s → 0 <= pt_x r <= 8 ∧ 0 <= pt_y r <= 8).
    { intros r Hr. vm_compute in Hr.
      repeat (apply elem_of_cons in Hr as [-> |Hr]; [simpl; lia|]).
      by apply elem_of_nil in Hr. }
    destruct (Hbox p Hp), (Hbox q Hq).
    unfold int_range, INT_MIN, INT_MAX. lia. }
  destruct (simplifyPath_line_tolerance s Hn Hfit) as [Hterm _]; [reflexivity|].
  destruct Hterm as [s' Hs']; [vm_compute; discriminate|].
  exists s'. split; [exact Hs'|].
  vm_compute in Hs'. injection Hs' as <-. reflexivity.
Defined.

(** ** Simplifying a simplified path (C9) *)

Lemma filter_seq_sorted (P : nat → Prop) `{∀ x, Decision (P x)} a n :
  StronglySorted lt (filter P (seq a n)).
Proof.
  revert a. induction n as [|n IH]; intros a; [constructor|].
  simpl. rewrite filter_cons. destruct (decide (P a)); [|apply IH].
  constructor; [apply IH|]. apply Forall_forall. intros x Hx.
  apply list_elem_of_filter in Hx as [_ Hx]. apply elem_of_seq in Hx. lia.
Qed.

Lemma keptIndices_sorted keep : StronglySorted lt (keptIndices keep).
Proof. apply filter_seq_sorted. Qed.

Lemma sorted_lookup_lt (K : list nat) i j x y :
  StronglySorted lt K → K !! i = Some x → K !! j = Some y →
  (i < j)%nat → (x < y)%nat.
Proof.
  intros HK. revert i j. induction HK as [|z K HK IH Hz]; intros i j Hi Hj Hij.
  - done.
  - destruct j as [|j]; [lia|]. simpl in Hj. destruct i as [|i].
    + injection Hi as ->. rewrite Forall_forall in Hz. apply Hz.
      by eapply list_elem_of_lookup_2.
    + simpl in Hi. apply (IH i j); (done || lia).
Qed.

Lemma sorted_lookup_lt_inv (K : list nat) i j x y :
  StronglySorted lt K → K !! i = Some x → K !! j = Some y →
  (x < y)%nat → (i < j)%nat.
Proof.
  intros HK Hi Hj Hxy.
  destruct (decide (i < j)%nat) as [|Hge]; [done|].
  destruct (decide (i = j)) as [->|Hne]; [rewrite Hi in Hj; injection Hj; lia|].
  pose proof (sorted_lookup_lt K j i y x HK Hj Hi). lia.
Qed.

Lemma collectKept_all path keep :
  length keep = length path → (∀ j, (j < length path)%nat → keep !! j = Some true) →
  collectKept path keep = path.
Proof.
  revert keep. induction path as [|p path IH]; intros [|k keep] Hl Hall; try done.
  simpl. pose proof (Hall 0%nat ltac:(simpl; lia)) as H0. injection H0 as ->.
  f_equal. apply IH; [simpl in Hl; lia|].
  intros j Hj. apply (Hall (S j)). simpl. lia.
Qed.

Section idempotence.

Variable points : list LassoPoint.
Variable epsilon : float.
Variable K : list nat.
Hypothesis K_sorted : StronglySorted lt K.

Let S' : list LassoPoint := (λ j, points !!! j) <$> K.

Local Arguments rdpSimplify : simpl never.

Lemma simplified_lookup j k : K !! j = Some k → S' !!! j = points !!! k.
Proof.
  intros H. apply list_lookup_total_correct. unfold S'.
  by rewrite list_lookup_fmap, H.
Qed.

Lemma simplified_chordDistance a b j s e k :
  K !! a = Some s → K !! b = Some e → K !! j = Some k →
  chordDistance S' a b j = chordDistance points s e k.
Proof.
  intros Ha Hb Hj. unfold chordDistance.
  by rewrite (simplified_lookup _ _ Ha), (simplified_lookup _ _ Hb),
             (simplified_lookup _ _ Hj).
Qed.

(** The farthest point of a range is still the farthest point once
    other points of the range are gone. *)
Lemma simplified_scan a b c s e m M :
  K !! a = Some s → K !! b = Some e → K !! c = Some m →
  rdpScan points s e = (M, m) → (s < m < e)%nat →
  rdpScan S' a b = (M, c).
Proof.
  intros Ha Hb Hc Hscan Hm.
  destruct (rdpScan_cases _ _ _ _ _ Hscan) as [(_ & ->)|(_ & HM & H0 & Hbef & Haft)];
    [lia|].
  assert (Hac : (a < c)%nat) by (eapply sorted_lookup_lt_inv; eauto; lia).
  assert (Hcb : (c < b)%nat) by (eapply sorted_lookup_lt_inv; eauto; lia).
  rewrite rdpScan_unfold.
  replace (b - a - 1)%nat with ((c - a - 1) + S (b - c - 1))%nat by lia.
  rewrite seq_app. replace (S a + (c - a - 1))%nat with c by lia.
  change (seq c (S (b - c - 1))) with (c :: seq (S c) (b - c - 1)).
  assert (Hd : chordDistance S' a b c = M).
  { rewrite HM. by apply simplified_chordDistance. }
  rewrite <- Hd. apply scan_recompose.
  - by rewrite Hd.
  - intros j Hj. apply elem_of_seq in Hj.
    destruct (lookup_lt_is_Some_2 K j) as [k Hk].
    { apply lookup_lt_Some in Hc. lia. }
    rewrite Hd, (simplified_chordDistance a b j s e k) by done.
    apply Hbef. split.
    + apply (sorted_lookup_lt K a j); (done || lia).
    + apply (sorted_lookup_lt K j c); (done || lia).
  - intros j Hj. apply elem_of_seq in Hj.
    destruct (lookup_lt_is_Some_2 K j) as [k Hk].
    { apply lookup_lt_Some in Hb. lia. }
    rewrite Hd, (simplified_chordDistance a b j s e k) by done.
    apply Haft. split.
    + apply (sorted_lookup_lt K c j); (done || lia).
    + apply (sorted_lookup_lt K j b); (done || lia).
Qed.

(** A call on the simplified path follows the call on the raw path
    that produced it, and marks every interior index. *)
Lemma rdpSimplify_simplified fuel s e keep keep' a b keepS :
  rdpSimplify fuel points s e epsilon keep = Some keep' →
  K !! a = Some s → K !! b = Some e →
  (e < length keep)%nat →
  (∀ k, (s < k < e)%nat → keep !! k = Some false) →
  (∀ k, (s < k < e)%nat → keep' !! k = Some true ↔ k ∈ K) →
  (b < length keepS)%nat →
  ∃ keepS',
    rdpSimplify fuel S' a b epsilon keepS = Some keepS' ∧
    ∀ j, (a < j < b)%nat → keepS' !! j = Some true.
Proof.
  revert s e keep keep' a b keepS.
  induction fuel as [|fuel IH]; intros s e keep keep' a b keepS;
    rewrite (rdpSimplify_unfold points), (rdpSimplify_unfold S');
    destruct (decide (e - s < 2)%nat) as [Hse|Hse].
  - intros _ Ha Hb _ _ _ _.
    destruct (decide (b - a < 2)%nat) as [Hab|Hab].
    + exists keepS. split; [done|]. intros j Hj. lia.
    + destruct (lookup_lt_is_Some_2 K (S a)) as [k Hk].
      { apply lookup_lt_Some in Hb. lia. }
      pose proof (sorted_lookup_lt K a (S a) s k K_sorted Ha Hk).
      pose proof (sorted_lookup_lt K (S a) b k e K_sorted Hk Hb). lia.
  - done.
  - intros _ Ha Hb _ _ _ _.
    destruct (decide (b - a < 2)%nat) as [Hab|Hab].
    + exists keepS. split; [done|]. intros j Hj. lia.
    + destruct (lookup_lt_is_Some_2 K (S a)) as [k Hk].
      { apply lookup_lt_Some in Hb. lia. }
      pose proof (sorted_lookup_lt K a (S a) s k K_sorted Ha Hk).
      pose proof (sorted_lookup_lt K (S a) b k e K_sorted Hk Hb). lia.
  - destruct (rdpScan points s e) as [M m] eqn:Hscan.
    destruct (epsilon <? M)%float eqn:HM.
    + destruct (rdpSimplify fuel points s m epsilon (<[m:=true]> keep))
        as [keep1|] eqn:H1; [|done].
      simpl. intros H2 Ha Hb He Hint HK HbS.
      destruct (rdpScan_cases _ _ _ _ _ Hscan) as [(-> & ->)|(Hm & _)].
      { by rewrite (rdpSimplify_stuck _ _ s e 0%float Hse Hscan HM) in H2. }
      pose proof (rdpSimplify_frame _ _ _ _ _ _ _ H1) as (Hl1 & Ho1 & Hm1).
      pose proof (rdpSimplify_frame _ _ _ _ _ _ _ H2) as (Hl2 & Ho2 & Hm2).
      rewrite length_insert in Hl1.
      assert (HmK : m ∈ K).
      { apply HK; [lia|]. apply Hm2, Hm1, list_lookup_insert_eq. lia. }
      apply list_elem_of_lookup in HmK as [c Hc].
      assert (Hac : (a < c)%nat) by (eapply sorted_lookup_lt_inv; eauto; lia).
      assert (Hcb : (c < b)%nat) by (eapply sorted_lookup_lt_inv; eauto; lia).
      destruct (decide (b - a < 2)%nat) as [Hab|Hab]; [lia|].
      rewrite (simplified_scan a b c s e m M) by done. rewrite HM.
      destruct (IH s m (<[m:=true]> keep) keep1 a c (<[c:=true]> keepS))
        as (keepS1 & HS1 & HallS1); try done.
      * rewrite length_insert. lia.
      * intros k Hk. rewrite list_lookup_insert_ne by lia. apply Hint. lia.
      * intros k Hk. rewrite <- HK by lia. by rewrite Ho2 by lia.
      * rewrite length_insert. lia.
      * rewrite HS1. simpl.
        pose proof (rdpSimplify_frame _ _ _ _ _ _ _ HS1) as (HlS1 & HoS1 & HmS1).
        rewrite length_insert in HlS1.
        destruct (IH m e keep1 keep' c b keepS1) as (keepS2 & HS2 & HallS2);
          try done.
        -- lia.
        -- intros k Hk. rewrite Ho1 by lia.
           rewrite list_lookup_insert_ne by lia. apply Hint. lia.
        -- intros k Hk. apply HK. lia.
        -- lia.
        -- exists keepS2. split; [done|]. intros j Hj.
           pose proof (rdpSimplify_frame _ _ _ _ _ _ _ HS2) as (HlS2 & HoS2 & HmS2).
           destruct (decide (j < c)%nat); [apply HmS2, HallS1; lia|].
           destruct (decide (j = c)) as [->|];
             [apply HmS2, HmS1, list_lookup_insert_eq; lia|].
           apply HallS2. lia.
    + intros [= <-] Ha Hb He Hint HK HbS.
      destruct (decide (b - a < 2)%nat) as [Hab|Hab].
      * exists keepS. split; [done|]. intros j Hj. lia.
      * destruct (lookup_lt_is_Some_2 K (S a)) as [k Hk].
        { apply lookup_lt_Some in Hb. lia. }
        pose proof (sorted_lookup_lt K a (S a) s k K_sorted Ha Hk).
        pose proof (sorted_lookup_lt K (S a) b k e K_sorted Hk Hb).
        assert (Hkk : keep !! k = Some true).
        { apply HK; [lia|]. by eapply list_elem_of_lookup_2. }
        rewrite Hint in Hkk by lia. discriminate.
Qed.

End idempotence.

Lemma rdpKeep_simplified path epsilon keep :
  (3 <= length path)%nat → rdpKeep path epsilon = Some keep →
  (3 <= length (collectKept path keep))%nat →
  ∃ keepS, rdpKeep (collectKept path keep) epsilon = Some keepS ∧
           collectKept (collectKept path keep) keepS = collectKept path keep.
Proof.
  intros Hn Hk Hn'.
  destruct (rdpKeep_sound _ _ _ Hn Hk) as (Hl & H0 & H1 & _).
  rewrite collectKept_keptIndices in * by done.
  set (K := keptIndices keep) in *.
  set (S' := (λ j, path !!! j) <$> K) in *.
  assert (HlS : length S' = length K) by apply length_fmap.
  pose proof (keptIndices_sorted keep) as HK. fold K in HK.
  assert (HK0 : K !! 0%nat = Some 0%nat).
  { apply elem_of_keptIndices, list_elem_of_lookup in H0 as [a Ha]. fold K in Ha.
    destruct a as [|a]; [done|].
    destruct (lookup_lt_is_Some_2 K 0) as [x Hx]; [lia|].
    pose proof (sorted_lookup_lt K 0 (S a) x 0 HK Hx Ha). lia. }
  assert (HK1 : K !! (length K - 1)%nat = Some (length path - 1)%nat).
  { apply elem_of_keptIndices, list_elem_of_lookup in H1 as [b Hb]. fold K in Hb.
    pose proof (lookup_lt_Some _ _ _ Hb).
    destruct (decide (b = (length K - 1)%nat)) as [->|Hne]; [done|].
    destruct (lookup_lt_is_Some_2 K (S b)) as [y Hy]; [lia|].
    pose proof (sorted_lookup_lt K b (S b) _ y HK Hb Hy).
    assert (Hyk : y ∈ keptIndices keep) by (by eapply list_elem_of_lookup_2).
    apply elem_of_keptIndices, lookup_lt_Some in Hyk. lia. }
  destruct (initial_keep_lookup (length path)) as (Hl0 & _ & _ & Hint); [lia|].
  destruct (initial_keep_lookup (length S')) as (HlS0 & HS0 & HS1 & _); [lia|].
  unfold rdpKeep in Hk.
  destruct (rdpSimplify_simplified path epsilon K HK (length path) 0
              (length path - 1) _ keep 0 (length K - 1)
              (<[(length S' - 1)%nat:=true]> (<[0%nat:=true]> (replicate (length S') false)))
              Hk HK0 HK1) as (keepS & HkS & Hall).
  - lia.
  - exact Hint.
  - intros k _. symmetry. apply elem_of_keptIndices.
  - lia.
  - fold S' in HkS. exists keepS. unfold rdpKeep. rewrite HlS in *.
    apply (rdpSimplify_fuel_enough _ _ _ (length K)) in HkS; [|lia].
    split; [exact HkS|].
    pose proof (rdpSimplify_frame _ _ _ _ _ _ _ HkS) as (HlS2 & _ & HmS).
    apply collectKept_all; [lia|]. rewrite HlS. intros j Hj.
    destruct (decide (j = 0%nat)) as [->|]; [by apply HmS|].
    destruct (decide (j = (length K - 1)%nat)) as [->|]; [by apply HmS|].
    apply Hall. lia.
Qed.

(** C9: when [simplifyPath] returns, running it again on its own output
    (the simplified path taken as the raw path, same tolerance) returns
    that same path; and it returns whenever the tolerance is not
    negative. *)
Theorem simplifyPath_idempotent (s : LassoSelection) :
  (¬ flt (m_simplifyTolerance s) 0%float → is_Some (simplifyPath s)) ∧
  ∀ s1, simplifyPath s = Some s1 →
    simplifyPath (set_path (m_simplifiedPath s1) s1) =
    Some (set_path (m_simplifiedPath s1) s1).
Proof.
  split; [apply simplifyPath_terminates|].
  intros s1. unfold simplifyPath at 1.
  destruct (length (m_path s) <? 3)%nat eqn:Hlt.
  - intros [= <-]. unfold simplifyPath. simpl. by rewrite Hlt.
  - apply Nat.ltb_ge in Hlt.
    destruct (rdpKeep (m_path s) (m_simplifyTolerance s)) as [keep|] eqn:Hk;
      [|done].
    simpl. intros [= <-]. unfold simplifyPath. simpl.
    destruct (length (collectKept (m_path s) keep) <? 3)%nat eqn:Hlt'; [done|].
    apply Nat.ltb_ge in Hlt'.
    destruct (rdpKeep_simplified _ _ _ Hlt Hk Hlt') as (keepS & -> & Heq).
    simpl. unfold set_simplifiedPath, set_path. simpl. by rewrite Heq.
Qed.

Lemma simplifyPath_idempotent_witness :
  let s := addPoints [(0, 0); (1, 0); (2, 1); (3, 0); (4, 0); (5, 3); (6, 0)]
                     LassoSelection_new in
  ∃ s1, simplifyPath s = Some s1 ∧
        simplifyPath (set_path (m_simplifiedPath s1) s1) =
        Some (set_path (m_simplifiedPath s1) s1).
Proof.
  intros s. destruct (simplifyPath_idempotent s) as [Hterm Hidem].
  destruct Hterm as [s1 Hs1]; [vm_compute; discriminate|].
  exists s1. split; [exact Hs1|]. apply Hidem, Hs1.
Defined.

(** With a negative tolerance and three points in a line the recursion
    of [rdpSimplify] never ends. *)
Lemma rdpSimplify_negative_tolerance_loops fuel keep :
  rdpSimplify fuel [mkLassoPoint 0 0; mkLassoPoint 1 0; mkLassoPoint 2 0]
              0 2 (-1)%float keep = None.
Proof.
  apply (rdpSimplify_stuck _ _ 0 2 0%float); [lia|reflexivity|reflexivity].
Qed.

(** ** Closing a path (C2) *)

Lemma point_eqb_eq a b : point_eqb a b = true ↔ a = b.
Proof.
  unfold point_eqb. rewrite andb_true_iff, !Z.eqb_eq.
  destruct a, b; simpl. split; [by intros [-> ->]|by intros [= -> ->]].
Qed.

Lemma simplifyPath_path s s' :
  simplifyPath s = Some s' →
  m_path s' = m_path s ∧ m_boundingBox s' = m_boundingBox s ∧
  m_closed s' = m_closed s ∧ m_active s' = m_active s ∧
  m_simplifyTolerance s' = m_simplifyTolerance s ∧
  m_minPointDistance s' = m_minPointDistance s ∧
  m_minPointDistanceSquared s' = m_minPointDistanceSquared s.
Proof.
  unfold simplifyPath. destruct (length (m_path s) <? 3)%nat.
  - by intros [= <-].
  - destruct (rdpKeep _ _); [|done]. by intros [= <-].
Qed.

Lemma closedPath_closed path :
  path ≠ [] → is_Some (head (closedPath path)) ∧
  head (closedPath path) = last (closedPath path).
Proof.
  intros Hne. unfold closedPath.
  destruct path as [|p path]; [done|].
  destruct (last (p :: path)) as [back|] eqn:Hlast.
  - change (head (p :: path)) with (Some p). cbv beta iota.
    destruct (point_eqb p back) eqn:Heq; simpl negb; cbv iota.
    + apply point_eqb_eq in Heq as <-. by rewrite Hlast.
    + split; [done|]. by rewrite last_snoc.
  - by rewrite last_cons in Hlast; destruct (last path).
Qed.

(** C2: [closePath] on a raw path of at least 3 points marks the
    session closed and leaves a raw path whose first and last points are
    equal, the first point being appended when it differs from the last;
    the call returns whenever the tolerance is not negative. On a raw
    path of fewer than 3 points it resets the session: both paths empty,
    the box reset, inactive, not closed. *)
Theorem closePath_closure (s : LassoSelection) :
  ((3 <= length (m_path s))%nat →
     (¬ flt (m_simplifyTolerance s) 0%float → is_Some (closePath s)) ∧
     ∀ s', closePath s = Some s' →
       m_closed s' = true ∧
       is_Some (head (m_path s')) ∧
       head (m_path s') = last (m_path s') ∧
       (head (m_path s) = last (m_path s) → m_path s' = m_path s) ∧
       (∀ front, head (m_path s) = Some front → last (m_path s) ≠ Some front →
                 m_path s' = m_path s ++ [front])) ∧
  ((length (m_path s) < 3)%nat →
     closePath s = Some (clear s) ∧
     m_path (clear s) = [] ∧ m_simplifiedPath (clear s) = [] ∧
     m_boundingBox (clear s) = bbox_reset ∧
     hasPoints (m_boundingBox (clear s)) = false ∧
     m_active (clear s) = false ∧ m_closed (clear s) = false).
Proof.
  split.
  - intros Hn. unfold closePath.
    destruct (length (m_path s) <? 3)%nat eqn:Hlt;
      [apply Nat.ltb_lt in Hlt; lia|].
    fold (closedPath (m_path s)). split.
    + intros H. by apply simplifyPath_terminates.
    + intros s' Hs'. apply simplifyPath_path in Hs' as (Hp & _ & Hc & _).
      simpl in Hp, Hc. rewrite Hp.
      assert (Hne : m_path s ≠ []) by (intros E; rewrite E in Hn; simpl in Hn; lia).
      destruct (closedPath_closed _ Hne) as [Hsome Hhl].
      split; [done|]. split; [done|]. split; [done|]. unfold closedPath.
      destruct (head (m_path s)) as [front|] eqn:Hh;
        [|by destruct (m_path s)].
      destruct (last (m_path s)) as [back|] eqn:Hl;
        [|by destruct (m_path s) as [|? l]; [|rewrite last_cons in Hl; destruct (last l)]].
      split.
      * intros [= ->]. assert (Heq : point_eqb back back = true) by by apply point_eqb_eq.
        by rewrite Heq.
      * intros front' [= <-] Hne'.
        destruct (point_eqb front back) eqn:Heq; [|done].
        apply point_eqb_eq in Heq as ->. done.
  - intros Hn. unfold closePath.
    apply Nat.ltb_lt in Hn. by rewrite Hn.
Qed.

Lemma closePath_closure_witness :
  let s := addPoints square3 LassoSelection_new in
  (3 <= length (m_path s))%nat ∧
  ∃ s', closePath s = Some s' ∧ m_closed s' = true ∧
        head (m_path s') = last (m_path s') ∧
        m_path s' = m_path s ++ [mkLassoPoint 0 0].
Proof.
  intros s.
  assert (Hn : (3 <= length (m_path s))%nat) by (vm_compute; lia).
  split; [exact Hn|].
  destruct (closePath_closure s) as [Hclose _].
  destruct (Hclose Hn) as [Hterm Hprop].
  destruct Hterm as [s' Hs']; [vm_compute; discriminate|].
  destruct (Hprop s' Hs') as (Hc & _ & Hhl & _ & Happ).
  exists s'. split; [exact Hs'|]. split; [exact Hc|]. split; [exact Hhl|].
  apply Happ; [reflexivity|]. vm_compute. discriminate.
Defined.

(** ** Degenerate fills (C7) *)

(** C7: [getTilesInPolygon] returns normally, with no cell, whenever the
    session is not closed, or the raw path has fewer than 3 points, or
    the bounding box is not valid. *)
Theorem getTilesInPolygon_degenerate (floor : Z) (s : LassoSelection) :
  m_closed s = false ∨ (length (m_path s) < 3)%nat ∨
  isValid (m_boundingBox s) = false →
  getTilesInPolygon floor s = Some [].
Proof.
  intros H. unfold getTilesInPolygon.
  destruct (m_closed s) eqn:Hc; simpl; [|done].
  destruct (length (m_path s) <? 3)%nat eqn:Hlt; [done|].
  destruct H as [H|[H|H]]; [done|apply Nat.ltb_ge in Hlt; lia|].
  rewrite H. unfold scanlineFillAET. rewrite H. simpl.
  by destruct (length (polygon s) <? 3)%nat.
Qed.

Lemma getTilesInPolygon_degenerate_witness :
  getTilesInPolygon 7 (addPoints square3 LassoSelection_new) = Some [] ∧
  getTilesInPolygon 7 (setActive true LassoSelection_new) = Some [].
Proof.
  split.
  - apply getTilesInPolygon_degenerate. left. reflexivity.
  - apply getTilesInPolygon_degenerate. right. left. vm_compute. lia.
Defined.

(** ** The queries leave the session alone (C10) *)

Lemma readsOnly_ret {A} (a : A) : readsOnly (mret a : method A).
Proof. by intros s r s' [= _ <-]. Qed.

Lemma readsOnly_field {A} (f : LassoSelection → A) : readsOnly (field f).
Proof. by intros s r s' [= _ <-]. Qed.

Lemma readsOnly_trap {A} : readsOnly (@trap A).
Proof. by intros s r s'. Qed.

Lemma readsOnly_local {A} (r : option A) : readsOnly (local r).
Proof. intros s a s'. unfold local. destruct r; [|done]. by intros [= _ <-]. Qed.

Lemma readsOnly_bind {A B} (m : method A) (k : A → method B) :
  readsOnly m → (∀ a, readsOnly (k a)) → readsOnly (m ≫= k).
Proof.
  intros Hm Hk s r s'. unfold mbind, method_bind.
  destruct (m s) as [[a s1]|] eqn:E; [|done].
  intros H. apply Hk in H. apply Hm in E. congruence.
Qed.

(** A call that writes a field is told apart: [setActive] does not
    leave every session as it was. *)
Lemma call_setActive_writes : ¬ readsOnly (call_setActive true).
Proof.
  intros H. specialize (H LassoSelection_new tt (setActive true LassoSelection_new)
                          eq_refl).
  discriminate H.
Qed.

Create HintDb reads discriminated.
#[local] Hint Resolve readsOnly_ret readsOnly_field readsOnly_trap
  readsOnly_local : reads.

Ltac reads_only :=
  repeat first
    [ solve [auto with reads]
    | progress cbv zeta
    | match goal with |- readsOnly (if ?c then _ else _) => destruct c end
    | apply readsOnly_bind; [|intros ?] ].

Lemma call_buildEdgeTable_reads edgeTable minY :
  readsOnly (call_buildEdgeTable edgeTable minY).
Proof. unfold call_buildEdgeTable. reads_only. Qed.

#[local] Hint Resolve call_buildEdgeTable_reads : reads.

Lemma call_scanlineFillAET_reads floor tiles :
  readsOnly (call_scanlineFillAET floor tiles).
Proof. unfold call_scanlineFillAET. reads_only. Qed.

#[local] Hint Resolve call_scanlineFillAET_reads : reads.

Lemma call_getTilesInPolygon_reads floor :
  readsOnly (call_getTilesInPolygon floor).
Proof. unfold call_getTilesInPolygon. reads_only. Qed.

Lemma call_pointInPolygon_reads x y : readsOnly (call_pointInPolygon x y).
Proof. unfold call_pointInPolygon. reads_only. Qed.

(** The calls yield what the functions of the session compute. *)
Lemma call_buildEdgeTable_result edgeTable minY s :
  call_buildEdgeTable edgeTable minY s = Some (buildEdgeTable s edgeTable minY, s).
Proof.
  unfold call_buildEdgeTable, buildEdgeTable, polygon, mbind, method_bind, field.
  by destruct (_ <? _)%nat.
Qed.

Lemma call_scanlineFillAET_result floor tiles s :
  call_scanlineFillAET floor tiles s
  = (λ t, (t, s)) <$> scanlineFillAET floor s tiles.
Proof.
  unfold call_scanlineFillAET, scanlineFillAET, polygon, mbind, method_bind,
    field.
  destruct (_ <? _)%nat; [done|]. destruct (negb _); [done|].
  destruct (_ <? 0); [done|]. rewrite call_buildEdgeTable_result.
  destruct (_ =? INT_MAX); [done|]. unfold local.
  by destruct (scanlineLoop _ _ _ _ _) as [[]|].
Qed.

Lemma call_getTilesInPolygon_result floor s :
  call_getTilesInPolygon floor s = (λ t, (t, s)) <$> getTilesInPolygon floor s.
Proof.
  unfold call_getTilesInPolygon, getTilesInPolygon, mbind, method_bind, field.
  destruct (_ || _); [done|].
  destruct (isValid _); [destruct (0 <=? _); [|done]|];
    apply call_scanlineFillAET_result.
Qed.

Lemma call_pointInPolygon_result x y s :
  call_pointInPolygon x y s = (λ r, (r, s)) <$> pointInPolygon x y s.
Proof.
  unfold call_pointInPolygon, pointInPolygon, polygon, mbind, method_bind, field.
  destruct (_ <? _)%nat; [done|]. unfold local.
  by destruct (rayLoop _ _ _ _ _) as [[]|].
Qed.

(** C10: a call of [getTilesInPolygon] or of [pointInPolygon] that
    returns leaves the session it was called on, field for field, and
    the same call on the session it leaves returns the same result. *)
Theorem queries_leave_session (s : LassoSelection) (floor x y : Z) :
  (∀ tiles s', call_getTilesInPolygon floor s = Some (tiles, s') →
     s' = s ∧ call_getTilesInPolygon floor s' = Some (tiles, s')) ∧
  (∀ r s', call_pointInPolygon x y s = Some (r, s') →
     s' = s ∧ call_pointInPolygon x y s' = Some (r, s')).
Proof.
  split.
  - intros tiles s' Hcall.
    pose proof (call_getTilesInPolygon_reads floor s tiles s' Hcall) as ->.
    done.
  - intros r s' Hcall.
    pose proof (call_pointInPolygon_reads x y s r s' Hcall) as ->.
    done.
Qed.

Lemma queries_leave_session_witness :
  ∃ s, closedPolygon square3 = Some s ∧
       call_getTilesInPolygon 0 s = Some (grid 0 3 0 2 0, s) ∧
       call_pointInPolygon 1 1 s = Some (true, s).
Proof.
  destruct (closedPolygon square3) as [s|] eqn:Hs; [|by vm_compute in Hs].
  exists s. split; [reflexivity|].
  destruct (queries_leave_session s 0 1 1) as [Hfill Hin].
  assert (Ht : call_getTilesInPolygon 0 s = Some (grid 0 3 0 2 0, s)).
  { vm_compute in Hs. injection Hs as <-. vm_compute. reflexivity. }
  split.
  - destruct (Hfill _ _ Ht) as [_ H]. exact H.
  - assert (Hp : call_pointInPolygon 1 1 s = Some (true, s)).
    { vm_compute in Hs. injection Hs as <-. vm_compute. reflexivity. }
    destruct (Hin _ _ Hp) as [_ H]. exact H.
Defined.

(** ** Minimum spacing (C4) *)

(** What [addPoint] does: the point is appended unless the path has a
    last point whose squared distance to it is below the cached squared
    threshold. *)
Lemma addPoint_path x y s :
  m_path (addPoint x y s) =
  match last (m_path s) with
  | Some back =>
      if (distanceSquaredTo back (mkLassoPoint x y)
          <? m_minPointDistanceSquared s)%float
      then m_path s else m_path s ++ [mkLassoPoint x y]
  | None => m_path s ++ [mkLassoPoint x y]
  end.
Proof.
  unfold addPoint. destruct (last (m_path s)) as [back|].
  - destruct (distanceSquaredTo back _ <? _)%float; [done|].
    destruct (_ <=? 2)%nat; [done|]. by destruct (_ =? 0)%nat.
  - destruct (_ <=? 2)%nat; [done|]. by destruct (_ =? 0)%nat.
Qed.

(** While the cached square is the square of the configured spacing, as
    it is in a fresh session, [addPoint] appends the point exactly when
    the path is empty or the squared distance to the last point is not
    below the squared spacing. *)
Lemma addPoint_coherent_spacing x y s :
  m_minPointDistanceSquared s
  = (m_minPointDistance s * m_minPointDistance s)%float →
  m_path (addPoint x y s) =
  match last (m_path s) with
  | Some back =>
      if (distanceSquaredTo back (mkLassoPoint x y)
          <? m_minPointDistance s * m_minPointDistance s)%float
      then m_path s else m_path s ++ [mkLassoPoint x y]
  | None => m_path s ++ [mkLassoPoint x y]
  end.
Proof. intros H. by rewrite addPoint_path, H. Qed.

Lemma LassoSelection_new_coherent :
  m_minPointDistanceSquared LassoSelection_new
  = (m_minPointDistance LassoSelection_new
     * m_minPointDistance LassoSelection_new)%float.
Proof. reflexivity. Qed.

(** C4 fails on the code: [setMinPointDistance] stores the new spacing
    but not its square, which is what [addPoint] compares against. With
    the spacing set to 2, a point at distance 1 from the last accepted
    point is still appended. *)
Theorem addPoint_ignores_configured_spacing :
  let s0 := setMinPointDistance 2%float LassoSelection_new in
  let s1 := addPoint 0 0 s0 in
  let s2 := addPoint 1 0 s1 in
  m_minPointDistance s1 = 2%float ∧
  (distanceTo (mkLassoPoint 0 0) (mkLassoPoint 1 0) <? m_minPointDistance s1)%float = true ∧
  (distanceSquaredTo (mkLassoPoint 0 0) (mkLassoPoint 1 0)
   <? m_minPointDistance s1 * m_minPointDistance s1)%float = true ∧
  m_minPointDistanceSquared s1 = 0.25%float ∧
  m_path s1 = [mkLassoPoint 0 0] ∧
  m_path s2 = [mkLassoPoint 0 0; mkLassoPoint 1 0].
Proof. vm_compute. repeat split. Qed.

(** ** The bounding box (C8) *)

Lemma addPoint_cases x y s :
  addPoint x y s = s ∨
  (m_path (addPoint x y s) = m_path s ++ [mkLassoPoint x y] ∧
   m_boundingBox (addPoint x y s) = expand (m_boundingBox s) x y ∧
   (m_simplifiedPath (addPoint x y s) = m_path s ++ [mkLassoPoint x y] ∨
    m_simplifiedPath (addPoint x y s) = m_simplifiedPath s)).
Proof.
  unfold addPoint.
  destruct (match last (m_path s) with
            | Some back => _
            | None => false
            end); [by left|].
  right. destruct (_ <=? 2)%nat; [simpl; auto|].
  destruct (_ =? 0)%nat; simpl; auto.
Qed.

Lemma expand_first b x y :
  hasPoints b = false →
  hasPoints (expand b x y) = true ∧
  smallest_box [mkLassoPoint x y] (expand b x y).
Proof.
  intros H. unfold expand. rewrite H. simpl. split; [done|].
  unfold smallest_box. simpl. split.
  - intros p Hp. apply list_elem_of_singleton in Hp as ->. simpl. lia.
  - repeat split; exists (mkLassoPoint x y); (split; [apply list_elem_of_here|done]).
Qed.

Lemma expand_next path b x y :
  hasPoints b = true → smallest_box path b →
  hasPoints (expand b x y) = true ∧
  smallest_box (path ++ [mkLassoPoint x y]) (expand b x y).
Proof.
  intros H (Hin & (p1 & Hp1 & Hx1) & (p2 & Hp2 & Hx2) & (p3 & Hp3 & Hy3) &
            (p4 & Hp4 & Hy4)).
  unfold expand. rewrite H. simpl. split; [done|].
  unfold smallest_box. simpl. split; [|split; [|split; [|split]]].
  - intros p Hp. apply elem_of_app in Hp as [Hp|Hp].
    + specialize (Hin p Hp).
      destruct (Z.ltb_spec x (minX b)), (Z.ltb_spec y (minY b)),
               (Z.ltb_spec (maxX b) x), (Z.ltb_spec (maxY b) y); lia.
    + apply list_elem_of_singleton in Hp as ->. simpl.
      destruct (Z.ltb_spec x (minX b)), (Z.ltb_spec y (minY b)),
               (Z.ltb_spec (maxX b) x), (Z.ltb_spec (maxY b) y); lia.
  - destruct (Z.ltb_spec x (minX b)).
    + exists (mkLassoPoint x y). split; [|done]. apply elem_of_app. right.
      apply list_elem_of_here.
    + exists p1. split; [|done]. apply elem_of_app. by left.
  - destruct (Z.ltb_spec (maxX b) x).
    + exists (mkLassoPoint x y). split; [|done]. apply elem_of_app. right.
      apply list_elem_of_here.
    + exists p2. split; [|done]. apply elem_of_app. by left.
  - destruct (Z.ltb_spec y (minY b)).
    + exists (mkLassoPoint x y). split; [|done]. apply elem_of_app. right.
      apply list_elem_of_here.
    + exists p3. split; [|done]. apply elem_of_app. by left.
  - destruct (Z.ltb_spec (maxY b) y).
    + exists (mkLassoPoint x y). split; [|done]. apply elem_of_app. right.
      apply list_elem_of_here.
    + exists p4. split; [|done]. apply elem_of_app. by left.
Qed.

Lemma smallest_box_same_points path path' b :
  (∀ p, p ∈ path' ↔ p ∈ path) → smallest_box path b → smallest_box path' b.
Proof.
  intros Heq (Hin & (p1 & Hp1 & Hx1) & (p2 & Hp2 & Hx2) & (p3 & Hp3 & Hy3) &
              (p4 & Hp4 & Hy4)).
  split; [intros p Hp; by apply Hin, Heq|].
  repeat split; [exists p1|exists p2|exists p3|exists p4];
    (split; [by apply Heq|done]).
Qed.

Lemma elem_of_collectKept path keep p :
  p ∈ collectKept path keep → p ∈ path.
Proof.
  revert keep. induction path as [|q path IH]; intros [|k keep] Hp;
    try (by apply elem_of_nil in Hp).
  simpl in Hp. destruct k.
  - apply elem_of_cons in Hp as [->|Hp]; [apply list_elem_of_here|].
    apply list_elem_of_further. by eapply IH.
  - apply list_elem_of_further. by eapply IH.
Qed.

Lemma simplifyPath_simplified_subset s s' p :
  simplifyPath s = Some s' → p ∈ m_simplifiedPath s' → p ∈ m_path s.
Proof.
  unfold simplifyPath. destruct (length (m_path s) <? 3)%nat.
  - by intros [= <-].
  - destruct (rdpKeep _ _) as [keep|]; [|done]. simpl. intros [= <-]. simpl.
    apply elem_of_collectKept.
Qed.

Lemma elem_of_closedPath path p : p ∈ closedPath path ↔ p ∈ path.
Proof.
  unfold closedPath. destruct (head path) as [front|] eqn:Hh; [|done].
  destruct (last path) as [back|]; [|done].
  destruct (negb (point_eqb front back)); [|done].
  rewrite elem_of_app, list_elem_of_singleton. split; [|by left].
  intros [H| ->]; [done|]. destruct path; [done|]. injection Hh as ->.
  apply list_elem_of_here.
Qed.

Lemma session_inv_new : session_inv LassoSelection_new.
Proof. split; [by left|]. intros p Hp. by apply elem_of_nil in Hp. Qed.

Lemma session_inv_clear s : session_inv (clear s).
Proof. split; [by left|]. intros p Hp. by apply elem_of_nil in Hp. Qed.

Lemma session_inv_addPoint x y s : session_inv s → session_inv (addPoint x y s).
Proof.
  intros [Hbox Hsub].
  destruct (addPoint_cases x y s) as [-> |(Hp & Hb & Hs)]; [done|].
  split.
  - right. rewrite Hp, Hb. destruct Hbox as [[Hnil Hhas]|[Hhas Hsm]].
    + rewrite Hnil. by apply expand_first.
    + by apply expand_next.
  - intros p. rewrite Hp. destruct Hs as [-> | ->]; [done|].
    intros H. apply elem_of_app. left. by apply Hsub.
Qed.

Lemma session_inv_closePath s s' :
  session_inv s → closePath s = Some s' → session_inv s'.
Proof.
  intros [Hbox Hsub]. unfold closePath.
  destruct (length (m_path s) <? 3)%nat eqn:Hlt.
  - intros [= <-]. apply session_inv_clear.
  - fold (closedPath (m_path s)). intros Hs'.
    pose proof (simplifyPath_path _ _ Hs') as (Hp & Hb & _).
    simpl in Hp, Hb. split.
    + rewrite Hp, Hb. destruct Hbox as [[Hnil Hhas]|[Hhas Hsm]].
      * rewrite Hnil in Hlt. done.
      * right. split; [done|].
        eapply smallest_box_same_points; [|done]. apply elem_of_closedPath.
    + intros p Hin. rewrite Hp.
      by apply (simplifyPath_simplified_subset _ _ _ Hs') in Hin.
Qed.

Lemma reachable_session_inv s : reachable s → session_inv s.
Proof.
  induction 1 as [|s _ _|s x y _ IH|s s' _ IH Hc|s a _ IH|s d _ IH|s t _ IH].
  - apply session_inv_new.
  - apply session_inv_clear.
  - by apply session_inv_addPoint.
  - by eapply session_inv_closePath.
  - exact IH.
  - exact IH.
  - exact IH.
Qed.

Lemma addPoints_reachable pts s : reachable s → reachable (addPoints pts s).
Proof.
  revert s. induction pts as [|p pts IH]; intros s Hs; [done|].
  apply IH. by apply reach_addPoint.
Qed.

Lemma closedPolygon_reachable pts s : closedPolygon pts = Some s → reachable s.
Proof.
  intros H. eapply reach_closePath; [|exact H].
  apply addPoints_reachable, reach_new.
Qed.

(** C8: in every session built from the constructor by [clear],
    [addPoint], [closePath] and the setters, a box that has points has
    [minX <= maxX] and [minY <= maxY] and is the smallest box around the
    points of the raw path; and [addPoint] obtains the new box from the
    old box and the new point alone, by one [expand], when it accepts
    the point. *)
Theorem boundingBox_invariant (s : LassoSelection) :
  reachable s →
  (hasPoints (m_boundingBox s) = true →
     minX (m_boundingBox s) <= maxX (m_boundingBox s) ∧
     minY (m_boundingBox s) <= maxY (m_boundingBox s) ∧
     smallest_box (m_path s) (m_boundingBox s)) ∧
  (hasPoints (m_boundingBox s) = false → m_path s = []) ∧
  (∀ x y,
     (m_path (addPoint x y s) = m_path s ∧
      m_boundingBox (addPoint x y s) = m_boundingBox s) ∨
     (m_path (addPoint x y s) = m_path s ++ [mkLassoPoint x y] ∧
      m_boundingBox (addPoint x y s) = expand (m_boundingBox s) x y)).
Proof.
  intros Hr. destruct (reachable_session_inv s Hr) as [Hbox _].
  split; [|split].
  - intros Hhas. destruct Hbox as [[_ Hno]|[_ Hsm]]; [congruence|].
    split; [|split; [|done]].
    + destruct Hsm as (Hin & (p & Hp & <-) & _). apply (Hin p Hp).
    + destruct Hsm as (Hin & _ & _ & (p & Hp & <-) & _). apply (Hin p Hp).
  - intros Hno. destruct Hbox as [[Hnil _]|[Hhas _]]; [done|congruence].
  - intros x y. destruct (addPoint_cases x y s) as [-> |(Hp & Hb & _)]; auto.
Qed.

Lemma boundingBox_invariant_witness :
  let s := addPoint 5 (-2) (addPoint 1 7 (addPoint 3 4 LassoSelection_new)) in
  reachable s ∧
  minX (m_boundingBox s) <= maxX (m_boundingBox s) ∧
  minY (m_boundingBox s) <= maxY (m_boundingBox s) ∧
  smallest_box (m_path s) (m_boundingBox s).
Proof.
  intros s.
  assert (Hr : reachable s) by (repeat apply reach_addPoint; apply reach_new).
  split; [exact Hr|].
  destruct (boundingBox_invariant s Hr) as [H _]. apply H. reflexivity.
Defined.

(** ** The shape of the fill (C3) *)

Lemma list_pair_ind {A} (P : list A → Prop) :
  P [] → (∀ x, P [x]) → (∀ x y l, P l → P (x :: y :: l)) → ∀ l, P l.
Proof.
  intros Hnil Hone Hstep l.
  assert (H : P l ∧ ∀ x, P (x :: l)); [|by destruct H].
  induction l as [|y l [IH1 IH2]]; [by split|].
  split; [apply IH2|]. intros x. by apply Hstep.
Qed.

(** The runs of a scanline are computed from the [x] of the sorted edges
    alone. *)
Lemma fillPairs_ext floor y edges1 edges2 tiles :
  edge_x <$> edges1 = edge_x <$> edges2 →
  fillPairs floor y edges1 tiles = fillPairs floor y edges2 tiles.
Proof.
  revert edges2 tiles.
  induction edges1 as [|e|e1 e2 rest IH] using list_pair_ind;
    intros [|e1' [|e2' rest']] tiles Heq; try done.
  simpl in Heq. injection Heq as Hx1 Hx2 Hrest. simpl.
  rewrite Hx1, Hx2. destruct (_ =? INT_MAX); [done|]. by apply IH.
Qed.

Lemma fillPairs_runs floor y edges tiles tiles' :
  fillPairs floor y edges tiles = Some tiles' →
  ∃ runs,
    tiles' = tiles ++ (runs ≫= runCells floor) ∧
    Forall (λ r, runRow r = y) runs.
Proof.
  revert tiles. induction edges as [|e|e1 e2 rest IH] using list_pair_ind;
    intros tiles.
  - intros [= <-]. exists []. split; [by rewrite app_nil_r|constructor].
  - intros [= <-]. exists []. split; [by rewrite app_nil_r|constructor].
  - simpl. destruct (int_floor (edge_x e2) =? INT_MAX); [done|].
    intros H. apply IH in H as (runs & -> & Hrows).
    exists ((y, int_ceil (edge_x e1), int_floor (edge_x e2)) :: runs).
    split; [by rewrite bind_cons, app_assoc|]. by constructor.
Qed.




Lemma runCells_NoDup floor r : NoDup (runCells floor r).
Proof.
  destruct r as [[y lo] hi]. unfold runCells, span.
  apply NoDup_fmap_2_strong; [|apply NoDup_seqZ]. by intros x1 x2 _ _ [= ->].
Qed.

Lemma elem_of_runCells floor r p :
  p ∈ runCells floor r → pos_y p = runRow r ∧ pos_z p = floor.
Proof.
  destruct r as [[y lo] hi]. unfold runCells.
  intros (x & -> & _)%list_elem_of_fmap. done.
Qed.


Lemma notch_fill :
  (closedPolygon notch ≫= getTilesInPolygon 0) =
  Some (grid 0 4 0 0 0 ++ grid 0 2 1 1 0 ++ grid 2 4 1 1 0).
Proof. vm_compute. reflexivity. Qed.

(** C3, as stated, fails: the fill of the notched pentagon lists the
    cell (2, 1, 0) twice. *)
Lemma notch_fill_repeats_a_cell :
  ∃ tiles,
    (closedPolygon notch ≫= getTilesInPolygon 0) = Some tiles ∧
    ¬ NoDup tiles.
Proof.
  eexists. split; [exact notch_fill|].
  refine (bool_decide_unpack _ _). vm_compute. exact I.
Qed.

(** ** Fill and containment (C6) *)

Lemma quot_between a u v :
  0 <= u <= v → 0 < v → Z.min 0 a <= Z.quot (a * u) v <= Z.max 0 a.
Proof.
  intros Hu Hv. destruct (Z.le_gt_cases 0 a) as [Ha|Ha].
  - rewrite Z.quot_div_nonneg by nia.
    assert (0 <= a * u / v) by (apply Z.div_pos; nia).
    assert (a * u / v <= a) by (apply Z.div_le_upper_bound; nia).
    lia.
  - replace (a * u) with (- ((- a) * u)) by ring.
    rewrite Z.quot_opp_l by lia. rewrite Z.quot_div_nonneg by nia.
    assert (0 <= - a * u / v) by (apply Z.div_pos; nia).
    assert (- a * u / v <= - a) by (apply Z.div_le_upper_bound; nia).
    lia.
Qed.

(** Inside a box whose cells can be counted in an [int], the abscissa
    [pointInPolygon] computes for an edge that straddles the row lies
    between the abscissas of the two ends of the edge. *)
Lemma intercept_between b pi pj y :
  box_fits b → in_box b pi → in_box b pj →
  (y <? pt_y pi) ≠ (y <? pt_y pj) →
  Z.min (pt_x pi) (pt_x pj)
  <= int_add (int_div (int_mul (int_sub (pt_x pj) (pt_x pi))
                               (int_sub y (pt_y pi)))
                      (int_sub (pt_y pj) (pt_y pi)))
             (pt_x pi)
  <= Z.max (pt_x pi) (pt_x pj).
Proof.
  unfold box_fits, in_box, int_range, INT_MIN, INT_MAX.
  intros (Hx0 & Hx1 & Hy0 & Hy1 & Harea) [Hxi Hyi] [Hxj Hyj] Hne.
  set (W := maxX b - minX b) in *. set (H := maxY b - minY b) in *.
  assert (HW : 0 <= W) by (unfold W; lia).
  assert (HH : 0 <= H) by (unfold H; lia).
  assert (HWb : W <= 2147483646) by nia.
  assert (HHb : H <= 2147483646) by nia.
  assert (HWH : W * H <= 2147483647) by nia.
  set (a := pt_x pj - pt_x pi).
  assert (Hab : - W <= a <= W) by (unfold a, W; lia).
  assert (Ha : int_sub (pt_x pj) (pt_x pi) = a).
  { apply int_wrap_id. unfold int_range, INT_MIN, INT_MAX. lia. }
  rewrite Ha.
  assert (Hq : ∀ u v, 0 <= u <= v → 0 < v →
             Z.min (pt_x pi) (pt_x pj)
             <= int_add (int_wrap (Z.quot (a * u) v)) (pt_x pi)
             <= Z.max (pt_x pi) (pt_x pj)).
  { intros u v Hu Hv. pose proof (quot_between a u v Hu Hv) as Hb.
    rewrite (int_wrap_id (Z.quot (a * u) v))
      by (unfold int_range, INT_MIN, INT_MAX; lia).
    unfold int_add. rewrite int_wrap_id
      by (unfold int_range, INT_MIN, INT_MAX; unfold a in *; lia).
    unfold a in *. lia. }
  assert (Hprod : ∀ u, - H <= u <= H → int_wrap (a * u) = a * u).
  { intros u Hu. apply int_wrap_id. unfold int_range, INT_MIN, INT_MAX.
    assert (- (W * H) <= a * u <= W * H) by nia. lia. }
  destruct (Z.ltb_spec y (pt_y pi)) as [Hi|Hi], (Z.ltb_spec y (pt_y pj)) as [Hj|Hj];
    try done.
  - set (u := y - pt_y pi). set (v := pt_y pj - pt_y pi).
    assert (Hub : - H <= u <= H) by (unfold u, H; lia).
    assert (Hvb : - H <= v <= H) by (unfold v, H; lia).
    assert (Hu : int_sub y (pt_y pi) = u).
    { apply int_wrap_id. unfold int_range, INT_MIN, INT_MAX. lia. }
    assert (Hv : int_sub (pt_y pj) (pt_y pi) = v).
    { apply int_wrap_id. unfold int_range, INT_MIN, INT_MAX. lia. }
    rewrite Hu, Hv. unfold int_mul, int_div. rewrite (Hprod u Hub).
    assert (Heq : Z.quot (a * u) v = Z.quot (a * (- u)) (- v)).
    { rewrite <- (Z.quot_opp_opp (a * - u) (- v)) by (unfold v; lia).
      f_equal; ring. }
    rewrite Heq. apply Hq; unfold u, v; lia.
  - set (u := y - pt_y pi). set (v := pt_y pj - pt_y pi).
    assert (Hub : - H <= u <= H) by (unfold u, H; lia).
    assert (Hvb : - H <= v <= H) by (unfold v, H; lia).
    assert (Hu : int_sub y (pt_y pi) = u).
    { apply int_wrap_id. unfold int_range, INT_MIN, INT_MAX. lia. }
    assert (Hv : int_sub (pt_y pj) (pt_y pi) = v).
    { apply int_wrap_id. unfold int_range, INT_MIN, INT_MAX. lia. }
    rewrite Hu, Hv. unfold int_mul, int_div. rewrite (Hprod u Hub).
    apply Hq; unfold u, v; lia.
Qed.

Lemma mul_between a u W H :
  - W <= a <= W → - H <= u <= H → - (W * H) <= a * u <= W * H.
Proof. intros Ha Hu. nia. Qed.

Lemma rayStep_unfold poly x y inside j i :
  rayStep poly x y (inside, j) i =
  if rayTraps poly y i j then None
  else Some (if rayCrosses poly x y i j then negb inside else inside, i).
Proof.
  unfold rayStep, rayTraps, rayCrosses, int_div_checked.
  destruct (negb (Bool.eqb _ _)); [|done]. cbn [andb].
  by destruct (_ || _).
Qed.

(** The division is not evaluated on an edge that does not straddle
    the row. *)
Lemma rayTraps_same_side poly y i j :
  (y <? pt_y (poly !!! i)) = (y <? pt_y (poly !!! j)) →
  rayTraps poly y i j = false.
Proof. intros Heq. unfold rayTraps. by rewrite Heq, Bool.eqb_reflx. Qed.

(** Inside a box whose cells can be counted in an [int] the division
    returns. *)
Lemma rayTraps_box_fits b poly y i j :
  box_fits b → in_box b (poly !!! i) → in_box b (poly !!! j) →
  rayTraps poly y i j = false.
Proof.
  intros Hfits Hi Hj. unfold rayTraps.
  destruct (Bool.eqb (y <? pt_y (poly !!! i)) (y <? pt_y (poly !!! j))) eqn:Hside;
    [done|].
  cbn [negb andb].
  revert Hfits Hi Hj. unfold box_fits, in_box, int_range, INT_MIN, INT_MAX.
  intros (Hx0 & Hx1 & Hy0 & Hy1 & Harea) [Hxi Hyi] [Hxj Hyj].
  set (W := maxX b - minX b) in *. set (H := maxY b - minY b) in *.
  assert (HW : 0 <= W) by (unfold W; lia).
  assert (HH : 0 <= H) by (unfold H; lia).
  assert (HWb : W <= 2147483646) by nia.
  assert (HHb : H <= 2147483646) by nia.
  assert (HWH : W * H <= 2147483647) by nia.
  assert (Hne : pt_y (poly !!! i) ≠ pt_y (poly !!! j)).
  { intros Heq. rewrite Heq, Bool.eqb_reflx in Hside. done. }
  assert (Hy : y - pt_y (poly !!! i) = 0 ∨ - H <= y - pt_y (poly !!! i) <= H).
  { destruct (Z.ltb_spec y (pt_y (poly !!! i))),
             (Z.ltb_spec y (pt_y (poly !!! j))); try done; right; unfold H; lia. }
  assert (Hv : int_sub (pt_y (poly !!! j)) (pt_y (poly !!! i))
               = pt_y (poly !!! j) - pt_y (poly !!! i)).
  { apply int_wrap_id. unfold int_range, INT_MIN, INT_MAX. unfold H in *. lia. }
  assert (Ha : int_sub (pt_x (poly !!! j)) (pt_x (poly !!! i))
               = pt_x (poly !!! j) - pt_x (poly !!! i)).
  { apply int_wrap_id. unfold int_range, INT_MIN, INT_MAX. unfold W in *. lia. }
  assert (Hu : int_sub y (pt_y (poly !!! i)) = y - pt_y (poly !!! i)).
  { apply int_wrap_id. unfold int_range, INT_MIN, INT_MAX. lia. }
  rewrite Hv, Ha, Hu.
  set (a := pt_x (poly !!! j) - pt_x (poly !!! i)) in *.
  set (u := y - pt_y (poly !!! i)) in *.
  assert (Hab : - W <= a <= W) by (unfold a, W; lia).
  assert (Hub : - H <= u <= H) by lia.
  pose proof (mul_between a u W H Hab Hub) as Hprod.
  unfold int_mul. rewrite int_wrap_id
    by (unfold int_range, INT_MIN, INT_MAX; lia).
  destruct (Z.eqb_spec (pt_y (poly !!! j) - pt_y (poly !!! i)) 0); [lia|].
  destruct (Z.eqb_spec (a * u) (-2147483648)); [lia|done].
Qed.

Section ray.

Variable poly : list LassoPoint.
Variables x y : Z.


(** When no edge passes the test, the parity stays as it is. *)
Lemma ray_fold_unchanged l inside j :
  (∀ i j, (i < length poly)%nat → (j < length poly)%nat →
          rayTraps poly y i j = false ∧ rayCrosses poly x y i j = false) →
  Forall (λ i, (i < length poly)%nat) l → (j < length poly)%nat →
  fst <$> rayLoop poly x y l (inside, j) = Some inside.
Proof.
  intros Hno Hl. revert inside j.
  induction Hl as [|i l Hi Hl IH]; intros inside j Hj; [done|].
  cbn [rayLoop]. rewrite rayStep_unfold.
  destruct (Hno i j Hi Hj) as [-> ->]. by apply IH.
Qed.


End ray.

Lemma polygon_subset s p :
  (∀ p, p ∈ m_simplifiedPath s → p ∈ m_path s) → p ∈ polygon s → p ∈ m_path s.
Proof.
  intros Hsub. unfold polygon. destruct (decide (m_simplifiedPath s = [])); auto.
Qed.





(** On a box whose cells cannot be counted in an [int] the product in
    [pointInPolygon] wraps around: for the closed triangle
    (0,0),(60000,60000),(0,60000) the point (70000, 10000), to the right
    of the box, is reported inside; and the fill does not return, its
    [reserve] being handed a negative size. *)
Lemma pointInPolygon_wraps_on_large_box :
  ∃ s,
    closedPolygon [(0, 0); (60000, 60000); (0, 60000)] = Some s ∧
    contains (m_boundingBox s) 70000 10000 = false ∧
    pointInPolygon 70000 10000 s = Some true ∧
    getTilesInPolygon 0 s = None.
Proof.
  eexists. split; [vm_compute; reflexivity|]. by vm_compute.
Qed.

(** On such a box the division of [pointInPolygon] can also fail to
    return: on the edge from (-2147483648, 4) to (0, 5) the call at row
    4 divides [INT_MIN] by -1. *)
Lemma pointInPolygon_traps_on_wide_box :
  ∃ s,
    closedPolygon [(-2147483648, 4); (0, 5); (0, 0)] = Some s ∧
    pointInPolygon 0 4 s = None.
Proof.
  eexists. split; [vm_compute; reflexivity|]. by vm_compute.
Qed.



(** * Further properties of the operations *)

(** ** The bounding box on its own *)

(** Case analysis on the comparisons [u <? v] of the goal, the inner
    ones first. *)
Ltac case_ltb :=
  repeat match goal with
         | |- context [Z.ltb ?u ?v] =>
             lazymatch u with
             | context [Z.ltb] => fail
             | _ => lazymatch v with
                    | context [Z.ltb] => fail
                    | _ => destruct (Z.ltb_spec u v)
                    end
             end
         end.

(** X1: after [expand(x, y)] the box contains [(x, y)], and every point
    it contained before. *)
Theorem expand_contains (b : LassoBoundingBox) (x y : Z) :
  contains (expand b x y) x y = true ∧
  ∀ u v, contains b u v = true → contains (expand b x y) u v = true.
Proof.
  unfold contains, expand. destruct b as [x0 y0 x1 y1 []]; simpl.
  - split.
    + destruct (Z.ltb_spec x x0), (Z.ltb_spec y y0),
               (Z.ltb_spec x1 x), (Z.ltb_spec y1 y);
        rewrite !andb_true_iff, !Z.leb_le; lia.
    + intros u v. rewrite !andb_true_iff, !Z.leb_le.
      destruct (Z.ltb_spec x x0), (Z.ltb_spec y y0),
               (Z.ltb_spec x1 x), (Z.ltb_spec y1 y); lia.
  - split; [|done]. rewrite !andb_true_iff, !Z.leb_le. lia.
Qed.

Lemma expand_contains_witness :
  contains (expand (expand bbox_reset 2 3) 5 1) 2 3 = true.
Proof.
  apply (proj2 (expand_contains (expand bbox_reset 2 3) 5 1)). reflexivity.
Defined.

(** X2: [expand] with a point the box already contains changes nothing,
    and the box two [expand]s leave does not depend on their order. *)
Theorem expand_absorbs_commutes (b : LassoBoundingBox) :
  (∀ x y, contains b x y = true → expand b x y = b) ∧
  (∀ x1 y1 x2 y2,
     expand (expand b x1 y1) x2 y2 = expand (expand b x2 y2) x1 y1).
Proof.
  split.
  - intros x y. unfold contains, expand. destruct b as [x0 y0 x1 y1 []]; simpl;
      [|done].
    rewrite !andb_true_iff, !Z.leb_le. intros Hin.
    destruct (Z.ltb_spec x x0), (Z.ltb_spec y y0),
             (Z.ltb_spec x1 x), (Z.ltb_spec y1 y); (done || lia).
  - intros x1 y1 x2 y2. unfold expand. destruct b as [a0 b0 a1 b1 []]; simpl.
    + f_equal; case_ltb; lia.
    + f_equal; case_ltb; lia.
Qed.

Lemma expand_absorbs_commutes_witness :
  expand (expand bbox_reset 2 3) 2 3 = expand bbox_reset 2 3.
Proof.
  apply (proj1 (expand_absorbs_commutes (expand bbox_reset 2 3))). reflexivity.
Defined.

(** X3: in every session a client can build the box is valid exactly
    when the raw path has a point, and it contains every point of the
    raw path and of the polygon the queries work on. *)
Theorem reachable_box_contains (s : LassoSelection) :
  reachable s →
  (isValid (m_boundingBox s) = true ↔ m_path s ≠ []) ∧
  ∀ p, p ∈ m_path s ∨ p ∈ polygon s →
       contains (m_boundingBox s) (pt_x p) (pt_y p) = true.
Proof.
  intros Hr. destruct (reachable_session_inv s Hr) as [Hbox Hsub].
  destruct Hbox as [[Hnil Hno]|[Hhas Hsm]].
  - split.
    + unfold isValid. rewrite Hno, Hnil. simpl. split; done.
    + intros p [Hp|Hp].
      * rewrite Hnil in Hp. by apply elem_of_nil in Hp.
      * apply polygon_subset in Hp; [|done]. rewrite Hnil in Hp.
        by apply elem_of_nil in Hp.
  - pose proof Hsm as (Hin & (p0 & Hp0 & Hx0) & (p1 & Hp1 & Hx1) &
                       (p2 & Hp2 & Hy2) & (p3 & Hp3 & Hy3)).
    split.
    + unfold isValid. rewrite Hhas. simpl.
      rewrite andb_true_iff, !Z.leb_le. split.
      * intros _ Hnil. rewrite Hnil in Hp0. by apply elem_of_nil in Hp0.
      * intros _. pose proof (Hin p0 Hp0). pose proof (Hin p2 Hp2). lia.
    + intros p Hp.
      assert (Hp' : p ∈ m_path s).
      { destruct Hp as [Hp|Hp]; [done|]. by apply polygon_subset in Hp. }
      unfold contains. rewrite Hhas. simpl.
      rewrite !andb_true_iff, !Z.leb_le. pose proof (Hin p Hp'). lia.
Qed.

Lemma reachable_box_contains_witness :
  let s := addPoint 5 (-2) (addPoint 1 7 LassoSelection_new) in
  isValid (m_boundingBox s) = true ∧
  contains (m_boundingBox s) 1 7 = true.
Proof.
  intros s.
  assert (Hr : reachable s) by (repeat apply reach_addPoint; apply reach_new).
  destruct (reachable_box_contains s Hr) as [Hvalid Hin]. split.
  - apply Hvalid. discriminate.
  - apply (Hin (mkLassoPoint 1 7)). left. apply list_elem_of_here.
Defined.

(** ** The spacing of the raw path *)

Lemma distanceSquaredTo_self p :
  distanceSquaredTo p p = 0%float.
Proof.
  unfold distanceSquaredTo, int_sub. rewrite !Z.sub_diag. reflexivity.
Qed.

Lemma closePath_spacing s s' :
  closePath s = Some s' →
  m_minPointDistanceSquared s' = m_minPointDistanceSquared s.
Proof.
  unfold closePath. destruct (length (m_path s) <? 3)%nat.
  - by intros [= <-].
  - intros H. apply simplifyPath_path in H. by destruct H as (_&_&_&_&_&_&->).
Qed.

Lemma addPoint_spacing x y s :
  m_minPointDistanceSquared (addPoint x y s) = m_minPointDistanceSquared s.
Proof.
  unfold addPoint.
  destruct (match last (m_path s) with Some _ => _ | None => false end);
    [done|].
  destruct (_ <=? 2)%nat; [done|]. by destruct (_ =? 0)%nat.
Qed.

Lemma reachable_spacing s :
  reachable s → m_minPointDistanceSquared s = 0.25%float.
Proof.
  induction 1 as [|s _ IH|s x y _ IH|s s' _ IH Hc|s a _ IH|s d _ IH|s t _ IH];
    try done.
  - by rewrite addPoint_spacing.
  - by rewrite (closePath_spacing _ _ Hc).
Qed.

(** X4: no operation changes the squared spacing [addPoint] compares
    with: in every session a client can build it is 0.25, whatever
    spacing was configured, and the point is appended exactly when the
    path is empty or the squared distance to the last point is not
    below 0.25. *)
Theorem reachable_spacing_fixed (s : LassoSelection) :
  reachable s →
  m_minPointDistanceSquared s = 0.25%float ∧
  ∀ x y,
    m_path (addPoint x y s) =
    match last (m_path s) with
    | Some back =>
        if (distanceSquaredTo back (mkLassoPoint x y) <? 0.25)%float
        then m_path s else m_path s ++ [mkLassoPoint x y]
    | None => m_path s ++ [mkLassoPoint x y]
    end.
Proof.
  intros Hr. pose proof (reachable_spacing s Hr) as Hsq. split; [done|].
  intros x y. by rewrite addPoint_path, Hsq.
Qed.

Lemma reachable_spacing_fixed_witness :
  let s := addPoint 0 0 (setMinPointDistance 8 LassoSelection_new) in
  m_minPointDistanceSquared s = 0.25%float ∧
  m_path (addPoint 1 0 s) = [mkLassoPoint 0 0; mkLassoPoint 1 0].
Proof.
  intros s.
  assert (Hr : reachable s).
  { apply reach_addPoint, reach_setMinPointDistance, reach_new. }
  destruct (reachable_spacing_fixed s Hr) as [Hsq Hadd].
  split; [exact Hsq|]. rewrite Hadd. reflexivity.
Defined.

(** X5: sending the same sample twice is the same as sending it once:
    in every session a client can build, a second [addPoint(x, y)] right
    after the first changes nothing. *)
Theorem addPoint_idempotent (s : LassoSelection) (x y : Z) :
  reachable s →
  addPoint x y (addPoint x y s) = addPoint x y s.
Proof.
  intros Hr.
  destruct (addPoint_cases x y s) as [Heq|(Hp & _)]; [by rewrite !Heq|].
  assert (Hsq : m_minPointDistanceSquared (addPoint x y s) = 0.25%float).
  { apply reachable_spacing. by apply reach_addPoint. }
  unfold addPoint at 1. rewrite Hp, last_snoc, distanceSquaredTo_self, Hsq.
  reflexivity.
Qed.

Lemma addPoint_idempotent_witness :
  addPoint 4 4 (addPoint 4 4 (addPoint 0 0 LassoSelection_new))
  = addPoint 4 4 (addPoint 0 0 LassoSelection_new).
Proof.
  apply addPoint_idempotent. apply reach_addPoint, reach_new.
Defined.

Lemma addPoints_snoc pts p s :
  addPoints (pts ++ [p]) s = addPoint (fst p) (snd p) (addPoints pts s).
Proof. unfold addPoints. by rewrite foldl_app. Qed.

(** X6: the raw path a gesture leaves is the old raw path followed by
    some of the samples, in the order they were sent; on a fresh session
    the first sample is always accepted. *)
Theorem addPoints_subsequence (pts : list (Z * Z)) (s : LassoSelection) :
  (∃ accepted,
     m_path (addPoints pts s) = m_path s ++ accepted ∧
     sublist accepted (samplePoint <$> pts)) ∧
  head (m_path (addPoints pts LassoSelection_new)) = head (samplePoint <$> pts).
Proof.
  assert (Hsub : ∀ s0, ∃ accepted,
            m_path (addPoints pts s0) = m_path s0 ++ accepted ∧
            sublist accepted (samplePoint <$> pts) ∧
            (m_path s0 = [] → head accepted = head (samplePoint <$> pts))).
  { intros s0. induction pts as [|p pts IH] using rev_ind.
    - exists []. by rewrite app_nil_r.
    - destruct IH as (acc & Hacc & Hs & Hh). rewrite addPoints_snoc, fmap_app.
      destruct (addPoint_cases (fst p) (snd p) (addPoints pts s0))
        as [Heq|(Hp & _)].
      + exists acc. rewrite Heq. split; [done|].
        split; [by apply sublist_inserts_r|].
        intros Hnil. rewrite (Hh Hnil).
        destruct pts as [|q pts]; [|done].
        (* the first sample of a gesture on an empty path is accepted *)
        exfalso. change (addPoints [] s0) with s0 in Heq.
        apply (f_equal m_path) in Heq. rewrite addPoint_path, Hnil in Heq.
        done.
      + exists (acc ++ [samplePoint p]). split.
        * by rewrite Hp, Hacc, app_assoc.
        * split; [by apply sublist_app|].
          intros Hnil. specialize (Hh Hnil).
          destruct pts as [|q pts]; simpl in *.
          -- destruct acc; [done|]. apply sublist_nil_r in Hs. done.
          -- destruct acc; [|done]. simpl in Hh. done. }
  split.
  - destruct (Hsub s) as (acc & Hacc & Hs & _). by exists acc.
  - destruct (Hsub LassoSelection_new) as (acc & Hacc & _ & Hh).
    rewrite Hacc. by apply Hh.
Qed.

(** ** The preview during a drag *)

Lemma previewLength_le n : (previewLength n <= n)%nat.
Proof.
  unfold previewLength. destruct (Nat.leb_spec n 2); [lia|].
  destruct (Nat.ltb_spec n 20); [lia|].
  pose proof (Nat.div_mod_eq n 20). lia.
Qed.

Lemma previewLength_refresh n :
  (n <= 2)%nat ∨ (n mod 20 = 0)%nat → previewLength n = n.
Proof.
  unfold previewLength. destruct (Nat.leb_spec n 2); [done|].
  intros [?|Hmod]; [lia|].
  pose proof (Nat.div_mod_eq n 20).
  destruct (Nat.ltb_spec n 20); [|lia].
  rewrite Nat.mod_small in Hmod by done. lia.
Qed.

Lemma previewLength_keep n :
  (2 < S n)%nat → (S n mod 20 ≠ 0)%nat → previewLength (S n) = previewLength n.
Proof.
  intros Hn Hmod. unfold previewLength.
  destruct (Nat.leb_spec (S n) 2); [lia|].
  pose proof (Nat.div_mod_eq n 20) as Hd.
  pose proof (Nat.div_mod_eq (S n) 20) as Hd'.
  pose proof (Nat.mod_upper_bound n 20 ltac:(done)).
  pose proof (Nat.mod_upper_bound (S n) 20 ltac:(done)).
  destruct (Nat.ltb_spec (S n) 20), (Nat.leb_spec n 2), (Nat.ltb_spec n 20);
    lia.
Qed.

Lemma addPoint_preview x y s :
  m_simplifiedPath s = take (previewLength (length (m_path s))) (m_path s) →
  m_simplifiedPath (addPoint x y s)
  = take (previewLength (length (m_path (addPoint x y s))))
         (m_path (addPoint x y s)).
Proof.
  intros Hinv. unfold addPoint.
  destruct (match last (m_path s) with Some _ => _ | None => false end);
    [done|].
  set (path := m_path s ++ [mkLassoPoint x y]).
  assert (Hlen : length path = S (length (m_path s))).
  { unfold path. rewrite length_app. simpl. lia. }
  destruct (Nat.leb_spec (length path) 2) as [Hle|Hgt].
  - simpl. rewrite previewLength_refresh by by left. by rewrite take_ge.
  - destruct (Nat.eqb_spec (length path mod 20) 0) as [Hmod|Hmod].
    + simpl. rewrite previewLength_refresh by by right. by rewrite take_ge.
    + simpl. rewrite Hinv, Hlen, previewLength_keep by (rewrite <- Hlen; done).
      unfold path. rewrite take_app_le; [done|]. apply previewLength_le.
Qed.

(** X7: during a drag that starts on an empty session the simplified
    path (the preview) is a prefix of the raw path: all of it up to 2
    points, its first 2 points until the 20th point arrives, and from
    then on its first 20, 40, ... points, refreshed at every 20th point. *)
Theorem addPoints_preview (pts : list (Z * Z)) (s0 : LassoSelection) :
  m_path s0 = [] → m_simplifiedPath s0 = [] →
  let s := addPoints pts s0 in
  m_simplifiedPath s = take (previewLength (length (m_path s))) (m_path s).
Proof.
  intros Hp Hs. simpl. induction pts as [|p pts IH] using rev_ind.
  - unfold addPoints. simpl. by rewrite Hp, Hs.
  - rewrite addPoints_snoc. by apply addPoint_preview.
Qed.

Lemma addPoints_preview_witness :
  m_simplifiedPath (addPoints [(0, 0); (5, 0); (5, 5); (0, 5)] LassoSelection_new)
  = [mkLassoPoint 0 0; mkLassoPoint 5 0].
Proof.
  rewrite (addPoints_preview [(0, 0); (5, 0); (5, 5); (0, 5)] LassoSelection_new);
    reflexivity.
Defined.

(** ** The simplified path as a selection of the raw path *)

Lemma collectKept_sublist path keep : sublist (collectKept path keep) path.
Proof.
  revert keep. induction path as [|p path IH]; intros [|[] keep]; simpl;
    try apply sublist_nil_l.
  - by apply sublist_skip.
  - by apply sublist_cons.
Qed.

Lemma simplifyPath_sublist s s' :
  simplifyPath s = Some s' → sublist (m_simplifiedPath s') (m_path s').
Proof.
  unfold simplifyPath. destruct (length (m_path s) <? 3)%nat.
  - by intros [= <-].
  - destruct (rdpKeep _ _) as [keep|]; [|done]. intros [= <-]. simpl.
    apply collectKept_sublist.
Qed.

(** X8: in every session a client can build the simplified path is a
    selection of the raw path: its points are points of the raw path, in
    the order of the raw path, none of them repeated more often. *)
Theorem simplified_sublist_of_path (s : LassoSelection) :
  reachable s → sublist (m_simplifiedPath s) (m_path s).
Proof.
  induction 1 as [|s _ IH|s x y _ IH|s s' _ IH Hc|s a _ IH|s d _ IH|s t _ IH];
    try done.
  - destruct (addPoint_cases x y s) as [-> |(Hp & _ & [Hs|Hs])]; [done|..].
    + by rewrite Hp, Hs.
    + rewrite Hp, Hs. by apply sublist_inserts_r.
  - unfold closePath in Hc. destruct (length (m_path s) <? 3)%nat.
    + by injection Hc as <-.
    + by apply simplifyPath_sublist in Hc.
Qed.

Lemma simplified_sublist_of_path_witness :
  sublist (m_simplifiedPath (addPoint 3 3 (addPoint 0 0 LassoSelection_new)))
          (m_path (addPoint 3 3 (addPoint 0 0 LassoSelection_new))).
Proof.
  apply simplified_sublist_of_path. repeat apply reach_addPoint. apply reach_new.
Defined.

(** ** Closing twice *)

Lemma closedPolygon_closePath pts s :
  closedPolygon pts = Some s →
  closePath (addPoints pts LassoSelection_new) = Some s.
Proof. done. Qed.

Lemma closedPath_fixed path : head path = last path → closedPath path = path.
Proof.
  unfold closedPath. intros H. destruct (head path) as [front|]; [|done].
  rewrite <- H.
  assert (Heq : point_eqb front front = true) by by apply point_eqb_eq.
  by rewrite Heq.
Qed.

Lemma closedPath_length path : (length path <= length (closedPath path))%nat.
Proof.
  unfold closedPath. destruct (head path); [|done].
  destruct (last path); [|done].
  destruct (negb _); [|done]. rewrite length_app. lia.
Qed.

Lemma closePath_long s :
  (3 <= length (m_path s))%nat →
  closePath s = simplifyPath (set_closed true (set_path (closedPath (m_path s)) s)).
Proof.
  intros Hn. unfold closePath.
  destruct (Nat.ltb_spec (length (m_path s)) 3); [lia|done].
Qed.

Lemma closePath_short s :
  (length (m_path s) < 3)%nat → closePath s = Some (clear s).
Proof.
  intros Hn. unfold closePath.
  destruct (Nat.ltb_spec (length (m_path s)) 3); [done|lia].
Qed.

Lemma collectKept_length_ge_2 path keep :
  (2 <= length path)%nat → length keep = length path →
  keep !! 0%nat = Some true → keep !! (length path - 1)%nat = Some true →
  (2 <= length (collectKept path keep))%nat.
Proof.
  intros Hn Hlen H0 Hlast.
  destruct path as [|p path]; [simpl in Hn; lia|].
  destruct keep as [|k keep]; [done|]. injection H0 as ->.
  rewrite collectKept_head. simpl in *.
  assert (Hl : last (collectKept path keep) = last path).
  { apply collectKept_last; [lia|]. rewrite last_lookup.
    replace (pred (length keep)) with (length path - 1)%nat by lia.
    destruct path as [|q path]; [simpl in Hn; lia|].
    replace (length (q :: path) - 0)%nat with (S (length (q :: path) - 1))
      in Hlast by (simpl; lia).
    exact Hlast. }
  destruct (collectKept path keep) as [|c l]; [|simpl; lia].
  destruct path as [|q path]; [simpl in Hn; lia|].
  rewrite last_cons in Hl. simpl in Hl. by destruct (last path).
Qed.

(** X9: the polygon the queries work on after [closePath] on at least
    3 points is the simplified path; it has at least 2 points, starts
    with the first point of the raw path and ends with the same point. *)
Theorem closePath_polygon (s s' : LassoSelection) :
  (3 <= length (m_path s))%nat → closePath s = Some s' →
  polygon s' = m_simplifiedPath s' ∧
  (2 <= length (polygon s'))%nat ∧
  head (polygon s') = head (m_path s) ∧
  last (polygon s') = head (m_path s).
Proof.
  intros Hn Hc. rewrite closePath_long in Hc by done.
  assert (Hne : m_path s ≠ []) by (intros E; rewrite E in Hn; simpl in Hn; lia).
  destruct (closedPath_closed _ Hne) as [_ Hhl].
  assert (Hhead : head (closedPath (m_path s)) = head (m_path s)).
  { unfold closedPath. destruct (m_path s) as [|p l]; [done|].
    change (head (p :: l)) with (Some p). cbv beta iota.
    destruct (last (p :: l)); [|done]. by destruct (negb _). }
  pose proof (closedPath_length (m_path s)) as Hlen.
  unfold simplifyPath in Hc. simpl in Hc.
  destruct (Nat.ltb_spec (length (closedPath (m_path s))) 3); [lia|].
  destruct (rdpKeep _ _) as [keep|] eqn:Hk; [|done]. injection Hc as <-.
  apply rdpKeep_sound in Hk as (Hl & H0 & Hlast & _); [|done].
  assert (H2 : (2 <= length (collectKept (closedPath (m_path s)) keep))%nat).
  { apply collectKept_length_ge_2; (done || lia). }
  assert (Hpoly : polygon (set_simplifiedPath
                    (collectKept (closedPath (m_path s)) keep)
                    (set_closed true (set_path (closedPath (m_path s)) s)))
                  = collectKept (closedPath (m_path s)) keep).
  { unfold polygon. simpl. destruct (decide _) as [E|]; [|done].
    rewrite E in H2. simpl in H2. lia. }
  rewrite Hpoly. split; [done|]. split; [done|].
  destruct (closedPath (m_path s)) as [|p l] eqn:HP; [simpl in *; lia|].
  destruct keep as [|k keep]; [done|]. injection H0 as ->.
  split.
  - rewrite collectKept_head. by rewrite <- Hhead.
  - rewrite collectKept_last; [by rewrite <- Hhl, <- Hhead|done|].
    rewrite last_lookup. rewrite <- Hlast. f_equal. rewrite Hl. simpl. lia.
Qed.

Lemma closePath_polygon_witness :
  ∃ s', closedPolygon square3 = Some s' ∧
        head (polygon s') = Some (mkLassoPoint 0 0) ∧
        last (polygon s') = Some (mkLassoPoint 0 0).
Proof.
  eexists. split; [exact square3_session|].
  pose proof (closedPolygon_closePath _ _ square3_session) as Hc.
  assert (Hn : (3 <= length (m_path (addPoints square3 LassoSelection_new)))%nat)
    by (vm_compute; lia).
  destruct (closePath_polygon _ _ Hn Hc) as (_ & _ & Hh & Hl).
  split; [exact Hh|exact Hl].
Defined.

(** X10: closing a closed session changes nothing: when [closePath]
    returns a session, [closePath] on that session returns it again. *)
Theorem closePath_idempotent (s s' : LassoSelection) :
  closePath s = Some s' → closePath s' = Some s'.
Proof.
  intros Hc. destruct (Nat.ltb_spec (length (m_path s)) 3) as [Hlt|Hge].
  - rewrite closePath_short in Hc by done. by injection Hc as <-.
  - rewrite closePath_long in Hc by done.
    assert (Hne : m_path s ≠ []) by (intros E; rewrite E in Hge; simpl in Hge; lia).
    destruct (closedPath_closed _ Hne) as [_ Hhl].
    pose proof (closedPath_length (m_path s)) as Hlen.
    set (path := closedPath (m_path s)) in *.
    unfold simplifyPath in Hc. simpl in Hc.
    destruct (Nat.ltb_spec (length path) 3) as [|Hge']; [lia|].
    destruct (rdpKeep path (m_simplifyTolerance s)) as [keep|] eqn:Hk; [|done].
    injection Hc as <-.
    rewrite closePath_long by done. simpl.
    rewrite (closedPath_fixed path Hhl). unfold simplifyPath. simpl.
    destruct (Nat.ltb_spec (length path) 3); [lia|]. by rewrite Hk.
Qed.

Lemma closePath_idempotent_witness :
  ∃ s', closedPolygon square3 = Some s' ∧ closePath s' = Some s'.
Proof.
  eexists. split; [exact square3_session|].
  exact (closePath_idempotent _ _ (closedPolygon_closePath _ _ square3_session)).
Defined.

(** ** Tolerances that are not positive numbers *)

(** With a negative tolerance every call of [rdpSimplify] that returns
    has marked every point between its two ends. *)
Lemma rdpSimplify_negative_marks points epsilon :
  flt epsilon 0%float →
  ∀ fuel s e keep keep',
    rdpSimplify fuel points s e epsilon keep = Some keep' →
    (e < length keep)%nat →
    ∀ k, (s < k < e)%nat → keep' !! k = Some true.
Proof.
  intros Hneg. induction fuel as [|fuel IH]; intros s e keep keep' Hrun He k Hk.
  - rewrite rdpSimplify_unfold in Hrun.
    destruct (decide (e - s < 2)%nat); [lia|done].
  - destruct (decide (e - s < 2)%nat) as [|Hse]; [lia|].
    destruct (rdpScan points s e) as [M m] eqn:Hscan.
    destruct (rdpScan_cases _ _ _ _ _ Hscan)
      as [(-> & ->)|(Hm & _ & HM & _)].
    + by rewrite (rdpSimplify_stuck points epsilon s e 0%float) in Hrun.
    + assert (HeM : flt epsilon M) by by apply (flt_trans _ 0%float).
      rewrite rdpSimplify_unfold in Hrun.
      destruct (decide (e - s < 2)%nat); [lia|].
      rewrite Hscan in Hrun. unfold flt in HeM. rewrite HeM in Hrun.
      destruct (rdpSimplify fuel points s m epsilon (<[m:=true]> keep))
        as [keep1|] eqn:H1; [|done].
      change (rdpSimplify fuel points m e epsilon keep1 = Some keep') in Hrun.
      destruct (rdpSimplify_frame _ _ _ _ _ _ _ H1) as (Hl1 & _ & Ht1).
      destruct (rdpSimplify_frame _ _ _ _ _ _ _ Hrun) as (_ & _ & Ht2).
      rewrite length_insert in Hl1.
      destruct (Nat.lt_total k m) as [Hlt|[->|Hgt]].
      * apply Ht2. apply (IH _ _ _ _ H1); [rewrite length_insert|]; lia.
      * apply Ht2, Ht1. apply list_lookup_insert_eq. lia.
      * apply (IH _ _ _ _ Hrun); lia.
Qed.

(** X11: with a negative tolerance [simplifyPath] drops nothing: when it
    returns, the simplified path is the raw path. *)
Theorem simplifyPath_negative_tolerance (s s' : LassoSelection) :
  flt (m_simplifyTolerance s) 0%float →
  simplifyPath s = Some s' →
  m_simplifiedPath s' = m_path s.
Proof.
  intros Hneg. unfold simplifyPath.
  destruct (Nat.ltb_spec (length (m_path s)) 3) as [|Hn]; [by intros [= <-]|].
  destruct (rdpKeep _ _) as [keep|] eqn:Hk; [|done]. intros [= <-]. simpl.
  pose proof (rdpKeep_sound _ _ _ Hn Hk) as (Hl & H0 & Hlast & _).
  apply collectKept_all; [done|]. intros j Hj.
  destruct (decide (j = 0)%nat) as [-> |]; [done|].
  destruct (decide (j = length (m_path s) - 1)%nat) as [-> |]; [done|].
  unfold rdpKeep in Hk.
  apply (rdpSimplify_negative_marks _ _ Hneg _ _ _ _ _ Hk);
    [rewrite !length_insert, length_replicate|]; lia.
Qed.

Lemma simplifyPath_negative_tolerance_witness :
  let s := setSimplifyTolerance (-1)
             (addPoints [(0, 0); (1, 5); (2, 0)] LassoSelection_new) in
  ∃ s', simplifyPath s = Some s' ∧ m_simplifiedPath s' = m_path s.
Proof.
  intros s. exists (set_simplifiedPath (m_path s) s).
  assert (Hrun : simplifyPath s = Some (set_simplifiedPath (m_path s) s))
    by (vm_compute; reflexivity).
  split; [exact Hrun|].
  apply (simplifyPath_negative_tolerance s _ ltac:(reflexivity) Hrun).
Defined.

Lemma insert_last_replicate m :
  <[m := true]> (replicate (S m) false) = replicate m false ++ [true].
Proof. induction m as [|m IH]; [done|]. simpl in *. by rewrite IH. Qed.

Lemma collectKept_ends p mid q :
  let path := p :: mid ++ [q] in
  collectKept path
    (<[(length path - 1)%nat := true]>
       (<[0%nat := true]> (replicate (length path) false)))
  = [p; q].
Proof.
  simpl. rewrite length_app. simpl.
  replace (length mid + 1)%nat with (S (length mid)) by lia.
  simpl.
  change (false :: replicate (length mid) false)
    with (replicate (S (length mid)) false).
  rewrite insert_last_replicate. f_equal.
  induction mid as [|r mid IH]; [done|]. simpl. apply IH.
Qed.

(** X12: when the tolerance is a NaN or plus infinity no distance is
    above it, and [simplifyPath] on at least 3 points returns and keeps
    the first and the last point of the raw path only. *)
Theorem simplifyPath_unordered_tolerance (s : LassoSelection)
    (front back : LassoPoint) :
  (¬ fordered (m_simplifyTolerance s) ∨ m_simplifyTolerance s = infinity) →
  (3 <= length (m_path s))%nat →
  head (m_path s) = Some front → last (m_path s) = Some back →
  simplifyPath s = Some (set_simplifiedPath [front; back] s).
Proof.
  intros Htol Hn Hfront Hback.
  assert (Hno : ∀ d, (m_simplifyTolerance s <? d)%float = false).
  { intros d. destruct (m_simplifyTolerance s <? d)%float eqn:E; [|done].
    exfalso. destruct Htol as [Hnan|Hinf].
    - by apply Hnan, (flt_ordered _ d).
    - rewrite Hinf, FloatAxioms.ltb_spec in E.
      change (Prim2SF infinity) with (S754_infinity false) in E.
      by destruct (Prim2SF d) as [| [] | |]. }
  unfold simplifyPath. destruct (Nat.ltb_spec (length (m_path s)) 3); [lia|].
  assert (Hk : rdpKeep (m_path s) (m_simplifyTolerance s)
               = Some (<[(length (m_path s) - 1)%nat := true]>
                         (<[0%nat := true]> (replicate (length (m_path s)) false)))).
  { unfold rdpKeep. rewrite rdpSimplify_unfold.
    destruct (decide _) as [|_]; [lia|].
    destruct (length (m_path s)) as [|n] eqn:E; [lia|]. rewrite <- E.
    destruct (rdpScan _ _ _) as [M m]. by rewrite Hno. }
  rewrite Hk. simpl. do 2 f_equal.
  destruct (m_path s) as [|p rest]; [done|]. injection Hfront as ->.
  destruct rest as [|q mid _] using rev_ind; [simpl in Hn; lia|].
  rewrite last_cons, last_snoc in Hback. injection Hback as ->.
  apply collectKept_ends.
Qed.

Lemma simplifyPath_unordered_tolerance_witness :
  let s := setSimplifyTolerance nan
             (addPoints [(0, 0); (1, 5); (2, 0); (9, 9)] LassoSelection_new) in
  simplifyPath s
  = Some (set_simplifiedPath [mkLassoPoint 0 0; mkLassoPoint 9 9] s).
Proof.
  intros s. apply simplifyPath_unordered_tolerance.
  - left. vm_compute. discriminate.
  - vm_compute. lia.
  - reflexivity.
  - reflexivity.
Defined.

(** ** The rows of the fill *)

Lemma height_no_wrap lo hi :
  int_range lo → int_range hi → lo <= hi → hi ≠ INT_MAX →
  0 <= int_add (int_sub hi lo) 1 →
  hi - lo <= 2147483646 ∧ int_add (int_sub hi lo) 1 = hi - lo + 1.
Proof.
  unfold int_range, INT_MIN, INT_MAX, int_add, int_sub, int_wrap.
  intros Hlo Hhi Hle Hmax Hh. Z.div_mod_to_equations. lia.
Qed.

Lemma int_sub_rows lo hi a b :
  hi - lo <= 2147483646 → lo <= a <= hi → lo <= b <= hi →
  int_sub a b = a - b.
Proof.
  intros HD Ha Hb. apply int_wrap_id.
  unfold int_range, INT_MIN, INT_MAX. lia.
Qed.

Lemma buildEdgeStep_length poly minY table i :
  length (buildEdgeStep poly minY table i) = length table.
Proof.
  unfold buildEdgeStep. destruct (_ =? _); [done|].
  destruct (if pt_y (poly !!! i) <? _ then _ else _) as [[yMin yMax] xAtYMin].
  destruct (_ && _); [|done]. by rewrite length_alter.
Qed.

Lemma buildEdgeTable_length s table minY :
  length (buildEdgeTable s table minY) = length table.
Proof.
  unfold buildEdgeTable. destruct (_ <? _)%nat; [done|].
  generalize (seq 0 (length (polygon s) - 1)). intros l. revert table.
  induction l as [|i l IH]; intros table; [done|].
  cbn [foldl]. by rewrite IH, buildEdgeStep_length.
Qed.

Lemma buildEdgeStep_ends poly minY maxY table i :
  maxY - minY <= 2147483646 →
  (∀ p, p ∈ poly → minY <= pt_y p <= maxY) →
  (i + 1 < length poly)%nat →
  tableEndsIn minY maxY table →
  tableEndsIn minY maxY (buildEdgeStep poly minY table i).
Proof.
  intros HD Hin Hi Htable. unfold buildEdgeStep.
  assert (H1 : minY <= pt_y (poly !!! i) <= maxY).
  { apply Hin, list_elem_of_lookup_total_2. lia. }
  assert (H2 : minY <= pt_y (poly !!! (i + 1)%nat) <= maxY).
  { apply Hin, list_elem_of_lookup_total_2. lia. }
  destruct (Z.eqb_spec (pt_y (poly !!! i)) (pt_y (poly !!! (i + 1)%nat)));
    [done|].
  set (invSlope := (_ / _)%float). clearbody invSlope.
  assert (Hadd : ∀ yMin yMax xAtYMin,
            minY <= yMin → yMin < yMax <= maxY →
            tableEndsIn minY maxY
              (if (0 <=? int_sub yMin minY)
                  && (int_sub yMin minY <? Z.of_nat (length table))
               then alter (λ bucket, bucket ++ [mkLassoEdge yMax xAtYMin invSlope])
                          (Z.to_nat (int_sub yMin minY)) table
               else table)).
  { intros yMin yMax xAtYMin Hlo Hhi.
    rewrite (int_sub_rows minY maxY) by lia.
    destruct (_ && _); [|done]. intros j bucket.
    destruct (decide (j = Z.to_nat (yMin - minY))) as [-> |Hne].
    - rewrite list_lookup_alter_eq.
      destruct (table !! Z.to_nat (yMin - minY)) as [b0|] eqn:Hb; [|done].
      intros [= <-]. apply Forall_app. split.
      + by apply (Htable _ _ Hb).
      + apply Forall_singleton. simpl. lia.
    - rewrite list_lookup_alter_ne by done. apply Htable. }
  destruct (Z.ltb_spec (pt_y (poly !!! i)) (pt_y (poly !!! (i + 1)%nat)));
    apply Hadd; lia.
Qed.

Lemma buildEdgeTable_ends s table minY maxY :
  maxY - minY <= 2147483646 →
  (∀ p, p ∈ polygon s → minY <= pt_y p <= maxY) →
  tableEndsIn minY maxY table →
  tableEndsIn minY maxY (buildEdgeTable s table minY).
Proof.
  intros HD Hin. unfold buildEdgeTable. destruct (_ <? _)%nat; [done|].
  assert (Hseq : Forall (λ i, (i + 1 < length (polygon s))%nat)
                        (seq 0 (length (polygon s) - 1))).
  { apply Forall_forall. intros i Hi. apply elem_of_seq in Hi. lia. }
  revert table. induction Hseq as [|i l Hi _ IH]; intros table Htable; [done|].
  cbn [foldl]. apply IH. by apply buildEdgeStep_ends.
Qed.

Lemma elem_of_insertEdge e e' l : e' ∈ insertEdge e l ↔ e' = e ∨ e' ∈ l.
Proof.
  induction l as [|a l IH]; simpl.
  - rewrite list_elem_of_singleton, elem_of_nil. tauto.
  - destruct (_ <? _)%float.
    + rewrite !elem_of_cons, IH. tauto.
    + by rewrite elem_of_cons.
Qed.

Lemma elem_of_sortEdges e l : e ∈ sortEdges l ↔ e ∈ l.
Proof.
  unfold sortEdges. induction l as [|a l IH]; [done|].
  cbn [foldr]. by rewrite elem_of_insertEdge, elem_of_cons, IH.
Qed.

(** One row of the scanline loop: the edges that stay active end above
    the row, and cells are produced only when there is such an edge. *)
Lemma scanlineStep_rows floor minY maxY table activeEdges tiles y
      activeEdges' tiles' :
  maxY - minY <= 2147483646 → minY <= y <= maxY →
  tableEndsIn minY maxY table →
  edgesEndIn (y - 1) maxY activeEdges →
  scanlineStep floor minY table (activeEdges, tiles) y
    = Some (activeEdges', tiles') →
  edgesEndIn y maxY activeEdges' ∧
  ∃ runs, tiles' = tiles ++ (runs ≫= runCells floor) ∧
          Forall (λ r, runRow r = y ∧ y < maxY) runs.
Proof.
  intros HD Hy Htable Hactive. unfold scanlineStep.
  rewrite (int_sub_rows minY maxY) by lia.
  set (merged := if _ <? _ then _ else activeEdges).
  assert (Hmerged : edgesEndIn (y - 1) maxY merged).
  { unfold merged. destruct (Z.ltb_spec (y - minY) (Z.of_nat (length table)));
      [|done].
    apply Forall_app. split; [done|].
    assert (Hb : table !! Z.to_nat (y - minY)
                 = Some (table !!! Z.to_nat (y - minY))).
    { apply list_lookup_lookup_total_lt. lia. }
    apply Htable in Hb. eapply Forall_impl; [exact Hb|].
    intros e He. simpl in He. lia. }
  assert (Hfilter : edgesEndIn y maxY (filter (λ e, yMax e ≠ y) merged)).
  { apply Forall_forall. intros e He.
    apply list_elem_of_filter in He as [Hne He].
    unfold edgesEndIn in Hmerged. rewrite Forall_forall in Hmerged.
    specialize (Hmerged e He). simpl in Hmerged. lia. }
  clearbody merged. destruct (filter _ merged) as [|e l] eqn:Hf.
  - intros [= <- <-]. split; [constructor|].
    exists []. split; [by rewrite app_nil_r|constructor].
  - assert (Hsorted : ∀ a, a ∈ sortEdges (e :: l) → a ∈ e :: l)
      by (intros a; apply elem_of_sortEdges).
    set (sorted := sortEdges (e :: l)) in *. clearbody sorted.
    destruct (fillPairs floor y sorted tiles) as [t|] eqn:Hfill; [|done].
    simpl. intros [= <- <-]. split.
    + apply Forall_fmap, Forall_forall. intros a Ha. apply Hsorted in Ha.
      unfold edgesEndIn in Hfilter. rewrite Forall_forall in Hfilter.
      exact (Hfilter a Ha).
    + apply fillPairs_runs in Hfill as (runs & -> & Hrows).
      exists runs. split; [done|].
      eapply Forall_impl; [exact Hrows|]. intros r Hr. split; [done|].
      apply Forall_inv in Hfilter. simpl in Hfilter. lia.
Qed.

Lemma scanlineLoop_rows floor minY maxY table :
  maxY - minY <= 2147483646 →
  tableEndsIn minY maxY table →
  ∀ n y activeEdges tiles st',
    minY <= y → y + Z.of_nat n - 1 <= maxY →
    edgesEndIn (y - 1) maxY activeEdges →
    scanlineLoop floor minY table (seqZ y (Z.of_nat n)) (activeEdges, tiles)
      = Some st' →
    ∃ runs, snd st' = tiles ++ (runs ≫= runCells floor) ∧
            Forall (λ r, minY <= runRow r < maxY) runs.
Proof.
  intros HD Htable. induction n as [|n IH];
    intros y activeEdges tiles st' Hlo Hhi Hactive.
  - intros [= <-]. exists []. split; [by rewrite app_nil_r|constructor].
  - rewrite seqZ_cons by lia. cbn [scanlineLoop].
    destruct (scanlineStep floor minY table (activeEdges, tiles) y)
      as [[activeEdges1 tiles1]|] eqn:Hstep; [|done].
    intros Hloop.
    change (scanlineLoop floor minY table
              (seqZ (Z.succ y) (Z.pred (Z.of_nat (S n))))
              (activeEdges1, tiles1) = Some st') in Hloop.
    replace (Z.pred (Z.of_nat (S n))) with (Z.of_nat n) in Hloop by lia.
    apply (scanlineStep_rows _ _ maxY) in Hstep
      as (Hactive1 & runs1 & -> & Hrows1); [|done|lia|done|done].
    apply IH in Hloop as (runs2 & -> & Hrows2);
      [|lia|lia|by replace (Z.succ y - 1) with y by lia].
    exists (runs1 ++ runs2). split.
    + by rewrite bind_app, app_assoc.
    + apply Forall_app. split; [|done].
      eapply Forall_impl; [exact Hrows1|]. intros r [-> ?]. lia.
Qed.

Lemma scanlineFillAET_rows floor s tiles :
  session_inv s →
  int_range (minY (m_boundingBox s)) → int_range (maxY (m_boundingBox s)) →
  scanlineFillAET floor s [] = Some tiles →
  ∃ runs, tiles = runs ≫= runCells floor ∧
          Forall (λ r, minY (m_boundingBox s) <= runRow r
                       < maxY (m_boundingBox s)) runs.
Proof.
  intros [Hbox Hsub] Hlo Hhi. unfold scanlineFillAET.
  destruct (length (polygon s) <? 3)%nat;
    [intros [= <-]; exists []; split; [done|constructor]|].
  destruct (isValid (m_boundingBox s)) eqn:Hvalid;
    [|intros [= <-]; exists []; split; [done|constructor]].
  simpl. unfold isValid in Hvalid.
  apply andb_true_iff in Hvalid as [Hvalid Hy].
  apply andb_true_iff in Hvalid as [Hhas _]. apply Z.leb_le in Hy.
  destruct (Z.ltb_spec (int_add (int_sub (maxY (m_boundingBox s))
                                         (minY (m_boundingBox s))) 1) 0)
    as [|Hheight]; [done|].
  destruct (Z.eqb_spec (maxY (m_boundingBox s)) INT_MAX) as [|Hmax]; [done|].
  destruct (height_no_wrap _ _ Hlo Hhi Hy Hmax Hheight) as [HD Hh].
  destruct (scanlineLoop _ _ _ _ _) as [st'|] eqn:Hloop; [|done].
  simpl. intros [= <-]. unfold span in Hloop.
  rewrite <- (Z2Nat.id (_ - _ + 1)) in Hloop by lia.
  apply (scanlineLoop_rows _ _ (maxY (m_boundingBox s))) in Hloop;
    [done|done| |lia|lia|constructor].
  apply buildEdgeTable_ends; [done| |].
  - intros p Hp. apply polygon_subset in Hp; [|done].
    destruct Hbox as [[_ Hno]|[_ (Hall & _)]]; [congruence|].
    by apply Hall.
  - intros i bucket Hb. apply lookup_replicate in Hb as [-> _]. constructor.
Qed.

(** X13: the fill leaves the last row of the box empty. In every session
    a client can build, with the rows of the box in the range of [int],
    every cell [getTilesInPolygon] returns has [minY <= y < maxY] and
    the floor asked for; a box of one row gives no cell at all. *)
Theorem getTilesInPolygon_rows (floor : Z) (s : LassoSelection)
    (tiles : list Position) :
  reachable s →
  int_range (minY (m_boundingBox s)) → int_range (maxY (m_boundingBox s)) →
  getTilesInPolygon floor s = Some tiles →
  (∀ p, p ∈ tiles →
        minY (m_boundingBox s) <= pos_y p < maxY (m_boundingBox s) ∧
        pos_z p = floor) ∧
  (minY (m_boundingBox s) = maxY (m_boundingBox s) → tiles = []).
Proof.
  intros Hr Hlo Hhi Hfill.
  assert (Hrows : ∀ p, p ∈ tiles →
            minY (m_boundingBox s) <= pos_y p < maxY (m_boundingBox s) ∧
            pos_z p = floor).
  { revert Hfill. unfold getTilesInPolygon.
    destruct (negb (m_closed s) || (length (m_path s) <? 3)%nat).
    { intros [= <-] p Hp. by apply elem_of_nil in Hp. }
    destruct (if isValid (m_boundingBox s) then _ else true); [|done].
    intros Hfill.
    apply scanlineFillAET_rows in Hfill as (runs & -> & Hruns);
      [|by apply reachable_session_inv|done|done].
    intros p Hp. apply list_elem_of_bind in Hp as (r & Hp & Hr').
    apply elem_of_runCells in Hp as [-> ->].
    rewrite Forall_forall in Hruns. split; [|done]. by apply Hruns. }
  split; [done|]. intros Heq.
  destruct tiles as [|p tiles]; [done|].
  destruct (Hrows p ltac:(apply list_elem_of_here)) as [? _]. lia.
Qed.

Lemma getTilesInPolygon_rows_witness :
  ∃ s, closedPolygon square3 = Some s ∧
       ∀ p, p ∈ grid 0 3 0 2 0 → 0 <= pos_y p < 3 ∧ pos_z p = 0.
Proof.
  eexists. split; [exact square3_session|].
  pose proof (closedPolygon_reachable _ _ square3_session) as Hr.
  refine (proj1 (getTilesInPolygon_rows 0 _ (grid 0 3 0 2 0) Hr _ _ _)).
  - vm_compute. split; discriminate.
  - vm_compute. split; discriminate.
  - vm_compute. reflexivity.
Defined.

(** ** The last row and the last column of the box *)

(** X14: [pointInPolygon] returns and answers [false] on the last row
    of the box and above it, in every session a client can build; and on
    the last column of the box and to the right of it, when the number
    of cells of the box fits in an [int]. *)
Theorem pointInPolygon_last_row_column (s : LassoSelection) :
  reachable s →
  (∀ x y, maxY (m_boundingBox s) <= y → pointInPolygon x y s = Some false) ∧
  (box_fits (m_boundingBox s) →
   ∀ x y, maxX (m_boundingBox s) <= x → pointInPolygon x y s = Some false).
Proof.
  intros Hr. destruct (reachable_session_inv s Hr) as [Hbox Hsub].
  assert (Hseq : Forall (λ i, (i < length (polygon s))%nat)
                        (seq 0 (length (polygon s)))).
  { apply Forall_forall. intros i Hi. apply elem_of_seq in Hi. lia. }
  assert (Hin : (3 <= length (polygon s))%nat →
                ∀ k, (k < length (polygon s))%nat →
                     in_box (m_boundingBox s) (polygon s !!! k)).
  { intros Hlen k Hk.
    assert (Hp : polygon s !!! k ∈ m_path s).
    { apply polygon_subset; [done|]. by apply list_elem_of_lookup_total_2. }
    destruct Hbox as [[Hnil _]|[_ (Hall & _)]].
    - rewrite Hnil in Hp. by apply elem_of_nil in Hp.
    - by apply Hall. }
  split.
  - intros x y Hy. unfold pointInPolygon.
    destruct (Nat.ltb_spec (length (polygon s)) 3) as [|Hlen]; [done|].
    apply ray_fold_unchanged; [|done|lia].
    intros i j Hi Hj.
    destruct (Hin Hlen i Hi) as [_ ?], (Hin Hlen j Hj) as [_ ?].
    assert (Hside : (y <? pt_y (polygon s !!! i))
                    = (y <? pt_y (polygon s !!! j))).
    { destruct (Z.ltb_spec y (pt_y (polygon s !!! i))),
               (Z.ltb_spec y (pt_y (polygon s !!! j))); (done || lia). }
    split; [by apply rayTraps_same_side|].
    unfold rayCrosses. by rewrite Hside, Bool.eqb_reflx.
  - intros Hfits x y Hx. unfold pointInPolygon.
    destruct (Nat.ltb_spec (length (polygon s)) 3) as [|Hlen]; [done|].
    apply ray_fold_unchanged; [|done|lia].
    intros i j Hi Hj. split.
    { by apply (rayTraps_box_fits (m_boundingBox s)); [|apply Hin|apply Hin]. }
    destruct (decide ((y <? pt_y (polygon s !!! i))
                      = (y <? pt_y (polygon s !!! j)))) as [Heq|Hne].
    + unfold rayCrosses. rewrite Heq. by rewrite Bool.eqb_reflx.
    + pose proof (intercept_between _ _ _ y Hfits (Hin Hlen i Hi)
                    (Hin Hlen j Hj) Hne) as Hb.
      unfold rayCrosses. apply andb_false_iff. right. apply Z.ltb_ge.
      destruct (Hin Hlen i Hi) as [? _], (Hin Hlen j Hj) as [? _]. lia.
Qed.

Lemma pointInPolygon_last_row_column_witness :
  ∃ s, closedPolygon square3 = Some s ∧
       pointInPolygon 1 3 s = Some false ∧ pointInPolygon 3 1 s = Some false.
Proof.
  eexists. split; [exact square3_session|].
  pose proof (closedPolygon_reachable _ _ square3_session) as Hr.
  destruct (pointInPolygon_last_row_column _ Hr) as [Hrow Hcol]. split.
  - apply Hrow. vm_compute. discriminate.
  - apply Hcol; [|vm_compute; discriminate].
    repeat split; vm_compute; discriminate.
Defined.

(** ** The floor of the cells *)

Lemma fillPairs_floor floor1 floor2 y edges (tiles : list Position) :
  fillPairs floor2 y edges (onFloor floor2 <$> tiles)
  = (λ t : list Position, onFloor floor2 <$> t) <$> fillPairs floor1 y edges tiles.
Proof.
  revert tiles. induction edges as [|e|e1 e2 rest IH] using list_pair_ind;
    intros tiles; try done.
  simpl. destruct (_ =? INT_MAX); [done|].
  rewrite <- IH. f_equal. rewrite fmap_app. f_equal.
  by rewrite <- list_fmap_compose.
Qed.

Lemma scanlineStep_floor floor1 floor2 minY table activeEdges
      (tiles : list Position) y :
  scanlineStep floor2 minY table (activeEdges, onFloor floor2 <$> tiles) y
  = prod_map id (λ t : list Position, onFloor floor2 <$> t)
      <$> scanlineStep floor1 minY table (activeEdges, tiles) y.
Proof.
  unfold scanlineStep. destruct (filter _ _) as [|e l]; [done|].
  set (sorted := sortEdges (e :: l)). clearbody sorted.
  rewrite (fillPairs_floor floor1).
  by destruct (fillPairs floor1 y sorted tiles).
Qed.

Lemma scanlineLoop_floor floor1 floor2 minY table ys activeEdges
      (tiles : list Position) :
  scanlineLoop floor2 minY table ys (activeEdges, onFloor floor2 <$> tiles)
  = prod_map id (λ t : list Position, onFloor floor2 <$> t)
      <$> scanlineLoop floor1 minY table ys (activeEdges, tiles).
Proof.
  revert activeEdges tiles. induction ys as [|y ys IH]; intros activeEdges tiles;
    [done|].
  cbn [scanlineLoop]. rewrite (scanlineStep_floor floor1).
  destruct (scanlineStep floor1 minY table (activeEdges, tiles) y)
    as [[activeEdges1 tiles1]|]; [|done].
  apply IH.
Qed.

(** X15: the floor is passed through to the cells and decides nothing
    else: the fill for one floor is the fill for any other floor with
    the floor of every cell replaced, and it returns for the one floor
    exactly when it returns for the other. *)
Theorem getTilesInPolygon_floor (floor1 floor2 : Z) (s : LassoSelection) :
  getTilesInPolygon floor2 s
  = (λ t : list Position, onFloor floor2 <$> t) <$> getTilesInPolygon floor1 s.
Proof.
  unfold getTilesInPolygon.
  destruct (negb (m_closed s) || (length (m_path s) <? 3)%nat); [done|].
  destruct (if isValid (m_boundingBox s) then _ else true); [|done].
  unfold scanlineFillAET.
  destruct (length (polygon s) <? 3)%nat; [done|].
  destruct (negb (isValid (m_boundingBox s))); [done|].
  destruct (_ <? 0); [done|]. destruct (_ =? INT_MAX); [done|].
  change (@nil Position) with (onFloor floor2 <$> @nil Position) at 1.
  rewrite (scanlineLoop_floor floor1).
  by destruct (scanlineLoop floor1 _ _ _ _) as [[]|].
Qed.

(** ** The active edges of a scanline *)

Lemma filter_none {A} (P : A → Prop) `{∀ x, Decision (P x)} (l : list A) :
  (∀ x, x ∈ l → ¬ P x) → filter P l = [].
Proof.
  induction l as [|a l IH]; intros Hno; [done|].
  rewrite filter_cons_False by (apply Hno, list_elem_of_here).
  apply IH. intros x Hx. by apply Hno, list_elem_of_further.
Qed.

Lemma filter_fmap_comm {A B} (f : A → B) (P : B → Prop)
    `{∀ x, Decision (P x)} (l : list A) :
  filter P (f <$> l) = f <$> filter (λ a, P (f a)) l.
Proof.
  induction l as [|a l IH]; [done|]. rewrite fmap_cons, !filter_cons.
  destruct (decide (P (f a))); by rewrite IH.
Qed.

Lemma filter_split_perm {A} (P Q R : A → Prop) `{∀ x, Decision (P x)}
    `{∀ x, Decision (Q x)} `{∀ x, Decision (R x)} (l : list A) :
  (∀ x, R x ↔ P x ∨ Q x) → (∀ x, P x → Q x → False) →
  filter P l ++ filter Q l ≡ₚ filter R l.
Proof.
  intros HR Hdis. induction l as [|a l IH]; [done|].
  rewrite !filter_cons.
  destruct (decide (P a)) as [HP|HP], (decide (Q a)) as [HQ|HQ],
           (decide (R a)) as [Hr|Hr];
    try (exfalso; by eauto); try (exfalso; apply Hr, HR; by eauto);
    try (exfalso; apply HR in Hr as []; by eauto).
  - simpl. by rewrite IH.
  - rewrite <- Permutation_middle. by rewrite IH.
  - done.
Qed.

Lemma insertEdge_perm e l : insertEdge e l ≡ₚ e :: l.
Proof.
  induction l as [|a l IH]; [done|]. simpl.
  destruct (_ <? _)%float; [|done]. rewrite IH. apply Permutation_swap.
Qed.

Lemma sortEdges_perm l : sortEdges l ≡ₚ l.
Proof.
  unfold sortEdges. induction l as [|a l IH]; [done|].
  cbn [foldr]. by rewrite insertEdge_perm, IH.
Qed.

Lemma filter_yMax y (l : list LassoEdge) :
  yMax <$> filter (λ e, yMax e ≠ y) l = filter (λ v, v ≠ y) (yMax <$> l).
Proof.
  induction l as [|e l IH]; [done|]. rewrite fmap_cons, !filter_cons.
  destruct (decide (yMax e ≠ y)); by rewrite <- IH.
Qed.

Lemma fillPairs_runs_count floor y edges tiles tiles' :
  fillPairs floor y edges tiles = Some tiles' →
  ∃ runs,
    tiles' = tiles ++ (runs ≫= runCells floor) ∧
    Forall (λ r, runRow r = y) runs ∧
    length runs = (length edges / 2)%nat.
Proof.
  revert tiles. induction edges as [|e|e1 e2 rest IH] using list_pair_ind;
    intros tiles.
  - intros [= <-]. exists []. by rewrite app_nil_r.
  - intros [= <-]. exists []. by rewrite app_nil_r.
  - simpl fillPairs. destruct (int_floor (edge_x e2) =? INT_MAX); [done|].
    intros Hfill. apply IH in Hfill as (runs & -> & Hrows & Hcount).
    exists ((y, int_ceil (edge_x e1), int_floor (edge_x e2)) :: runs).
    split; [by rewrite <- app_assoc|]. split; [by constructor|].
    cbn [length]. rewrite Hcount.
    change (S (S (length rest))) with (2 + length rest)%nat.
    pose proof (Nat.div_mod_eq (length rest) 2).
    pose proof (Nat.div_mod_eq (2 + length rest) 2).
    pose proof (Nat.mod_upper_bound (length rest) 2 ltac:(done)).
    pose proof (Nat.mod_upper_bound (2 + length rest) 2 ltac:(done)).
    lia.
Qed.

Section active_edges.

Variable poly : list LassoPoint.
Variables minY maxY : Z.
Hypothesis rows_fit : maxY - minY <= 2147483646.
Hypothesis poly_rows : ∀ p, p ∈ poly → minY <= pt_y p <= maxY.

Lemma edge_rows i :
  (i + 1 < length poly)%nat →
  minY <= edgeBottom poly i ∧ edgeTop poly i <= maxY.
Proof.
  intros Hi. unfold edgeBottom, edgeTop.
  assert (H1 : minY <= pt_y (poly !!! i) <= maxY).
  { apply poly_rows, list_elem_of_lookup_total_2. lia. }
  assert (H2 : minY <= pt_y (poly !!! (i + 1)%nat) <= maxY).
  { apply poly_rows, list_elem_of_lookup_total_2. lia. }
  lia.
Qed.

Lemma buildEdgeStep_buckets table ks i :
  (i + 1 < length poly)%nat →
  bucketsOf poly minY maxY table ks →
  bucketsOf poly minY maxY (buildEdgeStep poly minY table i) (ks ++ [i]).
Proof.
  intros Hi [Hlen Hb]. split; [by rewrite buildEdgeStep_length|].
  rewrite buildEdgeStep_length. intros j Hj.
  rewrite filter_app, fmap_app, <- (Hb j Hj).
  destruct (edge_rows i Hi) as [Hlo Hhi].
  unfold buildEdgeStep.
  fold (edgeBottom poly i) in Hlo. unfold edgeBottom, edgeTop in Hlo, Hhi.
  destruct (Z.eqb_spec (pt_y (poly !!! i)) (pt_y (poly !!! (i + 1)%nat)))
    as [Heq|Hne].
  { rewrite filter_none, app_nil_r; [done|].
    intros k ->%list_elem_of_singleton [_ Hlt].
    unfold edgeBottom, edgeTop in Hlt. lia. }
  set (invSlope := (_ / _)%float). clearbody invSlope.
  assert (Hadd : ∀ yMin yMax' xAtYMin,
            yMin = edgeBottom poly i → yMax' = edgeTop poly i →
            yMax <$>
              ((if (0 <=? int_sub yMin minY)
                   && (int_sub yMin minY <? Z.of_nat (length table))
                then alter (λ bucket,
                              bucket ++ [mkLassoEdge yMax' xAtYMin invSlope])
                           (Z.to_nat (int_sub yMin minY)) table
                else table) !!! j)
            = (yMax <$> table !!! j)
              ++ (edgeTop poly <$> filter (startsAt poly (minY + Z.of_nat j)) [i])).
  { intros yMin yMax' xAtYMin -> ->.
    unfold edgeBottom, edgeTop in *.
    rewrite (int_sub_rows minY maxY) by lia.
    destruct (Z.leb_spec 0 (Z.min (pt_y (poly !!! i))
                                  (pt_y (poly !!! (i + 1)%nat)) - minY));
      [|lia].
    destruct (Z.ltb_spec (Z.min (pt_y (poly !!! i))
                                (pt_y (poly !!! (i + 1)%nat)) - minY)
                         (Z.of_nat (length table))); [|lia].
    cbn [andb].
    destruct (decide (j = Z.to_nat (Z.min (pt_y (poly !!! i))
                                          (pt_y (poly !!! (i + 1)%nat)) - minY)))
      as [-> |Hj'].
    - rewrite list_lookup_total_alter_eq by lia.
      rewrite fmap_app. f_equal.
      rewrite filter_cons_True, filter_nil; [done|].
      unfold startsAt, edgeBottom, edgeTop. lia.
    - rewrite list_lookup_total_alter_ne by done.
      rewrite filter_none, app_nil_r; [done|].
      intros k ->%list_elem_of_singleton [Hk _].
      unfold edgeBottom in Hk. lia. }
  destruct (Z.ltb_spec (pt_y (poly !!! i)) (pt_y (poly !!! (i + 1)%nat)));
    apply Hadd; unfold edgeBottom, edgeTop; lia.
Qed.

Lemma buildEdgeSteps_buckets l table ks :
  Forall (λ i, (i + 1 < length poly)%nat) l →
  bucketsOf poly minY maxY table ks →
  bucketsOf poly minY maxY (foldl (buildEdgeStep poly minY) table l) (ks ++ l).
Proof.
  intros Hl. revert table ks.
  induction Hl as [|i l Hi _ IH]; intros table ks Hb.
  - by rewrite app_nil_r.
  - cbn [foldl]. rewrite cons_middle, app_assoc. apply IH.
    by apply buildEdgeStep_buckets.
Qed.

Variable table : list (list LassoEdge).
Variable all : list nat.
Hypothesis table_buckets : bucketsOf poly minY maxY table all.

(** The edges that are active on a row once the edges that end on it
    are removed: one for each edge of the polygon that crosses the row. *)
Lemma active_filtered activeEdges y :
  minY <= y <= maxY →
  yMax <$> activeEdges ≡ₚ edgeTop poly <$> filter (entersRow poly y) all →
  yMax <$> filter (λ e, yMax e ≠ y)
             (activeEdges ++ table !!! Z.to_nat (y - minY))
  ≡ₚ edgeTop poly <$> filter (crossesRow poly y) all.
Proof.
  intros Hy Hactive. destruct table_buckets as [Hlen Hb].
  rewrite filter_yMax, fmap_app, Hactive, Hb by lia.
  replace (minY + Z.of_nat (Z.to_nat (y - minY))) with y by lia.
  rewrite filter_app, !filter_fmap_comm, <- fmap_app.
  apply fmap_Permutation.
  rewrite !list_filter_filter.
  apply filter_split_perm.
  - intros i. unfold entersRow, startsAt, crossesRow. lia.
  - intros i. unfold entersRow, startsAt. lia.
Qed.

Lemma scanlineStep_active floor activeEdges tiles y activeEdges' tiles' :
  minY <= y <= maxY →
  yMax <$> activeEdges ≡ₚ edgeTop poly <$> filter (entersRow poly y) all →
  scanlineStep floor minY table (activeEdges, tiles) y
    = Some (activeEdges', tiles') →
  yMax <$> activeEdges' ≡ₚ edgeTop poly <$> filter (crossesRow poly y) all.
Proof.
  intros Hy Hactive. pose proof (active_filtered _ _ Hy Hactive) as Hfilter.
  destruct table_buckets as [Hlen Hb].
  unfold scanlineStep.
  rewrite (int_sub_rows minY maxY) by lia.
  destruct (Z.ltb_spec (y - minY) (Z.of_nat (length table))); [|lia].
  destruct (filter (λ e, yMax e ≠ y) _) as [|e l] eqn:Hf.
  - intros [= <- <-]. exact Hfilter.
  - pose proof (sortEdges_perm (e :: l)) as Hsorted.
    set (sorted := sortEdges (e :: l)) in *. clearbody sorted.
    destruct (fillPairs floor y sorted tiles) as [t|]; [|done].
    simpl. intros [= <- <-].
    rewrite <- list_fmap_compose.
    change (yMax ∘ advanceEdge) with yMax.
    by rewrite Hsorted.
Qed.

(** Cells are produced on a row only when two edges at least are active
    on it. *)
Lemma scanlineStep_cells floor activeEdges tiles y activeEdges' tiles' :
  minY <= y <= maxY →
  yMax <$> activeEdges ≡ₚ edgeTop poly <$> filter (entersRow poly y) all →
  scanlineStep floor minY table (activeEdges, tiles) y
    = Some (activeEdges', tiles') →
  ∀ p, p ∈ tiles' →
       p ∈ tiles ∨
       (pos_y p = y ∧ (2 <= length (filter (crossesRow poly y) all))%nat).
Proof.
  intros Hy Hactive. pose proof (active_filtered _ _ Hy Hactive) as Hfilter.
  apply Permutation_length in Hfilter. rewrite !length_fmap in Hfilter.
  destruct table_buckets as [Hlen Hb].
  unfold scanlineStep.
  rewrite (int_sub_rows minY maxY) by lia.
  destruct (Z.ltb_spec (y - minY) (Z.of_nat (length table))); [|lia].
  destruct (filter (λ e, yMax e ≠ y) _) as [|e l] eqn:Hf.
  - intros [= <- <-] p Hp. by left.
  - pose proof (Permutation_length (sortEdges_perm (e :: l))) as Hsorted.
    set (sorted := sortEdges (e :: l)) in *. clearbody sorted.
    destruct (fillPairs floor y sorted tiles) as [t|] eqn:Hfill; [|done].
    simpl. intros [= <- <-] p Hp.
    destruct (decide (length sorted < 2)%nat) as [Hshort|Hlong].
    + left. destruct sorted as [|e1 [|e2 rest]]; simpl in Hshort; try lia;
        simpl in Hfill; by injection Hfill as <-.
    + apply fillPairs_runs in Hfill as (runs & -> & Hrows).
      apply elem_of_app in Hp as [Hp|Hp]; [by left|]. right.
      apply list_elem_of_bind in Hp as (r & Hp & Hr).
      apply elem_of_runCells in Hp as [-> _].
      rewrite Forall_forall in Hrows. split; [by apply Hrows|]. lia.
Qed.

Lemma scanlineLoop_active floor n :
  ∀ y activeEdges tiles activeEdges' tiles',
    minY <= y → y + Z.of_nat n <= maxY →
    yMax <$> activeEdges ≡ₚ edgeTop poly <$> filter (entersRow poly y) all →
    scanlineLoop floor minY table (seqZ y (Z.of_nat (S n))) (activeEdges, tiles)
      = Some (activeEdges', tiles') →
    yMax <$> activeEdges'
    ≡ₚ edgeTop poly <$> filter (crossesRow poly (y + Z.of_nat n)) all.
Proof.
  induction n as [|n IH];
    intros y activeEdges tiles activeEdges' tiles' Hlo Hhi Hactive;
    rewrite seqZ_cons by lia; cbn [scanlineLoop];
    destruct (scanlineStep floor minY table (activeEdges, tiles) y)
      as [[activeEdges1 tiles1]|] eqn:Hstep; try done;
    apply scanlineStep_active in Hstep; try done; try lia;
    intros Hloop.
  - change (Some (activeEdges1, tiles1) = Some (activeEdges', tiles')) in Hloop.
    injection Hloop as <- <-. by rewrite Z.add_0_r.
  - change (scanlineLoop floor minY table
              (seqZ (Z.succ y) (Z.pred (Z.of_nat (S (S n)))))
              (activeEdges1, tiles1) = Some (activeEdges', tiles')) in Hloop.
    replace (Z.pred (Z.of_nat (S (S n)))) with (Z.of_nat (S n)) in Hloop by lia.
    apply IH in Hloop; [|lia|lia|].
    + by replace (Z.succ y + Z.of_nat n) with (y + Z.of_nat (S n)) in Hloop
        by lia.
    + rewrite Hstep.
      rewrite (list_filter_iff (crossesRow poly y) (entersRow poly (Z.succ y)));
        [done|].
      intros i. unfold entersRow, crossesRow. lia.
Qed.

(** A row gets one run for each pair of edges that cross it. *)
Lemma scanlineStep_runs_count floor activeEdges tiles y activeEdges' tiles' :
  minY <= y <= maxY →
  yMax <$> activeEdges ≡ₚ edgeTop poly <$> filter (entersRow poly y) all →
  scanlineStep floor minY table (activeEdges, tiles) y
    = Some (activeEdges', tiles') →
  ∃ runs,
    tiles' = tiles ++ (runs ≫= runCells floor) ∧
    Forall (λ r, runRow r = y) runs ∧
    length runs = (length (filter (crossesRow poly y) all) / 2)%nat.
Proof.
  intros Hy Hactive. pose proof (active_filtered _ _ Hy Hactive) as Hfilter.
  apply Permutation_length in Hfilter. rewrite !length_fmap in Hfilter.
  destruct table_buckets as [Hlen Hb].
  unfold scanlineStep.
  rewrite (int_sub_rows minY maxY) by lia.
  destruct (Z.ltb_spec (y - minY) (Z.of_nat (length table))); [|lia].
  destruct (filter (λ e, yMax e ≠ y) _) as [|e l] eqn:Hf.
  - intros [= <- <-]. exists []. split; [by rewrite app_nil_r|].
    split; [constructor|]. by rewrite <- Hfilter.
  - pose proof (Permutation_length (sortEdges_perm (e :: l))) as Hsorted.
    set (sorted := sortEdges (e :: l)) in *. clearbody sorted.
    destruct (fillPairs floor y sorted tiles) as [t|] eqn:Hfill; [|done].
    simpl. intros [= <- <-].
    apply fillPairs_runs_count in Hfill as (runs & -> & Hrows & Hcount).
    exists runs. split; [done|]. split; [done|].
    by rewrite Hcount, Hsorted, Hfilter.
Qed.

Lemma scanlineLoop_runs_count floor n :
  ∀ y activeEdges tiles st',
    minY <= y → y + Z.of_nat n - 1 <= maxY →
    yMax <$> activeEdges ≡ₚ edgeTop poly <$> filter (entersRow poly y) all →
    scanlineLoop floor minY table (seqZ y (Z.of_nat n)) (activeEdges, tiles)
      = Some st' →
    ∃ runs,
      snd st' = tiles ++ (runs ≫= runCells floor) ∧
      StronglySorted rowLe runs ∧
      Forall (λ r, y <= runRow r) runs ∧
      ∀ y', (length (filter (λ r, runRow r = y') runs)
             <= length (filter (crossesRow poly y') all) / 2)%nat.
Proof.
  induction n as [|n IH]; intros y activeEdges tiles st' Hlo Hhi Hactive.
  - intros [= <-]. exists []. split; [by rewrite app_nil_r|].
    split; [constructor|]. split; [constructor|]. intros y'. simpl. lia.
  - rewrite seqZ_cons by lia. cbn [scanlineLoop].
    destruct (scanlineStep floor minY table (activeEdges, tiles) y)
      as [[activeEdges1 tiles1]|] eqn:Hstep; [|done].
    intros Hloop.
    change (scanlineLoop floor minY table
              (seqZ (Z.succ y) (Z.pred (Z.of_nat (S n))))
              (activeEdges1, tiles1) = Some st') in Hloop.
    replace (Z.pred (Z.of_nat (S n))) with (Z.of_nat n) in Hloop by lia.
    assert (Hy : minY <= y <= maxY) by lia.
    destruct (scanlineStep_runs_count _ _ _ _ _ _ Hy Hactive Hstep)
      as (runs1 & -> & Hrows1 & Hcount1).
    apply scanlineStep_active in Hstep; [|done|done].
    assert (Hactive1 : yMax <$> activeEdges1
              ≡ₚ edgeTop poly <$> filter (entersRow poly (Z.succ y)) all).
    { rewrite Hstep.
      rewrite (list_filter_iff (crossesRow poly y) (entersRow poly (Z.succ y)));
        [done|].
      intros i. unfold entersRow, crossesRow. lia. }
    assert (Hlo1 : minY <= Z.succ y) by lia.
    assert (Hhi1 : Z.succ y + Z.of_nat n - 1 <= maxY) by lia.
    destruct (IH _ _ _ _ Hlo1 Hhi1 Hactive1 Hloop)
      as (runs2 & -> & Hsorted2 & Hrows2 & Hcount2).
    rewrite Forall_forall in Hrows1. rewrite Forall_forall in Hrows2.
    exists (runs1 ++ runs2). split; [by rewrite bind_app, app_assoc|].
    split; [|split].
    + apply StronglySorted_app_2; [| |done].
      * intros r1 r2 Hr1 Hr2. unfold rowLe.
        rewrite (Hrows1 r1 Hr1). specialize (Hrows2 r2 Hr2). lia.
      * clear -Hrows1. induction runs1 as [|r runs IH]; constructor.
        -- apply IH. intros r' Hr'. by apply Hrows1, list_elem_of_further.
        -- apply Forall_forall. intros r' Hr'. unfold rowLe.
           rewrite (Hrows1 r (list_elem_of_here _ _)),
                   (Hrows1 r' (list_elem_of_further _ _ _ Hr')). lia.
    + apply Forall_forall. intros r Hr.
      apply elem_of_app in Hr as [Hr|Hr];
        [rewrite (Hrows1 r Hr)|specialize (Hrows2 r Hr)]; lia.
    + intros y'. rewrite filter_app, length_app.
      destruct (decide (y' = y)) as [-> |Hne].
      * rewrite (filter_none (λ r, runRow r = y) runs2).
        -- pose proof (length_filter (λ r, runRow r = y) runs1).
           cbn [length]. lia.
        -- intros r Hr Heq. specialize (Hrows2 r Hr). lia.
      * rewrite (filter_none (λ r, runRow r = y') runs1).
        -- cbn [length Nat.add]. apply Hcount2.
        -- intros r Hr Heq. rewrite (Hrows1 r Hr) in Heq. done.
Qed.

Lemma scanlineLoop_cells floor n :
  ∀ y activeEdges tiles st',
    minY <= y → y + Z.of_nat n - 1 <= maxY →
    yMax <$> activeEdges ≡ₚ edgeTop poly <$> filter (entersRow poly y) all →
    scanlineLoop floor minY table (seqZ y (Z.of_nat n)) (activeEdges, tiles)
      = Some st' →
    ∀ p, p ∈ snd st' →
         p ∈ tiles ∨
         (2 <= length (filter (crossesRow poly (pos_y p)) all))%nat.
Proof.
  induction n as [|n IH]; intros y activeEdges tiles st' Hlo Hhi Hactive.
  - intros [= <-] p Hp. by left.
  - rewrite seqZ_cons by lia. cbn [scanlineLoop].
    destruct (scanlineStep floor minY table (activeEdges, tiles) y)
      as [[activeEdges1 tiles1]|] eqn:Hstep; [|done].
    intros Hloop p Hp.
    change (scanlineLoop floor minY table
              (seqZ (Z.succ y) (Z.pred (Z.of_nat (S n))))
              (activeEdges1, tiles1) = Some st') in Hloop.
    replace (Z.pred (Z.of_nat (S n))) with (Z.of_nat n) in Hloop by lia.
    assert (Hy : minY <= y <= maxY) by lia.
    pose proof (scanlineStep_cells _ _ _ _ _ _ Hy Hactive Hstep) as Hcells.
    apply scanlineStep_active in Hstep; [|done|done].
    assert (Hactive1 : yMax <$> activeEdges1
              ≡ₚ edgeTop poly <$> filter (entersRow poly (Z.succ y)) all).
    { rewrite Hstep.
      rewrite (list_filter_iff (crossesRow poly y) (entersRow poly (Z.succ y)));
        [done|].
      intros i. unfold entersRow, crossesRow. lia. }
    assert (Hlo1 : minY <= Z.succ y) by lia.
    assert (Hhi1 : Z.succ y + Z.of_nat n - 1 <= maxY) by lia.
    destruct (IH _ _ _ _ Hlo1 Hhi1 Hactive1 Hloop p Hp) as [Hp1|Hp1];
      [|by right].
    destruct (Hcells p Hp1) as [?|[-> ?]]; [by left|by right].
Qed.

End active_edges.

Lemma crossings_cons p q l y :
  length (crossings (p :: q :: l) y)
  = (length (filter (crossesRow [p; q] y) [0%nat])
     + length (crossings (q :: l) y))%nat.
Proof.
  unfold crossings.
  replace (length (p :: q :: l) - 1)%nat with (S (length l)) by (simpl; lia).
  replace (length (q :: l) - 1)%nat with (length l) by (simpl; lia).
  cbn [seq]. rewrite <- fmap_S_seq.
  rewrite (filter_cons _ 0%nat), (filter_cons _ 0%nat), filter_nil.
  change (decide (crossesRow (p :: q :: l) y 0))
    with (decide (crossesRow [p; q] y 0)).
  rewrite filter_fmap_comm.
  rewrite (list_filter_iff (λ a, crossesRow (p :: q :: l) y (S a))
                           (crossesRow (q :: l) y)) by done.
  destruct (decide (crossesRow [p; q] y 0)); simpl; by rewrite length_fmap.
Qed.

(** The number of edges of a path that cross a row is even exactly when
    the two ends of the path lie on the same side of the row. *)
Lemma crossings_even p l y :
  Nat.even (length (crossings (p :: l) y))
  = Bool.eqb (pt_y p <=? y) (pt_y (default p (last l)) <=? y).
Proof.
  revert p. induction l as [|q l IH]; intros p.
  - simpl. by rewrite Bool.eqb_reflx.
  - rewrite crossings_cons, Nat.even_add, IH.
    replace (default p (last (q :: l))) with (default q (last l))
      by (rewrite last_cons; by destruct (last l)).
    rewrite filter_cons, filter_nil.
    unfold crossesRow, edgeBottom, edgeTop.
    change ([p; q] !!! 0%nat) with p. change ([p; q] !!! (0 + 1)%nat) with q.
    destruct (decide _) as [Hc|Hc];
      destruct (Z.leb_spec (pt_y p) y), (Z.leb_spec (pt_y q) y),
               (Z.leb_spec (pt_y (default q (last l))) y);
      simpl; (done || lia).
Qed.

Lemma crossings_closed poly y :
  head poly = last poly → Nat.Even (length (crossings poly y)).
Proof.
  intros Hclosed. apply Nat.even_spec.
  destruct poly as [|p l]; [done|].
  rewrite crossings_even.
  replace (default p (last l)) with p; [by rewrite Bool.eqb_reflx|].
  rewrite last_cons in Hclosed. simpl in Hclosed.
  destruct (last l); simpl; congruence.
Qed.

(** X16: after the scanline loop of the fill has done a row [y] of the
    box, there is one active edge for each edge of the polygon that
    crosses the row (it starts on the row or below it and ends above
    it); for a closed polygon their number is even, so that the loop
    over pairs of active edges leaves no edge without a partner. *)
Theorem scanline_active_edges (floor : Z) (s : LassoSelection) (n : nat)
    (activeEdges : list LassoEdge) (tiles : list Position) :
  reachable s →
  int_range (minY (m_boundingBox s)) → int_range (maxY (m_boundingBox s)) →
  minY (m_boundingBox s) + Z.of_nat n <= maxY (m_boundingBox s) →
  scanlineState floor s (S n) = Some (activeEdges, tiles) →
  length activeEdges
  = length (crossings (polygon s) (minY (m_boundingBox s) + Z.of_nat n)) ∧
  (head (polygon s) = last (polygon s) → Nat.Even (length activeEdges)).
Proof.
  intros Hr Hlo Hhi Hn Hstate.
  destruct (reachable_session_inv s Hr) as [Hbox Hsub].
  assert (Hlen : length activeEdges
    = length (crossings (polygon s) (minY (m_boundingBox s) + Z.of_nat n))).
  { revert Hstate. unfold scanlineState.
    destruct (Nat.ltb_spec (length (polygon s)) 3) as [|Hpoly]; [done|].
    destruct (isValid (m_boundingBox s)) eqn:Hvalid; [|done].
    simpl negb. cbv iota. unfold isValid in Hvalid.
    apply andb_true_iff in Hvalid as [Hvalid Hy].
    apply andb_true_iff in Hvalid as [Hhas _]. apply Z.leb_le in Hy.
    destruct (Z.ltb_spec (int_add (int_sub (maxY (m_boundingBox s))
                                           (minY (m_boundingBox s))) 1) 0)
      as [|Hheight]; [done|].
    destruct (Z.eqb_spec (maxY (m_boundingBox s)) INT_MAX) as [|Hmax]; [done|].
    destruct (height_no_wrap _ _ Hlo Hhi Hy Hmax Hheight) as [HD Hh].
    rewrite Hh. intros Hloop.
    assert (Hrows : ∀ p, p ∈ polygon s →
              minY (m_boundingBox s) <= pt_y p <= maxY (m_boundingBox s)).
    { intros p Hp. apply polygon_subset in Hp; [|done].
      destruct Hbox as [[_ Hno]|[_ (Hall & _)]]; [congruence|].
      by apply Hall. }
    assert (Hseq : Forall (λ i, (i + 1 < length (polygon s))%nat)
                          (seq 0 (length (polygon s) - 1))).
    { apply Forall_forall. intros i Hi. apply elem_of_seq in Hi. lia. }
    assert (Htable : bucketsOf (polygon s) (minY (m_boundingBox s))
                       (maxY (m_boundingBox s))
                       (buildEdgeTable s
                          (replicate (Z.to_nat (maxY (m_boundingBox s)
                                                - minY (m_boundingBox s) + 1)) [])
                          (minY (m_boundingBox s)))
                       (seq 0 (length (polygon s) - 1))).
    { unfold buildEdgeTable.
      destruct (Nat.ltb_spec (length (polygon s)) 3); [lia|].
      apply (buildEdgeSteps_buckets _ _ _ HD Hrows _ _ [] Hseq).
      split; [by rewrite length_replicate|].
      rewrite length_replicate. intros j Hj.
      by rewrite lookup_total_replicate_2. }
    apply (scanlineLoop_active _ _ _ HD _ _ Htable) in Hloop;
      [|lia|lia|].
    - apply Permutation_length in Hloop. by rewrite !length_fmap in Hloop.
    - rewrite filter_none; [done|].
      intros i Hi. rewrite Forall_forall in Hseq.
      destruct (edge_rows _ _ _ Hrows i (Hseq i Hi)) as [? _].
      unfold entersRow. lia. }
  split; [done|]. intros Hclosed. rewrite Hlen. by apply crossings_closed.
Qed.

Lemma scanline_active_edges_witness :
  ∃ s activeEdges tiles,
    closedPolygon notch = Some s ∧
    scanlineState 0 s 2 = Some (activeEdges, tiles) ∧
    length activeEdges = 4%nat ∧ Nat.Even (length activeEdges).
Proof.
  destruct (closedPolygon notch) as [s|] eqn:Hs; [|by vm_compute in Hs].
  pose proof (closedPolygon_reachable _ _ Hs) as Hr.
  exists s. vm_compute in Hs. injection Hs as <-.
  match goal with
  | |- ∃ a t, _ ∧ scanlineState 0 ?s0 2 = _ ∧ _ =>
      destruct (scanlineState 0 s0 2) as [[activeEdges tiles]|] eqn:Hstate;
        [|by vm_compute in Hstate]
  end.
  exists activeEdges, tiles. split; [done|]. split; [done|].
  destruct (scanline_active_edges 0 _ 1 activeEdges tiles Hr)
    as [Hlen Heven];
    [vm_compute; split; discriminate|vm_compute; split; discriminate
    |vm_compute; discriminate|exact Hstate|].
  split; [rewrite Hlen; vm_compute; reflexivity|].
  apply Heven. vm_compute. reflexivity.
Defined.

(** The fill is the scanline loop run over all the rows of the box. *)
Lemma scanlineFillAET_scanlineState floor s :
  (3 <= length (polygon s))%nat → isValid (m_boundingBox s) = true →
  scanlineFillAET floor s []
  = snd <$> scanlineState floor s
              (Z.to_nat (maxY (m_boundingBox s) - minY (m_boundingBox s) + 1)).
Proof.
  intros Hn Hvalid. unfold scanlineFillAET, scanlineState. rewrite Hvalid.
  destruct (Nat.ltb_spec (length (polygon s)) 3); [lia|]. simpl negb. cbv iota.
  destruct (_ <? 0); [done|]. destruct (_ =? INT_MAX); [done|].
  unfold isValid in Hvalid. apply andb_true_iff in Hvalid as [_ Hy].
  apply Z.leb_le in Hy. unfold span. by rewrite Z2Nat.id by lia.
Qed.

(** ** The size reserved for the cells *)

(** X17: when the number of cells of a valid box fits in an [int], the
    estimate of [getTilesInPolygon] is that number, computed without
    wrap-around, so that [reserve] gets a size that is not negative and
    the result is that of [scanlineFillAET]. *)
Theorem getTilesInPolygon_estimate (floor : Z) (s : LassoSelection) :
  box_fits (m_boundingBox s) → isValid (m_boundingBox s) = true →
  int_mul (int_add (width (m_boundingBox s)) 1)
          (int_add (height (m_boundingBox s)) 1)
  = (maxX (m_boundingBox s) - minX (m_boundingBox s) + 1)
    * (maxY (m_boundingBox s) - minY (m_boundingBox s) + 1) ∧
  getTilesInPolygon floor s
  = if negb (m_closed s) || (length (m_path s) <? 3)%nat then Some []
    else scanlineFillAET floor s [].
Proof.
  intros (Hx0 & Hx1 & Hy0 & Hy1 & Harea) Hvalid.
  pose proof Hvalid as Hvalid'. unfold isValid in Hvalid'.
  apply andb_true_iff in Hvalid' as [Hvalid' Hy].
  apply andb_true_iff in Hvalid' as [Hhas Hx].
  apply Z.leb_le in Hx, Hy.
  set (W := maxX (m_boundingBox s) - minX (m_boundingBox s)) in *.
  set (H := maxY (m_boundingBox s) - minY (m_boundingBox s)) in *.
  unfold int_range, INT_MIN, INT_MAX in *.
  assert (HW : 0 <= W) by (unfold W; lia).
  assert (HH : 0 <= H) by (unfold H; lia).
  assert (HWb : W + 1 <= (W + 1) * (H + 1)) by nia.
  assert (HHb : H + 1 <= (W + 1) * (H + 1)) by nia.
  assert (Hest : int_mul (int_add (width (m_boundingBox s)) 1)
                         (int_add (height (m_boundingBox s)) 1)
                 = (W + 1) * (H + 1)).
  { unfold width, height. rewrite Hhas. unfold int_mul, int_add, int_sub.
    fold W H.
    rewrite (int_wrap_id W) by (unfold int_range, INT_MIN, INT_MAX; lia).
    rewrite (int_wrap_id H) by (unfold int_range, INT_MIN, INT_MAX; lia).
    rewrite (int_wrap_id (W + 1)) by (unfold int_range, INT_MIN, INT_MAX; lia).
    rewrite (int_wrap_id (H + 1)) by (unfold int_range, INT_MIN, INT_MAX; lia).
    apply int_wrap_id. unfold int_range, INT_MIN, INT_MAX. lia. }
  split; [exact Hest|].
  unfold getTilesInPolygon. destruct (_ || _); [done|].
  rewrite Hvalid, Hest. unfold int_div.
  assert (Hq : 0 <= (W + 1) * (H + 1) ÷ 2 <= (W + 1) * (H + 1)).
  { split; [apply Z.quot_pos; lia|]. apply Z.quot_le_upper_bound; lia. }
  rewrite int_wrap_id by (unfold int_range, INT_MIN, INT_MAX; lia).
  by destruct (Z.leb_spec 0 ((W + 1) * (H + 1) ÷ 2)); [|lia].
Qed.

Lemma getTilesInPolygon_estimate_witness :
  ∃ s, closedPolygon square3 = Some s ∧
       getTilesInPolygon 0 s = scanlineFillAET 0 s [].
Proof.
  eexists. split; [exact square3_session|].
  refine (proj2 (getTilesInPolygon_estimate 0 _ _ _)).
  - repeat split; vm_compute; discriminate.
  - reflexivity.
Defined.

(** ** The rows that get cells *)

(** What the scanline loop of a session starts from: a table with the
    non-horizontal edges of the polygon, each under the row it starts
    on, and no active edge. *)
Lemma scanline_setup s :
  session_inv s →
  int_range (minY (m_boundingBox s)) → int_range (maxY (m_boundingBox s)) →
  (3 <= length (polygon s))%nat → isValid (m_boundingBox s) = true →
  maxY (m_boundingBox s) ≠ INT_MAX →
  0 <= int_add (int_sub (maxY (m_boundingBox s)) (minY (m_boundingBox s))) 1 →
  maxY (m_boundingBox s) - minY (m_boundingBox s) <= 2147483646 ∧
  int_add (int_sub (maxY (m_boundingBox s)) (minY (m_boundingBox s))) 1
  = maxY (m_boundingBox s) - minY (m_boundingBox s) + 1 ∧
  bucketsOf (polygon s) (minY (m_boundingBox s)) (maxY (m_boundingBox s))
    (buildEdgeTable s
       (replicate (Z.to_nat (maxY (m_boundingBox s)
                             - minY (m_boundingBox s) + 1)) [])
       (minY (m_boundingBox s)))
    (seq 0 (length (polygon s) - 1)) ∧
  filter (entersRow (polygon s) (minY (m_boundingBox s)))
         (seq 0 (length (polygon s) - 1)) = [].
Proof.
  intros [Hbox Hsub] Hlo Hhi Hpoly Hvalid Hmax Hheight.
  unfold isValid in Hvalid.
  apply andb_true_iff in Hvalid as [Hvalid Hy].
  apply andb_true_iff in Hvalid as [Hhas _]. apply Z.leb_le in Hy.
  destruct (height_no_wrap _ _ Hlo Hhi Hy Hmax Hheight) as [HD Hh].
  assert (Hrows : ∀ p, p ∈ polygon s →
            minY (m_boundingBox s) <= pt_y p <= maxY (m_boundingBox s)).
  { intros p Hp. apply polygon_subset in Hp; [|done].
    destruct Hbox as [[_ Hno]|[_ (Hall & _)]]; [congruence|].
    by apply Hall. }
  assert (Hseq : Forall (λ i, (i + 1 < length (polygon s))%nat)
                        (seq 0 (length (polygon s) - 1))).
  { apply Forall_forall. intros i Hi. apply elem_of_seq in Hi. lia. }
  split; [done|]. split; [done|]. split.
  - unfold buildEdgeTable.
    destruct (Nat.ltb_spec (length (polygon s)) 3); [lia|].
    apply (buildEdgeSteps_buckets _ _ _ HD Hrows _ _ [] Hseq).
    split; [by rewrite length_replicate|].
    rewrite length_replicate. intros j Hj.
    by rewrite lookup_total_replicate_2.
  - apply filter_none. intros i Hi. rewrite Forall_forall in Hseq.
    destruct (edge_rows _ _ _ Hrows i (Hseq i Hi)) as [? _].
    unfold entersRow. lia.
Qed.

(** X18: the fill produces cells only on rows the polygon reaches: in
    every session a client can build, with the rows of the box in the
    range of [int], the row of every cell [getTilesInPolygon] returns is
    crossed by two edges of the polygon at least. *)
Theorem getTilesInPolygon_crossed_rows (floor : Z) (s : LassoSelection)
    (tiles : list Position) :
  reachable s →
  int_range (minY (m_boundingBox s)) → int_range (maxY (m_boundingBox s)) →
  getTilesInPolygon floor s = Some tiles →
  ∀ p, p ∈ tiles → (2 <= length (crossings (polygon s) (pos_y p)))%nat.
Proof.
  intros Hr Hlo Hhi. unfold getTilesInPolygon.
  destruct (negb (m_closed s) || (length (m_path s) <? 3)%nat).
  { intros [= <-] p Hp. by apply elem_of_nil in Hp. }
  destruct (if isValid (m_boundingBox s) then _ else true); [|done].
  unfold scanlineFillAET.
  destruct (Nat.ltb_spec (length (polygon s)) 3) as [|Hpoly].
  { intros [= <-] p Hp. by apply elem_of_nil in Hp. }
  destruct (isValid (m_boundingBox s)) eqn:Hvalid;
    [|intros [= <-] p Hp; by apply elem_of_nil in Hp].
  simpl negb. cbv iota.
  destruct (Z.ltb_spec (int_add (int_sub (maxY (m_boundingBox s))
                                         (minY (m_boundingBox s))) 1) 0)
    as [|Hheight]; [done|].
  destruct (Z.eqb_spec (maxY (m_boundingBox s)) INT_MAX) as [|Hmax]; [done|].
  destruct (scanline_setup s (reachable_session_inv s Hr) Hlo Hhi Hpoly Hvalid
              Hmax Hheight) as (HD & Hh & Htable & Hinit).
  rewrite Hh. unfold span.
  unfold isValid in Hvalid. apply andb_true_iff in Hvalid as [_ Hy].
  apply Z.leb_le in Hy.
  rewrite <- (Z2Nat.id (_ - _ + 1)) by lia.
  rewrite (Z2Nat.id (_ - _ + 1)) at 1 by lia.
  destruct (scanlineLoop _ _ _ _ _) as [st'|] eqn:Hloop; [|done].
  simpl. intros [= <-] p Hp.
  eapply (scanlineLoop_cells _ _ _ HD _ _ Htable) in Hloop;
    [|lia|lia|by rewrite Hinit|exact Hp].
  destruct Hloop as [Hnil|Hc]; [by apply elem_of_nil in Hnil|done].
Qed.

Lemma getTilesInPolygon_crossed_rows_witness :
  ∃ s, closedPolygon square3 = Some s ∧
       (2 <= length (crossings (polygon s) 1))%nat.
Proof.
  eexists. split; [exact square3_session|].
  pose proof (closedPolygon_reachable _ _ square3_session) as Hr.
  refine (getTilesInPolygon_crossed_rows 0 _ (grid 0 3 0 2 0) Hr _ _ _
            (mkPosition 2 1 0) _).
  - vm_compute. split; discriminate.
  - vm_compute. split; discriminate.
  - vm_compute. reflexivity.
  - refine (bool_decide_unpack _ _). vm_compute. exact I.
Defined.

(** ** The order of the columns *)

Lemma digits2_pos_bounds m :
  2 ^ (Z.pos (digits2_pos m) - 1) <= Z.pos m < 2 ^ Z.pos (digits2_pos m).
Proof.
  induction m as [m IH|m IH|]; simpl digits2_pos.
  - rewrite Pos2Z.inj_succ.
    replace (Z.succ (Z.pos (digits2_pos m)) - 1) with (Z.succ (Z.pos (digits2_pos m) - 1)) by lia.
    rewrite !Z.pow_succ_r by lia. lia.
  - rewrite Pos2Z.inj_succ.
    replace (Z.succ (Z.pos (digits2_pos m)) - 1) with (Z.succ (Z.pos (digits2_pos m) - 1)) by lia.
    rewrite !Z.pow_succ_r by lia. lia.
  - simpl. lia.
Qed.

Lemma bounded_mantissa m e :
  bounded prec emax m e = true →
  -1074 <= e ∧ Z.pos m < 2 ^ 53 ∧ (-1074 < e → 2 ^ 52 <= Z.pos m).
Proof.
  unfold bounded, canonical_mantissa, fexp, emin, prec, emax.
  intros [Hc _]%andb_true_iff. apply Z.eqb_eq in Hc.
  pose proof (digits2_pos_bounds m) as [Hlo Hhi].
  set (d := Z.pos (digits2_pos m)) in *.
  assert (Hd : d <= 53) by lia.
  split; [lia|]. split.
  - apply (Z.lt_le_trans _ _ _ Hhi). apply Z.pow_le_mono_r; lia.
  - intros He. assert (d = 53) as Hd53 by lia. rewrite Hd53 in Hlo. exact Hlo.
Qed.

Lemma shiftl_le_mono a b k : a <= b → Z.shiftl a k <= Z.shiftl b k.
Proof.
  intros Hab. destruct (Z.le_gt_cases 0 k) as [Hk|Hk].
  - rewrite !Z.shiftl_mul_pow2 by done.
    apply Z.mul_le_mono_nonneg_r; [apply Z.pow_nonneg|]; lia.
  - rewrite !Z.shiftl_div_pow2 by lia.
    apply Z.div_le_mono; [apply Z.pow_pos_nonneg|]; lia.
Qed.

Lemma shiftl_floor_ceil a k : Z.shiftl a k <= - Z.shiftl (- a) k.
Proof.
  destruct (Z.le_gt_cases 0 k) as [Hk|Hk].
  - rewrite !Z.shiftl_mul_pow2 by done. lia.
  - rewrite !Z.shiftl_div_pow2 by lia.
    assert (Hp : 0 < 2 ^ (- k)) by (apply Z.pow_pos_nonneg; lia).
    set (d := 2 ^ (- k)) in *.
    pose proof (Z.div_mod a d ltac:(lia)). pose proof (Z.mod_pos_bound a d Hp).
    pose proof (Z.div_mod (- a) d ltac:(lia)). pose proof (Z.mod_pos_bound (- a) d Hp).
    nia.
Qed.

(** For two doubles in canonical form, the first not above the second
    in exponent and mantissa, the floor of the first is at most the
    ceiling of the second. *)
Lemma magnitude_floor_ceil m1 e1 m2 e2 :
  bounded prec emax m1 e1 = true → bounded prec emax m2 e2 = true →
  e1 < e2 ∨ (e1 = e2 ∧ (m1 <= m2)%positive) →
  Z.shiftl (Z.pos m1) e1 <= - Z.shiftl (Z.neg m2) e2.
Proof.
  intros H1 H2 Hle.
  apply bounded_mantissa in H1 as (He1 & Hm1 & _).
  apply bounded_mantissa in H2 as (He2 & _ & Hm2).
  change (Z.neg m2) with (- Z.pos m2).
  etransitivity; [|apply shiftl_floor_ceil].
  destruct Hle as [Hlt|[-> Hm]].
  - replace e2 with ((e2 - e1) + e1) by lia.
    rewrite <- Z.shiftl_shiftl by lia. apply shiftl_le_mono.
    rewrite Z.shiftl_mul_pow2 by lia.
    assert (2 ^ 1 <= 2 ^ (e2 - e1)) by (apply Z.pow_le_mono_r; lia).
    specialize (Hm2 ltac:(lia)).
    change (2 ^ 53) with (2 ^ 52 * 2 ^ 1) in Hm1. nia.
  - apply shiftl_le_mono. lia.
Qed.

Lemma SF_floor_le_ceil x y lo hi :
  valid_binary x = true → valid_binary y = true →
  SFleb x y = true →
  SF_floor x = Some lo → SF_ceil y = Some hi → lo <= hi.
Proof.
  assert (Hneg : ∀ m e, Z.shiftl (Z.neg m) e <= 0).
  { intros m e. rewrite <- (Z.shiftl_0_l e). apply shiftl_le_mono. lia. }
  intros Hx Hy Hle Hlo Hhi.
  destruct x as [sx|sx| |sx mx ex], y as [sy|sy| |sy my ey];
    simpl in Hlo, Hhi; try done;
    injection Hlo as <-; injection Hhi as <-.
  - lia.
  - unfold SFleb, SFcompare in Hle. destruct sy; [done|].
    pose proof (Hneg my ey). lia.
  - unfold SFleb, SFcompare in Hle. destruct sx; [|done]. apply Hneg.
  - simpl in Hx, Hy. unfold SFleb, SFcompare in Hle.
    destruct sx, sy; try done.
    + destruct (Z.compare_spec ex ey) as [-> |Hlt|Hgt]; try done.
      * change (Pos.compare_cont Eq mx my) with (Pos.compare mx my) in Hle.
        pose proof (magnitude_floor_ceil my ey mx ey Hy Hx) as H.
        change (Z.neg mx) with (- Z.pos mx) in *.
        destruct (Pos.compare_spec mx my) as [-> |Hm|Hm]; simpl in Hle; try done.
        -- specialize (H ltac:(right; split; [done|lia])). simpl in H. lia.
        -- specialize (H ltac:(right; split; [done|lia])). simpl in H. lia.
      * pose proof (magnitude_floor_ceil my ey mx ex Hy Hx ltac:(left; lia)) as H.
        lia.
    + pose proof (Hneg mx ex). pose proof (Hneg my ey). lia.
    + destruct (Z.compare_spec ex ey) as [-> |Hlt|Hgt]; try done.
      * change (Pos.compare_cont Eq mx my) with (Pos.compare mx my) in Hle.
        apply magnitude_floor_ceil; [done|done|]. right. split; [done|].
        destruct (Pos.compare_spec mx my) as [-> |Hm|Hm]; try done; lia.
      * apply magnitude_floor_ceil; [done|done|]. by left.
Qed.

Lemma edgeFits_ordered e : edgeFits e = true → fordered (edge_x e).
Proof.
  unfold edgeFits, fordered. rewrite FloatAxioms.eqb_spec.
  destruct (Prim2SF (edge_x e)) as [[]|[]| |[] m ex]; simpl; try done;
    intros _; unfold SFeqb, SFcompare; rewrite Z.compare_refl;
    change (Pos.compare_cont Eq m m) with (Pos.compare m m);
    by rewrite Pos.compare_refl.
Qed.

Lemma int_floor_le_ceil a b :
  fordered (edge_x a) → edgeFits b = true → xLe a b →
  int_floor (edge_x a) <= int_ceil (edge_x b).
Proof.
  intros Ha Hb Hle. pose proof (edgeFits_ordered b Hb) as Hbo.
  pose proof (not_flt_fle _ _ Hle Hbo Ha) as Hleb.
  rewrite FloatAxioms.leb_spec in Hleb.
  unfold edgeFits in Hb. unfold int_floor, int_ceil.
  destruct (SF_ceil (Prim2SF (edge_x b))) as [hi|] eqn:Hhi; [|done].
  apply andb_true_iff in Hb as [H1 H2]. apply Z.leb_le in H1, H2.
  unfold int_of_integral at 2.
  destruct (Z.leb_spec INT_MIN hi); [|lia]. destruct (Z.leb_spec hi INT_MAX); [|lia].
  cbn [andb].
  destruct (SF_floor (Prim2SF (edge_x a))) as [lo|] eqn:Hlo; simpl; [|done].
  destruct (Z.leb_spec INT_MIN lo), (Z.leb_spec lo INT_MAX); simpl; try done.
  eapply SF_floor_le_ceil; [| |exact Hleb|exact Hlo|exact Hhi];
    apply FloatAxioms.Prim2SF_valid.
Qed.

Lemma xLe_trans a b c : fordered (edge_x b) → xLe a b → xLe b c → xLe a c.
Proof.
  unfold xLe. intros Hb Hab Hbc Hca.
  destruct (flt_cotrans _ (edge_x b) _ Hca Hb); done.
Qed.

Lemma insertEdge_sorted e l :
  fordered (edge_x e) → Forall (λ a, fordered (edge_x a)) l →
  StronglySorted xLe l → StronglySorted xLe (insertEdge e l).
Proof.
  intros He Hl Hs. induction Hs as [|a l Hs IH Ha]; simpl.
  - repeat constructor.
  - apply Forall_cons in Hl as [Hao Hl].
    destruct (edge_x a <? edge_x e)%float eqn:Hlt.
    + constructor; [by apply IH|].
      apply Forall_forall. intros z Hz. apply elem_of_insertEdge in Hz as [-> |Hz].
      * unfold xLe. by apply flt_asym.
      * rewrite Forall_forall in Ha. by apply Ha.
    + assert (Hea : xLe e a) by (unfold xLe, flt; by rewrite Hlt).
      constructor; [by constructor|].
      constructor; [done|]. apply Forall_forall. intros z Hz.
      rewrite Forall_forall in Ha. eapply xLe_trans; [exact Hao|done|by apply Ha].
Qed.

Lemma sortEdges_sorted l :
  Forall (λ a, fordered (edge_x a)) l → StronglySorted xLe (sortEdges l).
Proof.
  unfold sortEdges. induction 1 as [|a l Ha Hl IH]; [constructor|].
  cbn [foldr]. apply insertEdge_sorted; [done| |done].
  apply Forall_forall. intros z Hz. fold (sortEdges l) in Hz.
  apply (proj1 (elem_of_sortEdges _ _)) in Hz.
  rewrite Forall_forall in Hl. by apply Hl.
Qed.

Lemma elem_of_pairRuns y edges r :
  r ∈ pairRuns y edges →
  ∃ e1 e2 l1 l2, edges = l1 ++ e1 :: e2 :: l2 ∧
    r = (y, int_ceil (edge_x e1), int_floor (edge_x e2)).
Proof.
  induction edges as [|e|e1 e2 rest IH] using list_pair_ind; try by intros ?%elem_of_nil.
  simpl. intros [-> |Hr]%elem_of_cons.
  - by exists e1, e2, [], rest.
  - destruct (IH Hr) as (a & b & l1 & l2 & -> & ->).
    by exists a, b, (e1 :: e2 :: l1), l2.
Qed.

Lemma pairRuns_sorted y edges :
  forallb edgeFits edges = true → StronglySorted xLe edges →
  StronglySorted runBefore (pairRuns y edges).
Proof.
  induction edges as [|e|e1 e2 rest IH] using list_pair_ind; intros Hfit Hs;
    try constructor.
  - apply IH.
    + simpl in Hfit. by repeat (apply andb_true_iff in Hfit as [_ Hfit]).
    + by do 2 apply StronglySorted_inv in Hs as [Hs _].
  - apply Forall_forall. intros r Hr.
    apply elem_of_pairRuns in Hr as (a & b & l1 & l2 & -> & ->).
    right. split; [done|]. simpl.
    simpl in Hfit. apply andb_true_iff in Hfit as [_ Hfit].
    apply andb_true_iff in Hfit as [H2 Hfit].
    rewrite forallb_app in Hfit. apply andb_true_iff in Hfit as [_ Hfit].
    simpl in Hfit. apply andb_true_iff in Hfit as [Ha _].
    apply int_floor_le_ceil; [by apply edgeFits_ordered|done|].
    apply StronglySorted_inv in Hs as [Hs _].
    apply StronglySorted_inv in Hs as [_ Hs].
    rewrite Forall_forall in Hs. apply Hs.
    apply elem_of_app. right. apply list_elem_of_here.
Qed.

Lemma fillPairs_pairRuns floor y edges tiles tiles' :
  fillPairs floor y edges tiles = Some tiles' →
  tiles' = tiles ++ (pairRuns y edges ≫= runCells floor).
Proof.
  revert tiles. induction edges as [|e|e1 e2 rest IH] using list_pair_ind;
    intros tiles.
  - intros [= <-]. by rewrite app_nil_r.
  - intros [= <-]. by rewrite app_nil_r.
  - simpl fillPairs. destruct (int_floor (edge_x e2) =? INT_MAX); [done|].
    intros Hfill. apply IH in Hfill as ->. by rewrite <- app_assoc.
Qed.

Lemma runCells_sorted floor runs :
  StronglySorted runBefore runs → StronglySorted cellLe (runs ≫= runCells floor).
Proof.
  induction 1 as [|r runs Hs IH Hr]; [constructor|].
  change ((r :: runs) ≫= runCells floor)
    with (runCells floor r ++ (runs ≫= runCells floor)).
  apply StronglySorted_app_2; [| |done].
  - intros p q Hp Hq. apply list_elem_of_bind in Hq as (r2 & Hq & Hr2).
    rewrite Forall_forall in Hr. specialize (Hr r2 Hr2).
    destruct r as [[y lo] hi], r2 as [[y2 lo2] hi2]. unfold runCells in Hp, Hq.
    apply list_elem_of_fmap in Hp as (x & -> & Hx).
    apply list_elem_of_fmap in Hq as (x2 & -> & Hx2).
    unfold span in Hx, Hx2. apply elem_of_seqZ in Hx, Hx2.
    unfold runBefore, runRow in Hr. unfold cellLe. simpl in *. lia.
  - destruct r as [[y lo] hi]. unfold runCells, span.
    generalize (hi - lo + 1). intros n.
    destruct (Z.le_gt_cases n 0) as [Hn|Hn]; [rewrite seqZ_nil by done; constructor|].
    rewrite <- (Z2Nat.id n) by lia. generalize (Z.to_nat n). clear. intros k.
    revert lo. induction k as [|k IH]; intros lo; [constructor|].
    rewrite seqZ_cons by lia. rewrite fmap_cons. constructor.
    + replace (Z.pred (Z.of_nat (S k))) with (Z.of_nat k) by lia. apply IH.
    + apply Forall_forall. intros p Hp.
      apply list_elem_of_fmap in Hp as (x & -> & Hx). apply elem_of_seqZ in Hx.
      unfold cellLe. simpl. lia.
Qed.

Lemma scanlineStep_rowEdges floor minY table activeEdges tiles y :
  scanlineStep floor minY table (activeEdges, tiles) y
  = (tiles' ← fillPairs floor y (rowEdges minY table activeEdges y) tiles;
     Some (advanceEdge <$> rowEdges minY table activeEdges y, tiles')).
Proof.
  unfold scanlineStep, rowEdges. by destruct (filter _ _).
Qed.

Lemma scanlineLoop_ordered floor minY table n :
  ∀ y activeEdges tiles st',
    scanlineLoop floor minY table (seqZ y (Z.of_nat n)) (activeEdges, tiles)
      = Some st' →
    (∀ j edges_j tiles_j, (j < n)%nat →
       scanlineLoop floor minY table (seqZ y (Z.of_nat j)) (activeEdges, tiles)
         = Some (edges_j, tiles_j) →
       forallb edgeFits (rowEdges minY table edges_j (y + Z.of_nat j)) = true) →
    ∃ runs,
      snd st' = tiles ++ (runs ≫= runCells floor) ∧
      StronglySorted runBefore runs ∧
      Forall (λ r, y <= runRow r) runs.
Proof.
  induction n as [|n IH]; intros y activeEdges tiles st'.
  - intros [= <-] _. exists []. split; [by rewrite app_nil_r|].
    split; constructor.
  - rewrite seqZ_cons by lia. cbn [scanlineLoop].
    replace (Z.pred (Z.of_nat (S n))) with (Z.of_nat n) by lia.
    destruct (scanlineStep floor minY table (activeEdges, tiles) y)
      as [[activeEdges1 tiles1]|] eqn:Hstep; [|done].
    intros Hloop Hfit.
    change (scanlineLoop floor minY table (seqZ (Z.succ y) (Z.of_nat n))
              (activeEdges1, tiles1) = Some st') in Hloop.
    pose proof (Hfit 0%nat activeEdges tiles ltac:(lia) eq_refl) as Hfit0.
    rewrite Z.add_0_r in Hfit0.
    rewrite scanlineStep_rowEdges in Hstep.
    set (edges := rowEdges minY table activeEdges y) in *.
    destruct (fillPairs floor y edges tiles) as [t|] eqn:Hfill; [|done].
    simpl in Hstep. injection Hstep as <- <-.
    pose proof (fillPairs_pairRuns _ _ _ _ _ Hfill) as ->.
    assert (Hsorted : StronglySorted xLe edges).
    { unfold edges, rowEdges. apply sortEdges_sorted.
      apply Forall_forall. intros e He. apply edgeFits_ordered.
      apply (proj2 (elem_of_sortEdges _ _)) in He.
      fold (rowEdges minY table activeEdges y) in He. fold edges in He.
      rewrite forallb_forall in Hfit0. apply Hfit0.
      by apply list_elem_of_In. }
    destruct (IH _ _ _ _ Hloop) as (runs2 & -> & Hs2 & Hrows2).
    { intros j edges_j tiles_j Hj Hprefix.
      replace (Z.succ y + Z.of_nat j) with (y + Z.of_nat (S j)) by lia.
      apply (Hfit (S j) edges_j tiles_j ltac:(lia)).
      rewrite seqZ_cons by lia. cbn [scanlineLoop].
      replace (Z.pred (Z.of_nat (S j))) with (Z.of_nat j) by lia.
      rewrite scanlineStep_rowEdges. fold edges.
      rewrite Hfill. exact Hprefix. }
    exists (pairRuns y edges ++ runs2).
    split; [by rewrite bind_app, app_assoc|]. split.
    + apply StronglySorted_app_2; [|by apply pairRuns_sorted|done].
      intros r1 r2 Hr1 Hr2.
      apply elem_of_pairRuns in Hr1 as (a & b & l1 & l2 & _ & ->).
      rewrite Forall_forall in Hrows2. specialize (Hrows2 r2 Hr2).
      left. unfold runRow in *. simpl. lia.
    + apply Forall_app. split.
      * apply Forall_forall. intros r Hr.
        apply elem_of_pairRuns in Hr as (a & b & l1 & l2 & _ & ->).
        unfold runRow. simpl. lia.
      * eapply Forall_impl; [exact Hrows2|]. intros r Hr. simpl in Hr. lia.
Qed.

(** ** Repeated cells (C3) *)

Lemma NoDup_occurrences p tiles : NoDup tiles → (occurrences p tiles <= 1)%nat.
Proof.
  unfold occurrences. induction 1 as [|q tiles Hq _ IH]; [simpl; lia|].
  rewrite filter_cons. destruct (decide (q = p)) as [-> |]; [|done].
  rewrite filter_none; [simpl; lia|]. by intros q Hq' ->.
Qed.

Lemma occurrences_NoDup tiles :
  (∀ p, (occurrences p tiles <= 1)%nat) → NoDup tiles.
Proof.
  unfold occurrences. induction tiles as [|q tiles IH]; intros Hocc;
    [constructor|].
  constructor.
  - intros Hq. specialize (Hocc q). rewrite filter_cons_True in Hocc by done.
    assert (Hpos : (0 < length (filter (λ q', q' = q) tiles))%nat).
    { destruct (filter (λ q', q' = q) tiles) as [|a l] eqn:Hf; [|simpl; lia].
      by apply (filter_nil_not_elem_of _ _ q) in Hf. }
    simpl in Hocc. lia.
  - apply IH. intros p. specialize (Hocc p). rewrite filter_cons in Hocc.
    destruct (decide (q = p)); simpl in Hocc; lia.
Qed.

(** A cell occurs in the cells of a list of runs no more often than
    there are runs on its row. *)
Lemma occurrences_runs floor p runs :
  (occurrences p (runs ≫= runCells floor)
   <= length (filter (λ r, runRow r = pos_y p) runs))%nat.
Proof.
  unfold occurrences. induction runs as [|r runs IH]; [done|].
  change ((r :: runs) ≫= runCells floor)
    with (runCells floor r ++ (runs ≫= runCells floor)).
  rewrite filter_app, length_app, (filter_cons _ r).
  destruct (decide (runRow r = pos_y p)) as [Hrow|Hrow].
  - pose proof (NoDup_occurrences p _ (runCells_NoDup floor r)) as H1.
    unfold occurrences in H1. cbn [length]. lia.
  - rewrite (filter_none (λ q, q = p) (runCells floor r)); [done|].
    intros q Hq ->. by apply elem_of_runCells in Hq as [? _].
Qed.

(** What a fill that returns cells has gone through: the guards of
    [scanlineFillAET] and its scanline loop. *)
Lemma getTilesInPolygon_loop floor s tiles :
  getTilesInPolygon floor s = Some tiles →
  tiles = [] ∨
  ((3 <= length (polygon s))%nat ∧ isValid (m_boundingBox s) = true ∧
   0 <= int_add (int_sub (maxY (m_boundingBox s)) (minY (m_boundingBox s))) 1 ∧
   maxY (m_boundingBox s) ≠ INT_MAX ∧
   ∃ st',
     scanlineLoop floor (minY (m_boundingBox s))
       (buildEdgeTable s
          (replicate (Z.to_nat (int_add (int_sub (maxY (m_boundingBox s))
                                                 (minY (m_boundingBox s))) 1)) [])
          (minY (m_boundingBox s)))
       (span (minY (m_boundingBox s)) (maxY (m_boundingBox s))) ([], [])
     = Some st' ∧
     tiles = snd st').
Proof.
  unfold getTilesInPolygon.
  destruct (negb (m_closed s) || (length (m_path s) <? 3)%nat);
    [intros [= <-]; by left|].
  destruct (if isValid (m_boundingBox s) then _ else true); [|done].
  unfold scanlineFillAET.
  destruct (Nat.ltb_spec (length (polygon s)) 3) as [|Hpoly];
    [intros [= <-]; by left|].
  destruct (isValid (m_boundingBox s)) eqn:Hvalid; [|intros [= <-]; by left].
  simpl negb. cbv iota.
  destruct (Z.ltb_spec (int_add (int_sub (maxY (m_boundingBox s))
                                         (minY (m_boundingBox s))) 1) 0)
    as [|Hheight]; [done|].
  destruct (Z.eqb_spec (maxY (m_boundingBox s)) INT_MAX) as [|Hmax]; [done|].
  destruct (scanlineLoop _ _ _ _ _) as [st'|] eqn:Hloop; [|done].
  simpl. intros [= <-]. right. repeat (split; [done|]). by exists st'.
Qed.

(** C3, amended: in every session a client can build, with the rows of
    the box in the range of [int], the cells [getTilesInPolygon] returns
    are those of a sequence of runs of consecutive columns, in
    nondecreasing row order, with at most one run on a row for each pair
    of edges of the polygon that cross the row. A cell [(x, y, floor)]
    therefore occurs at most [c / 2] times, [c] being the number of
    edges that cross the row [y], and no cell is repeated when no row is
    crossed by more than 3 edges. When moreover the [x] of the edges
    paired on each row are numbers whose ceilings are [int]s, a run ends
    no later than the next run of its row begins, and the cells come in
    row-major order with columns that do not decrease: a cell is
    repeated only where a run ends on the column on which a later run
    of the row begins. *)
Theorem getTilesInPolygon_cell_multiplicity (floor : Z) (s : LassoSelection)
    (tiles : list Position) :
  reachable s →
  int_range (minY (m_boundingBox s)) → int_range (maxY (m_boundingBox s)) →
  getTilesInPolygon floor s = Some tiles →
  (∃ runs,
     tiles = runs ≫= runCells floor ∧
     StronglySorted rowLe runs ∧
     ∀ y, (length (filter (λ r, runRow r = y) runs)
           <= length (crossings (polygon s) y) / 2)%nat) ∧
  (∀ p, (occurrences p tiles
         <= length (crossings (polygon s) (pos_y p)) / 2)%nat) ∧
  ((∀ y, (length (crossings (polygon s) y) <= 3)%nat) → NoDup tiles) ∧
  (rowsFit floor s →
   (∃ runs, tiles = runs ≫= runCells floor ∧ StronglySorted runBefore runs) ∧
   StronglySorted cellLe tiles).
Proof.
  intros Hr Hlo Hhi Hfill.
  apply getTilesInPolygon_loop in Hfill.
  assert (Hruns : ∃ runs,
            tiles = runs ≫= runCells floor ∧
            StronglySorted rowLe runs ∧
            ∀ y, (length (filter (λ r, runRow r = y) runs)
                  <= length (crossings (polygon s) y) / 2)%nat).
  { destruct Hfill as [-> |(Hpoly & Hvalid & Hheight & Hmax & st' & Hloop & ->)].
    { exists []. split; [done|]. split; [constructor|]. intros y. simpl. lia. }
    destruct (scanline_setup s (reachable_session_inv s Hr) Hlo Hhi Hpoly Hvalid
                Hmax Hheight) as (HD & Hh & Htable & Hinit).
    rewrite Hh in Hloop. unfold span in Hloop.
    unfold isValid in Hvalid. apply andb_true_iff in Hvalid as [_ Hy].
    apply Z.leb_le in Hy.
    rewrite <- (Z2Nat.id (_ - _ + 1)) in Hloop by lia.
    rewrite (Z2Nat.id (_ - _ + 1)) in Hloop at 1 by lia.
    eapply (scanlineLoop_runs_count _ _ _ HD _ _ Htable) in Hloop;
      [|lia|lia|by rewrite Hinit].
    destruct Hloop as (runs & -> & Hsorted & _ & Hcount).
    by exists runs. }
  split; [exact Hruns|].
  assert (Hocc : ∀ p, (occurrences p tiles
                       <= length (crossings (polygon s) (pos_y p)) / 2)%nat).
  { destruct Hruns as (runs & -> & _ & Hcount).
    intros p. etransitivity; [apply occurrences_runs|apply Hcount]. }
  split; [exact Hocc|]. split.
  - intros Hc. apply occurrences_NoDup. intros p.
    specialize (Hocc p). specialize (Hc (pos_y p)).
    pose proof (Nat.div_mod_eq (length (crossings (polygon s) (pos_y p))) 2).
    lia.
  - intros Hfit.
    assert (Hordered : ∃ runs, tiles = runs ≫= runCells floor ∧
                               StronglySorted runBefore runs).
    { destruct Hfill as [-> |(Hpoly & Hvalid & Hheight & Hmax & st' & Hloop & ->)].
      { exists []. split; [done|constructor]. }
      pose proof Hvalid as Hvalid'.
      unfold isValid in Hvalid'. apply andb_true_iff in Hvalid' as [_ Hy].
      apply Z.leb_le in Hy.
      unfold span in Hloop.
      rewrite <- (Z2Nat.id (_ - _ + 1)) in Hloop by lia.
      apply scanlineLoop_ordered in Hloop as (runs & -> & Hsorted & _).
      { by exists runs. }
      intros j edges_j tiles_j Hj Hprefix.
      apply (Hfit j); [lia|].
      unfold sessionRowEdges, scanlineState.
      destruct (Nat.ltb_spec (length (polygon s)) 3); [lia|].
      rewrite Hvalid. simpl negb. cbv iota.
      destruct (Z.ltb_spec (int_add (int_sub (maxY (m_boundingBox s))
                                             (minY (m_boundingBox s))) 1) 0);
        [lia|].
      destruct (Z.eqb_spec (maxY (m_boundingBox s)) INT_MAX); [done|].
      by rewrite Hprefix. }
    split; [exact Hordered|].
    destruct Hordered as (runs & -> & Hsorted). by apply runCells_sorted.
Qed.

Lemma notch_rows_fit s :
  closedPolygon notch = Some s → rowsFit 0 s.
Proof.
  intros Hs. vm_compute in Hs. injection Hs as <-.
  intros n edges Hn. cbn [minY maxY m_boundingBox] in Hn.
  destruct n as [|[|[|n]]]; [| | |lia];
    intros Hrow; vm_compute in Hrow; injection Hrow as <-; reflexivity.
Qed.

Lemma getTilesInPolygon_cell_multiplicity_witness :
  ∃ s tiles,
    closedPolygon notch = Some s ∧ getTilesInPolygon 0 s = Some tiles ∧
    (occurrences (mkPosition 2 1 0) tiles <= 2)%nat ∧
    StronglySorted cellLe tiles.
Proof.
  destruct (closedPolygon notch) as [s|] eqn:Hs; [|by vm_compute in Hs].
  exists s, (grid 0 4 0 0 0 ++ grid 0 2 1 1 0 ++ grid 2 4 1 1 0).
  assert (Ht : getTilesInPolygon 0 s =
               Some (grid 0 4 0 0 0 ++ grid 0 2 1 1 0 ++ grid 2 4 1 1 0)).
  { pose proof notch_fill as H. rewrite Hs in H. exact H. }
  split; [reflexivity|]. split; [exact Ht|].
  pose proof (closedPolygon_reachable _ _ Hs) as Hr.
  pose proof (notch_rows_fit s Hs) as Hfit.
  vm_compute in Hs. injection Hs as <-.
  assert (Hlo : int_range 0) by (vm_compute; split; discriminate).
  assert (Hhi : int_range 2) by (vm_compute; split; discriminate).
  destruct (getTilesInPolygon_cell_multiplicity 0 _ _ Hr Hlo Hhi Ht)
    as (_ & Hocc & _ & Hsorted).
  split; [|exact (proj2 (Hsorted Hfit))].
  etransitivity; [apply Hocc|]. vm_compute. lia.
Defined.
